(** * Las Vegas dice game: a shallow embedding of [lasvegas/game.py]

    The class [LasVegas] is embedded as a record of its attributes and a small
    state-and-error monad for its methods: a method is a function from the
    object before the call to an outcome (a value or the exception raised)
    and the object after the call.  Python integers are [Z]; lists are lists,
    indexed from 0, and an index out of range raises [IndexError] as it does
    in Python.  A float is the rational it approximates, and a division whose
    quotient is beyond the floats raises [OverflowError].  The two calls to
    [random.shuffle] take the permutation they produce as an argument. *)

From Stdlib Require Import ZArith QArith Lia Sorted.
From stdpp Require Import base list strings sorting.

Open Scope Z_scope.

(** ** Class constants *)

Definition MAX_PLAYERS : Z := 5.
Definition NUM_DICE : Z := 8.
Definition NUM_ROUNDS : Z := 4.
Definition CASH_NORM : Z := 100.

(** [BILL_COUNTS], in the insertion order of the dictionary. *)
Definition BILL_COUNTS : list (Z * nat) :=
  [(10, 6%nat); (20, 8%nat); (30, 8%nat); (40, 6%nat); (50, 6%nat);
   (60, 5%nat); (70, 5%nat); (80, 5%nat); (90, 5%nat)].

(** [max(self.BILL_COUNTS.keys())] *)
Definition max_bill : Z := foldr Z.max 0 (BILL_COUNTS.*1).

(** [[bill for bill, count in BILL_COUNTS.items() for _ in range(count)]] *)
Definition full_deck : list Z :=
  concat ((λ bc : Z * nat, replicate bc.2 bc.1) <$> BILL_COUNTS).

(** ** Data *)

Module Player.
Record t := mk { cash : Z; dice : Z }.
End Player.

Module Casino.
Record t := mk { bills : list Z; dice : list Z }.
End Casino.

Record LasVegas := Build {
  num_players : Z;
  players : list Player.t;
  deck : list Z;
  casinos : list Casino.t;
  first_player : Z;
  round : Z
}.

Definition set_players (v : list Player.t) (s : LasVegas) : LasVegas :=
  Build (num_players s) v (deck s) (casinos s) (first_player s) (round s).
Definition set_deck (v : list Z) (s : LasVegas) : LasVegas :=
  Build (num_players s) (players s) v (casinos s) (first_player s) (round s).
Definition set_casinos (v : list Casino.t) (s : LasVegas) : LasVegas :=
  Build (num_players s) (players s) (deck s) v (first_player s) (round s).
Definition set_first_player (v : Z) (s : LasVegas) : LasVegas :=
  Build (num_players s) (players s) (deck s) (casinos s) v (round s).
Definition set_round (v : Z) (s : LasVegas) : LasVegas :=
  Build (num_players s) (players s) (deck s) (casinos s) (first_player s) v.

(** ** Exceptions and the method monad *)

Inductive error :=
| AssertionError (msg : string)
| IndexError
| ZeroDivisionError
| OverflowError.

Definition result (A : Type) : Type := error + A.

Definition M (A : Type) : Type := LasVegas → result A * LasVegas.

#[global] Instance M_ret : MRet M := λ A a s, (inr a, s).
#[global] Instance M_bind : MBind M := λ A B f m s,
  match m s with
  | (inl e, s') => (inl e, s')
  | (inr a, s') => f a s'
  end.

Definition get : M LasVegas := λ s, (inr s, s).
Definition modify (f : LasVegas → LasVegas) : M unit := λ s, (inr tt, f s).
Definition raise {A} (e : error) : M A := λ s, (inl e, s).

(** [assert b, msg] *)
Definition assert (b : bool) (msg : string) : M unit :=
  if b then mret tt else raise (AssertionError msg).

(** [for x in l: body(x)], for a list the body does not resize. *)
Fixpoint for_each {A} (l : list A) (body : A → M unit) : M unit :=
  match l with
  | [] => mret tt
  | x :: l' => body x;; for_each l' body
  end.

(** ** Python lists *)

(** [l[i]]: a negative index counts from the end. *)
Definition getitem {A} (l : list A) (i : Z) : option A :=
  if 0 <=? i then l !! Z.to_nat i
  else if 0 <=? Z.of_nat (length l) + i then l !! Z.to_nat (Z.of_nat (length l) + i)
  else None.

(** The bound of a slice: negative bounds count from the end, and [drop]
    and [take] clamp at the length as slices do. *)
Definition slice_bound (n : nat) (i : Z) : nat :=
  if i <? 0 then Z.to_nat (Z.max 0 (Z.of_nat n + i)) else Z.to_nat i.

(** [l[i:] + l[:i]] *)
Definition shifted {A} (l : list A) (i : Z) : list A :=
  drop (slice_bound (length l) i) l ++ take (slice_bound (length l) i) l.

(** [sum(l)] *)
Definition sum (l : list Z) : Z := foldl Z.add 0 l.

(** [l.sort(reverse=True)] on integers. *)
Fixpoint insert_desc (b : Z) (l : list Z) : list Z :=
  match l with
  | [] => [b]
  | x :: l' => if x <? b then b :: x :: l' else x :: insert_desc b l'
  end.

Definition sort_reverse (l : list Z) : list Z := foldr insert_desc [] l.

(** [enumerate(l)] as a list of (index, value) pairs. *)
Definition enumerate (l : list Z) : list (Z * Z) :=
  imap (λ i x, (Z.of_nat i, x)) l.

(** [sorted(pairs, key=lambda x: x[1])]: ascending in the second component
    and stable, so equal keys keep their order. *)
Fixpoint insert_by_count (x : Z * Z) (l : list (Z * Z)) : list (Z * Z) :=
  match l with
  | [] => [x]
  | y :: l' => if x.2 <=? y.2 then x :: y :: l' else y :: insert_by_count x l'
  end.

Definition sorted_by_count (l : list (Z * Z)) : list (Z * Z) :=
  foldr insert_by_count [] l.

(** [Counter(l)[x]] *)
Definition counter (l : list Z) (x : Z) : nat := count_occ Z.eq_dec l x.

(** ** Accessors on [self] *)

Definition player_at (i : Z) : M Player.t := λ s,
  match getitem (players s) i with
  | Some p => (inr p, s)
  | None => (inl IndexError, s)
  end.

Definition casino_at (i : Z) : M Casino.t := λ s,
  match getitem (casinos s) i with
  | Some c => (inr c, s)
  | None => (inl IndexError, s)
  end.

(** Stores into a slot that a preceding [player_at] or [casino_at] found. *)
Definition set_player (i : Z) (p : Player.t) : M unit :=
  modify (λ s, set_players (<[Z.to_nat i := p]> (players s)) s).

Definition set_casino (i : Z) (c : Casino.t) : M unit :=
  modify (λ s, set_casinos (<[Z.to_nat i := c]> (casinos s)) s).

(** ** [deal_bills] *)

(** [while sum(bills[i]) < 50: bills[i].append(self.deck.pop())], on the deck
    read from its end: [stack] is the reversed deck, so its head is the bill
    [pop()] returns.  Popping from the empty deck raises [IndexError]. *)
Fixpoint draw (stack bills : list Z) : result (list Z) * list Z :=
  if sum bills <? 50 then
    match stack with
    | [] => (inl IndexError, [])
    | b :: stack' => draw stack' (bills ++ [b])
    end
  else (inr bills, stack).

(** [while len(bills[i]) < 5: bills[i].append(0)] *)
Definition pad (bills : list Z) : list Z :=
  bills ++ replicate (5 - length bills) 0.

(** The loop [for i in range(6)], for the [n] casinos still to fill. *)
Fixpoint deal_loop (n : nat) (stack : list Z) : result (list (list Z)) * list Z :=
  match n with
  | O => (inr [], stack)
  | S n' =>
      match draw stack [] with
      | (inl e, stack') => (inl e, stack')
      | (inr drawn, stack') =>
          let b := sort_reverse (pad drawn) in
          match deal_loop n' stack' with
          | (inl e, stack'') => (inl e, stack'')
          | (inr rest, stack'') => (inr (b :: rest), stack'')
          end
      end
  end.

Definition deal_bills : M (list Casino.t) := λ s,
  match deal_loop 6 (reverse (deck s)) with
  | (inl e, stack) => (inl e, set_deck (reverse stack) s)
  | (inr bills, stack) =>
      (inr ((λ b, Casino.mk b (replicate (Z.to_nat MAX_PLAYERS) 0)) <$> bills),
       set_deck (reverse stack) s)
  end.

(** ** [__init__] *)

Definition init (shuffle : list Z → list Z) (n : Z) : result LasVegas :=
  if (2 <=? n) && (n <=? MAX_PLAYERS) then
    let self :=
      Build n
        ((λ i, if i <? n then Player.mk 0 NUM_DICE else Player.mk 0 0)
           <$> seqZ 0 MAX_PLAYERS)
        (shuffle full_deck) [] 0 1 in
    match deal_bills self with
    | (inr cs, self') => inr (set_casinos cs self')
    | (inl e, _) => inl e
    end
  else inl (AssertionError "Invalid number of players").

(** ** [roll_dice] *)

(** [randint k] is the face the [k]-th call of [randint(1, 6)] returns. *)
Definition roll_dice (randint : nat → Z) (player : Z) : M (list Z) :=
  p ← player_at player;
  let roll := randint <$> seq 0 (Z.to_nat (Player.dice p)) in
  mret ((λ i, Z.of_nat (counter roll (i + 1))) <$> seqZ 0 6).

(** ** [play_move] *)

Definition play_move (player action : Z) (roll_counts : list Z) : M unit :=
  s ← get;
  assert ((0 <=? player) && (player <? num_players s)) "Invalid player";;
  assert ((0 <=? action) && (action <? 6)) "Invalid casino";;
  r ← (λ s, match getitem roll_counts action with
            | Some r => (inr r, s) | None => (inl IndexError, s) end);
  assert (0 <? r) "No dice to play";;
  p ← player_at player;
  set_player player (Player.mk (Player.cash p) (Player.dice p - r));;
  c ← casino_at action;
  match getitem (Casino.dice c) player with
  | Some d =>
      set_casino action
        (Casino.mk (Casino.bills c) (<[Z.to_nat player := d + r]> (Casino.dice c)))
  | None => raise IndexError
  end.

(** ** [is_end_round], [is_end_game] *)

(** [all(self.players[i]["dice"] == 0 for i in idx)], stopping at the first
    player who still has dice. *)
Fixpoint all_dice_zero (idx : list Z) : M bool :=
  match idx with
  | [] => mret true
  | i :: rest =>
      p ← player_at i;
      if Player.dice p =? 0 then all_dice_zero rest else mret false
  end.

Definition is_end_round : M bool :=
  s ← get; all_dice_zero (seqZ 0 (num_players s)).

Definition is_end_game : M bool :=
  s ← get;
  if round s =? NUM_ROUNDS then is_end_round else mret false.

(** ** [advance_round] *)

(** [casino["bills"].pop(0)] for the casino at index [ci]. *)
Definition pop_bill (ci : Z) : M Z :=
  casino ← casino_at ci;
  match Casino.bills casino with
  | bill :: rest => set_casino ci (Casino.mk rest (Casino.dice casino));; mret bill
  | [] => raise IndexError
  end.

(** The body of [while len(ranked) > 0] for the pair that [ranked.pop()]
    returned, in casino [ci] whose [Counter] is over [counts]. *)
Definition pay_rank (ci : Z) (counts : list Z) (pc : Z * Z) : M unit :=
  casino ← casino_at ci;
  if bool_decide (counter counts pc.2 = 1%nat)
     && bool_decide (Casino.bills casino ≠ []) then
    p ← player_at pc.1;
    bill ← pop_bill ci;
    set_player pc.1 (Player.mk (Player.cash p + bill) (Player.dice p))
  else mret tt.

(** [if bill: self.deck.append(bill)] *)
Definition recycle (bill : Z) : M unit :=
  if bill =? 0 then mret tt else modify (λ s, set_deck (deck s ++ [bill]) s).

(** The body of [for casino in self.casinos], for the casino at index [ci]. *)
Definition resolve_casino (ci : Z) : M unit :=
  casino ← casino_at ci;
  let counts := Casino.dice casino in
  let ranked := sorted_by_count (enumerate (Casino.dice casino)) in
  for_each (reverse ranked) (pay_rank ci counts);;
  casino ← casino_at ci;
  for_each (Casino.bills casino) recycle.

(** [self.players[i]["dice"] = self.NUM_DICE] *)
Definition reset_dice (i : Z) : M unit :=
  p ← player_at i;
  set_player i (Player.mk (Player.cash p) NUM_DICE).

Definition advance_round (shuffle : list Z → list Z) : M unit :=
  over ← is_end_round;
  assert over "Round is not over";;
  s ← get;
  for_each (seqZ 0 (Z.of_nat (length (casinos s)))) resolve_casino;;
  s ← get;
  if round s <? NUM_ROUNDS then
    modify (λ s, set_deck (shuffle (deck s)) s);;
    cs ← deal_bills;
    modify (set_casinos cs);;
    for_each (seqZ 0 (num_players s)) reset_dice;;
    (if num_players s =? 0 then raise ZeroDivisionError
     else modify (λ s, set_first_player ((first_player s + 1) `mod` num_players s) s));;
    modify (λ s, set_round (round s + 1) s)
  else mret tt.

(** ** [get_game_state] *)

(** The methods that leave [self] alone return their value or raise. *)
#[global] Instance result_ret : MRet result := λ A a, inr a.
#[global] Instance result_bind : MBind result := λ A B f r,
  match r with
  | inl e => inl e
  | inr a => f a
  end.

(** The quotient of two integers, the number the float [a / b] approximates. *)
Definition truediv (a b : Z) : Q := inject_Z a / inject_Z b.

(** Where the floats end: the largest finite double is [2^1024 - 2^971], and
    a number halfway from there to [2^1024], or beyond, rounds to no finite
    double. *)
Definition float_overflow : Z := 2 ^ 1024 - 2 ^ 970.

(** [a / b] on integers: a zero divisor raises [ZeroDivisionError], and a
    quotient too large for a float raises [OverflowError]. *)
Definition int_truediv (a b : Z) : result Q :=
  if b =? 0 then inl ZeroDivisionError
  else if float_overflow * Z.abs b <=? Z.abs a then inl OverflowError
  else inr (truediv a b).

(** [f(x) for x in l] as [extend] consumes it: the first exception ends it. *)
Fixpoint for_list {A B} (f : A → result B) (l : list A) : result (list B) :=
  match l with
  | [] => inr []
  | x :: l' => y ← f x; ys ← for_list f l'; mret (y :: ys)
  end.

Definition order (s : LasVegas) (player : Z) : Z :=
  if first_player s <=? player then player - first_player s
  else num_players s - first_player s + player.

(** The entries one casino contributes to the vector. *)
Definition casino_state (player : Z) (casino : Casino.t) : result (list Q) :=
  ds ← for_list (λ d, int_truediv d NUM_DICE) (shifted (Casino.dice casino) player);
  bs ← for_list (λ b, int_truediv b max_bill) (shifted (Casino.bills casino) player);
  mret (ds ++ bs).

Definition get_game_state (s : LasVegas) (player : Z) (roll_counts : list Z)
  : result (list Q) :=
  v0 ← int_truediv (num_players s) MAX_PLAYERS;
  v1 ← int_truediv (round s) NUM_ROUNDS;
  v2 ← int_truediv (order s player) (num_players s);
  cash ← for_list (λ c, int_truediv c CASH_NORM)
            (shifted (Player.cash <$> players s) player);
  cs ← for_list (casino_state player) (casinos s);
  rolls ← for_list (λ r, int_truediv r NUM_DICE) roll_counts;
  mret ([v0; v1; v2] ++ cash ++ concat cs ++ rolls).

(** * Functional models of the methods, and what is specified of them *)

(** ** The payout of one casino as a function *)

(** The player at slot [i] is paid the bill [b]. *)
Definition credit (pl : list Player.t) (i : Z) (b : Z) : list Player.t :=
  alter (λ p, Player.mk (Player.cash p + b) (Player.dice p)) (Z.to_nat i) pl.

(** The [while] loop over [order], the pairs in the order [ranked.pop()]
    returns them, on the players [pl] and the casino's bills [bl]. *)
Fixpoint pay (counts : list Z) (order : list (Z * Z))
    (pl : list Player.t) (bl : list Z) : list Player.t * list Z :=
  match order with
  | [] => (pl, bl)
  | pc :: order' =>
      if bool_decide (counter counts pc.2 = 1%nat) then
        match bl with
        | b :: bl' => pay counts order' (credit pl pc.1 b) bl'
        | [] => pay counts order' pl []
        end
      else pay counts order' pl bl
  end.

(** The order in which the loop visits the slots of a casino. *)
Definition payout_order (dice : list Z) : list (Z * Z) :=
  reverse (sorted_by_count (enumerate dice)).

(** The bills the recycling loop appends to the deck. *)
Definition leftover (bl : list Z) : list Z := filter (λ b, b ≠ 0) bl.

(** The outcome of the payout loop of casino [c] for the players [pl]. *)
Definition casino_payout (c : Casino.t) (pl : list Player.t) : list Player.t * list Z :=
  pay (Casino.dice c) (payout_order (Casino.dice c)) pl (Casino.bills c).

(** The loop [for casino in self.casinos] as a function: the casinos after
    their payouts, the players and the deck. *)
Fixpoint resolve (cs : list Casino.t) (pl : list Player.t) (dk : list Z)
  : list Casino.t * (list Player.t * list Z) :=
  match cs with
  | [] => ([], (pl, dk))
  | c :: cs' =>
      let out := casino_payout c pl in
      let rest := resolve cs' out.1 (dk ++ leftover out.2) in
      (Casino.mk out.2 (Casino.dice c) :: rest.1, rest.2)
  end.

(** [is_end_round] as a test on the list of players. *)
Definition round_over (n : Z) (pl : list Player.t) : bool :=
  forallb (λ p, Player.dice p =? 0) (take (Z.to_nat n) pl).

(** What [deal_bills] promises of the bills of one casino. *)
Definition dealt (b : list Z) : Prop :=
  length b = 5%nat ∧ StronglySorted Z.ge b ∧ 50 ≤ sum (leftover b).

(** The non-empty bills lying in the casinos. *)
Definition casino_bills (cs : list Casino.t) : list Z :=
  concat ((λ c, leftover (Casino.bills c)) <$> cs).

(** ** Who is paid: the closed form of the payout loop *)

(** The slots whose count no other slot shares, highest count first. *)
Definition winners (dice : list Z) : list (Z * Z) :=
  filter (λ pc : Z * Z, counter dice pc.2 = 1%nat) (payout_order dice).

(** Each pair of [wbs] names a slot and the bill it is paid. *)
Definition pay_all (pl : list Player.t) (wbs : list ((Z * Z) * Z)) : list Player.t :=
  foldl (λ pl wb, credit pl wb.1.1 wb.2) pl wbs.

(** ** [play_move] as a function *)

(** The state after [r] dice of [player] went to casino [action]. *)
Definition place (player action r : Z) (s : LasVegas) : LasVegas :=
  set_casinos
    (alter (λ c, Casino.mk (Casino.bills c)
                   (alter (λ d, d + r) (Z.to_nat player) (Casino.dice c)))
       (Z.to_nat action) (casinos s))
    (set_players
       (alter (λ p, Player.mk (Player.cash p) (Player.dice p - r))
          (Z.to_nat player) (players s))
       s).

(** The shape every game keeps: five player slots, six casinos, five dice
    counts a casino. *)
Record shape (s : LasVegas) : Prop := Shape {
  shape_num : 2 ≤ num_players s ≤ MAX_PLAYERS;
  shape_players : length (players s) = 5%nat;
  shape_casinos : length (casinos s) = 6%nat;
  shape_dice : Forall (λ c, length (Casino.dice c) = 5%nat) (casinos s)
}.

(** ** [advance_round] as a function *)

(** The loop that hands the dice back, for the [m] slots from [k] on. *)
Fixpoint refill (k m : nat) (pl : list Player.t) : list Player.t :=
  match m with
  | O => pl
  | S m' => refill (S k) m' (alter (λ p, Player.mk (Player.cash p) NUM_DICE) k pl)
  end.

(** The casinos [deal_bills] builds once the deck is shuffled, or its
    failure, and the state it leaves. *)
Definition redeal (shuffle : list Z → list Z) (s : LasVegas) : result unit * LasVegas :=
  match deal_bills (set_deck (shuffle (deck s)) s) with
  | (inl e, s1) => (inl e, s1)
  | (inr cs, s1) =>
      (inr tt,
       Build (num_players s)
         (refill 0 (Z.to_nat (num_players s)) (players s))
         (deck s1) cs
         ((first_player s + 1) `mod` num_players s) (round s + 1))
  end.

(** The state after the payout loop over all casinos. *)
Definition paid_state (s : LasVegas) : LasVegas :=
  let out := resolve (casinos s) (players s) (deck s) in
  Build (num_players s) out.2.1 out.2.2 out.1 (first_player s) (round s).

(** ** Games: the states a driver can reach *)

Inductive op :=
| PlayMove (player action : Z) (roll_counts : list Z)
| AdvanceRound (shuffle : list Z → list Z).

Definition run_op (o : op) : M unit :=
  match o with
  | PlayMove player action roll_counts => play_move player action roll_counts
  | AdvanceRound shuffle => advance_round shuffle
  end.

(** What [random.shuffle] does to a list: it permutes it. *)
Definition shuffles (shuffle : list Z → list Z) : Prop := ∀ d, shuffle d ≡ₚ d.

(** What [randint(1, 6)] returns. *)
Definition die (randint : nat → Z) : Prop := ∀ k, 1 ≤ randint k ≤ 6.

Definition random_ok (o : op) : Prop :=
  match o with
  | PlayMove _ _ _ => True
  | AdvanceRound shuffle => shuffles shuffle
  end.

(** The bills the payout loop hands to players in casino [c]: the non-empty
    ones among the bills popped, one per winner. *)
Definition paid_out (c : Casino.t) : list Z :=
  leftover (take (length (winners (Casino.dice c))) (Casino.bills c)).

(** The bills an operation that succeeds in state [s] pays out. *)
Definition paid_by (o : op) (s : LasVegas) : list Z :=
  match o with
  | PlayMove _ _ _ => []
  | AdvanceRound _ => concat (paid_out <$> casinos s)
  end.

(** [reachable allowed s paid]: a driver that only issues the operations
    [allowed] gets the game into state [s], and [paid] are the bills paid
    out to players on the way. *)
Inductive reachable (allowed : LasVegas → op → Prop) : LasVegas → list Z → Prop :=
| reachable_init shuffle n s :
    shuffles shuffle → init shuffle n = inr s → reachable allowed s []
| reachable_step s paid o s' :
    reachable allowed s paid → allowed s o → random_ok o →
    run_op o s = (inr tt, s') →
    reachable allowed s' (paid ++ paid_by o s).

(** Every operation whose own assertions pass. *)
Definition any_op (s : LasVegas) (o : op) : Prop := True.

(** The moves play the counts of a roll of the player's remaining dice. *)
Definition rolled (s : LasVegas) (o : op) : Prop :=
  match o with
  | PlayMove player _ roll_counts =>
      ∃ randint, die randint ∧ roll_dice randint player s = (inr roll_counts, s)
  | AdvanceRound _ => True
  end.

(** The final round has not been resolved. *)
Definition in_play (s : LasVegas) (o : op) : Prop :=
  match o with
  | PlayMove _ _ _ => True
  | AdvanceRound _ => round s < NUM_ROUNDS
  end.

(** Conservation of the 54 bills, as a multiset. *)
Definition conserved (s : LasVegas) (paid : list Z) : Prop :=
  deck s ++ casino_bills (casinos s) ++ paid ≡ₚ full_deck.

(** ** The invariant of games played with rolled counts *)

Record sane (s : LasVegas) : Prop := Sane {
  sane_round : 1 ≤ round s ≤ NUM_ROUNDS;
  sane_first : 0 ≤ first_player s < num_players s;
  sane_players :
    Forall (λ p, 0 ≤ Player.dice p ≤ NUM_DICE ∧ 0 ≤ Player.cash p) (players s);
  sane_placed :
    ∀ c (q : nat) d p,
      c ∈ casinos s → Casino.dice c !! q = Some d → players s !! q = Some p →
      0 ≤ d ∧ d + Player.dice p ≤ NUM_DICE;
  sane_deck : Forall (λ b, 10 ≤ b ≤ 90) (deck s);
  sane_bills :
    Forall (λ c, Forall (λ b, b = 0 ∨ 10 ≤ b ≤ 90) (Casino.bills c)) (casinos s)
}.

(** ** A driver: scripted games *)

(** A command of the driver: roll the player's dice and play the casino
    [action] with the counts rolled, or resolve the round. *)
Inductive cmd :=
| Roll (randint : nat → Z) (player action : Z)
| Resolve (shuffle : list Z → list Z).

Definition cmd_ok (c : cmd) : Prop :=
  match c with
  | Roll randint _ _ => die randint
  | Resolve shuffle => shuffles shuffle
  end.

Fixpoint drive (cmds : list cmd) (s : LasVegas) (paid : list Z)
  : option (LasVegas * list Z) :=
  match cmds with
  | [] => Some (s, paid)
  | Roll randint player action :: rest =>
      match roll_dice randint player s with
      | (inr roll_counts, _) =>
          match play_move player action roll_counts s with
          | (inr _, s') => drive rest s' paid
          | (inl _, _) => None
          end
      | (inl _, _) => None
      end
  | Resolve shuffle :: rest =>
      match advance_round shuffle s with
      | (inr _, s') => drive rest s' (paid ++ concat (paid_out <$> casinos s))
      | (inl _, _) => None
      end
  end.

(** ** Example games *)

(** The game [init shuffle n] builds, for the examples. *)
Definition new_game (shuffle : list Z → list Z) (n : Z) : LasVegas :=
  match init shuffle n with
  | inr s => s
  | inl _ => Build 0 [] [] [] 0 0
  end.

(** A roll whose first [k] dice show [f1] and the others [f2]. *)
Definition faces (k : nat) (f1 f2 : Z) : nat → Z :=
  λ j, if (j <? k)%nat then f1 else f2.

(** Three players; in casino 0 players 0 and 1 place 3 dice each and player
    2 places 1 die. *)
Definition tie_script : list cmd :=
  [Roll (faces 3 1 2) 0 0; Roll (faces 0 2 2) 0 1;
   Roll (faces 3 1 3) 1 0; Roll (faces 0 3 3) 1 2;
   Roll (faces 1 1 4) 2 0; Roll (faces 0 4 4) 2 3].

Definition tie_game : LasVegas :=
  Eval vm_compute in
    match drive tie_script (new_game id 3) [] with
    | Some (s, _) => s
    | None => new_game id 3
    end.

(** Four players; in casino 0, which holds five bills, they place 4, 3, 2
    and 1 dice, and then the round is resolved. *)
Definition four_script : list cmd :=
  [Roll (faces 4 1 2) 0 0; Roll (faces 0 2 2) 0 1;
   Roll (faces 3 1 3) 1 0; Roll (faces 0 3 3) 1 2;
   Roll (faces 2 1 4) 2 0; Roll (faces 0 4 4) 2 3;
   Roll (faces 1 1 5) 3 0; Roll (faces 0 5 5) 3 4;
   Resolve id].

Definition four_game : LasVegas * list Z :=
  Eval vm_compute in
    match drive four_script (new_game reverse 4) [] with
    | Some r => r
    | None => (new_game reverse 4, [])
    end.

(** Two players; in each of the four rounds player 0 places all dice on
    casino 0 and player 1 all dice on casino 1, and the round is resolved. *)
Definition round_script : list cmd :=
  [Roll (faces 0 1 1) 0 0; Roll (faces 0 2 2) 1 1; Resolve id].

Definition full_script : list cmd :=
  round_script ++ round_script ++ round_script ++ round_script.

Definition full_game : LasVegas * list Z :=
  Eval vm_compute in
    match drive full_script (new_game id 2) [] with
    | Some r => r
    | None => (new_game id 2, [])
    end.

(** Two players; player 0 places 4 dice each on casinos 0 and 1, which hold
    a bill of 90 each, player 1 places 8 dice on casino 2, and the round is
    resolved. *)
Definition cash_script : list cmd :=
  [Roll (faces 4 1 2) 0 0; Roll (faces 0 2 2) 0 1; Roll (faces 0 3 3) 1 2;
   Resolve id].

Definition cash_game : LasVegas * list Z :=
  Eval vm_compute in
    match drive cash_script (new_game id 2) [] with
    | Some r => r
    | None => (new_game id 2, [])
    end.

(** ** [get_game_state] as a function *)

(** The entries of one casino, when every division returns. *)
Definition casino_entries (player : Z) (casino : Casino.t) : list Q :=
  ((λ d, truediv d NUM_DICE) <$> shifted (Casino.dice casino) player)
  ++ ((λ b, truediv b max_bill) <$> shifted (Casino.bills casino) player).

(** The vector [get_game_state] returns, when every division returns. *)
Definition state_vector (s : LasVegas) (player : Z) (roll_counts : list Z) : list Q :=
  [truediv (num_players s) MAX_PLAYERS;
   truediv (round s) NUM_ROUNDS;
   truediv (order s player) (num_players s)]
  ++ ((λ c, truediv c CASH_NORM) <$> shifted (Player.cash <$> players s) player)
  ++ concat (casino_entries player <$> casinos s)
  ++ ((λ r, truediv r NUM_DICE) <$> roll_counts).

(** An integer whose quotient by a non-zero integer is a float. *)
Definition fits_float (x : Z) : Prop := Z.abs x < float_overflow.

(** Games played with rolled counts whose final round is not resolved. *)
Definition rolled_in_play (s : LasVegas) (o : op) : Prop := rolled s o ∧ in_play s o.

(** ** Totals *)

(** The cash of all player slots. *)
Definition total_cash (pl : list Player.t) : Z := sum (Player.cash <$> pl).

(** The value of the bill slots of all casinos, empty slots counting 0. *)
Definition bills_value (cs : list Casino.t) : Z :=
  sum (concat (Casino.bills <$> cs)).

(** The dice the slot [q] has placed in the casinos. *)
Definition placed (cs : list Casino.t) (q : nat) : Z :=
  sum ((λ c, default 0 (Casino.dice c !! q)) <$> cs).

(** * Reasoning about the methods *)

(** ** Sanity checks on small inputs *)

Example full_deck_54 : length full_deck = 54%nat ∧ sum full_deck = 2500.
Proof. split; reflexivity. Qed.

Example max_bill_90 : max_bill = 90.
Proof. reflexivity. Qed.

Example sort_reverse_ex : sort_reverse [10; 40; 0; 20; 0] = [40; 20; 10; 0; 0].
Proof. reflexivity. Qed.

Example sorted_by_count_ex :
  sorted_by_count (enumerate [3; 0; 3; 1; 0])
  = [(1, 0); (4, 0); (3, 1); (0, 3); (2, 3)].
Proof. reflexivity. Qed.

Example shifted_ex : shifted [1; 2; 3; 4; 5] 2 = [3; 4; 5; 1; 2].
Proof. reflexivity. Qed.

(** ** Running monadic code *)

Lemma bind_run {A B} (m : M A) (f : A → M B) s :
  (m ≫= f) s = match m s with
               | (inl e, s') => (inl e, s')
               | (inr a, s') => f a s'
               end.
Proof. reflexivity. Qed.

Lemma getitem_nat {A} (l : list A) (i : nat) : getitem l (Z.of_nat i) = l !! i.
Proof.
  unfold getitem. destruct (Z.leb_spec 0 (Z.of_nat i)); [|lia].
  by rewrite Nat2Z.id.
Qed.

Lemma getitem_nonneg {A} (l : list A) (i : Z) :
  0 ≤ i → getitem l i = l !! Z.to_nat i.
Proof. intros. unfold getitem. by destruct (Z.leb_spec 0 i); [|lia]. Qed.

Lemma set_same (s : LasVegas) :
  set_players (players s) s = s ∧ set_casinos (casinos s) s = s
  ∧ set_deck (deck s) s = s.
Proof. by destruct s. Qed.

(** ** The payout loops *)

Lemma credit_length pl i b : length (credit pl i b) = length pl.
Proof. apply length_alter. Qed.

Lemma pay_length counts order pl bl :
  length (pay counts order pl bl).1 = length pl.
Proof.
  revert pl bl. induction order as [|pc order IH]; intros pl bl; simpl; [done|].
  case_bool_decide; [destruct bl|]; rewrite IH; auto using credit_length.
Qed.

Lemma for_each_pay_rank counts order n pl dk cs fp r (i : nat) bl dice :
  cs !! i = Some (Casino.mk bl dice) →
  Forall (λ pc : Z * Z, 0 ≤ pc.1 < Z.of_nat (length pl)) order →
  for_each order (pay_rank (Z.of_nat i) counts) (Build n pl dk cs fp r)
  = (inr tt,
     Build n (pay counts order pl bl).1 dk
       (<[i := Casino.mk (pay counts order pl bl).2 dice]> cs) fp r).
Proof.
  revert pl cs bl. induction order as [|pc order IH]; intros pl cs bl Hc Hidx.
  - simpl. by rewrite list_insert_id.
  - inversion Hidx as [|? ? [Hlo Hhi] Hidx']; subst.
    cbn [for_each pay]. rewrite bind_run.
    unfold pay_rank at 1. rewrite bind_run.
    unfold casino_at at 1. cbn [casinos]. rewrite getitem_nat, Hc. cbn [Casino.bills].
    case_bool_decide as Hu; cbn [andb].
    + destruct bl as [|b bl'].
      * rewrite bool_decide_false by naive_solver. by apply IH.
      * rewrite bool_decide_true by done.
        destruct (lookup_lt_is_Some_2 pl (Z.to_nat pc.1)) as [p Hp]; [lia|].
        rewrite bind_run. unfold player_at at 1. cbn [players].
        rewrite getitem_nonneg, Hp by done.
        rewrite bind_run. unfold pop_bill. rewrite bind_run.
        unfold casino_at at 1. cbn [casinos]. rewrite getitem_nat, Hc.
        cbn [Casino.bills Casino.dice]. rewrite bind_run.
        unfold set_casino, set_player, modify, set_casinos, set_players.
        cbn [mret M_ret players casinos num_players deck first_player round].
        rewrite Nat2Z.id.
        rewrite (IH _ _ bl'); cycle 1.
        { apply list_lookup_insert_eq. by eapply lookup_lt_Some. }
        { by rewrite length_insert. }
        rewrite list_insert_insert_eq.
        replace (<[Z.to_nat pc.1:=_]> pl) with (credit pl pc.1 b); [done|].
        unfold credit. apply list_eq; intros j.
        destruct (decide (j = Z.to_nat pc.1)) as [->|].
        -- rewrite list_lookup_alter_eq, Hp, list_lookup_insert_eq; [done|].
           by eapply lookup_lt_Some.
        -- by rewrite list_lookup_alter_ne, list_lookup_insert_ne.
    + by apply IH.
Qed.

Lemma for_each_recycle bl s :
  for_each bl recycle s = (inr tt, set_deck (deck s ++ leftover bl) s).
Proof.
  revert s. induction bl as [|b bl IH]; intros s.
  - simpl. unfold leftover. rewrite filter_nil, app_nil_r.
    by destruct (set_same s) as (_ & _ & ->).
  - cbn [for_each]. rewrite bind_run. unfold recycle at 1, leftover.
    rewrite filter_cons. destruct (Z.eqb_spec b 0) as [->|Hb].
    + cbn [mret M_ret]. rewrite IH. by rewrite decide_False by naive_solver.
    + unfold modify. rewrite IH. rewrite decide_True by done.
      destruct s; unfold set_deck; cbn. by rewrite <-app_assoc.
Qed.

Lemma insert_by_count_perm x l : insert_by_count x l ≡ₚ x :: l.
Proof.
  induction l as [|y l IH]; simpl; [done|].
  destruct (x.2 <=? y.2); [done|]. rewrite IH. apply Permutation_swap.
Qed.

Lemma sorted_by_count_perm l : sorted_by_count l ≡ₚ l.
Proof.
  induction l as [|x l IH]; simpl; [done|].
  by rewrite insert_by_count_perm, IH.
Qed.

Lemma payout_order_perm dice : payout_order dice ≡ₚ enumerate dice.
Proof. unfold payout_order. by rewrite reverse_Permutation, sorted_by_count_perm. Qed.

Lemma elem_of_enumerate dice (pc : Z * Z) :
  pc ∈ enumerate dice ↔ 0 ≤ pc.1 ∧ dice !! Z.to_nat pc.1 = Some pc.2.
Proof.
  unfold enumerate. rewrite elem_of_lookup_imap. split.
  - intros (i & x & -> & Hi). simpl. rewrite Nat2Z.id. split; [lia|done].
  - intros [Hlo Hi]. exists (Z.to_nat pc.1), pc.2. split; [|done].
    destruct pc as [p c]; simpl in *. f_equal. lia.
Qed.

Lemma elem_of_payout_order dice (pc : Z * Z) :
  pc ∈ payout_order dice ↔ 0 ≤ pc.1 ∧ dice !! Z.to_nat pc.1 = Some pc.2.
Proof. by rewrite payout_order_perm, elem_of_enumerate. Qed.

Lemma payout_order_slots dice (n : nat) :
  (length dice ≤ n)%nat →
  Forall (λ pc : Z * Z, 0 ≤ pc.1 < Z.of_nat n) (payout_order dice).
Proof.
  intros Hn. apply Forall_forall. intros pc [Hlo Hi]%elem_of_payout_order.
  apply lookup_lt_Some in Hi. lia.
Qed.

Lemma resolve_casino_run n pl dk cs fp r (i : nat) c :
  cs !! i = Some c →
  (length (Casino.dice c) ≤ length pl)%nat →
  resolve_casino (Z.of_nat i) (Build n pl dk cs fp r)
  = (inr tt,
     Build n (casino_payout c pl).1 (dk ++ leftover (casino_payout c pl).2)
       (<[i := Casino.mk (casino_payout c pl).2 (Casino.dice c)]> cs) fp r).
Proof.
  intros Hc Hlen. destruct c as [bl dice]. cbn [Casino.dice] in Hlen.
  unfold resolve_casino. rewrite bind_run.
  unfold casino_at at 1. cbn [casinos]. rewrite getitem_nat, Hc.
  cbn [Casino.dice]. rewrite bind_run.
  fold (payout_order dice).
  rewrite (for_each_pay_rank _ _ _ _ _ _ _ _ _ bl dice Hc)
    by by apply payout_order_slots.
  rewrite bind_run. unfold casino_at. cbn [casinos]. rewrite getitem_nat.
  rewrite list_lookup_insert_eq by by eapply lookup_lt_Some.
  cbn [Casino.bills]. by rewrite for_each_recycle.
Qed.

Lemma casino_payout_length c pl : length (casino_payout c pl).1 = length pl.
Proof. apply pay_length. Qed.

Lemma for_each_resolve_casino todo done n pl dk fp r :
  Forall (λ c, length (Casino.dice c) ≤ length pl)%nat todo →
  for_each (seqZ (Z.of_nat (length done)) (Z.of_nat (length todo))) resolve_casino
    (Build n pl dk (done ++ todo) fp r)
  = (inr tt,
     Build n (resolve todo pl dk).2.1 (resolve todo pl dk).2.2
       (done ++ (resolve todo pl dk).1) fp r).
Proof.
  revert done pl dk. induction todo as [|c todo IH]; intros done pl dk Hlen.
  - done.
  - inversion Hlen as [|? ? Hc Hlen']; subst.
    rewrite seqZ_cons by (simpl; lia). cbn [for_each]. rewrite bind_run.
    rewrite (resolve_casino_run _ _ _ _ _ _ _ c); [|by apply list_lookup_middle|done].
    replace (<[length done:=_]> (done ++ c :: todo))
      with ((done ++ [Casino.mk (casino_payout c pl).2 (Casino.dice c)]) ++ todo).
    2:{ rewrite <-(Nat.add_0_r (length done)), insert_app_r. simpl.
        by rewrite <-app_assoc. }
    replace (Z.succ (Z.of_nat (length done)))
      with (Z.of_nat (length (done ++ [Casino.mk (casino_payout c pl).2 (Casino.dice c)])))
      by (rewrite length_app; simpl; lia).
    replace (Z.pred (Z.of_nat (length (c :: todo)))) with (Z.of_nat (length todo))
      by (simpl; lia).
    rewrite IH.
    + cbn [resolve]. by rewrite <-app_assoc.
    + eapply Forall_impl; [done|]. intros c' ?. simpl. by rewrite casino_payout_length.
Qed.

Lemma all_dice_zero_run (m k : nat) s :
  (k + m ≤ length (players s))%nat →
  all_dice_zero (seqZ (Z.of_nat k) (Z.of_nat m)) s
  = (inr (forallb (λ p, Player.dice p =? 0) (take m (drop k (players s)))), s).
Proof.
  revert k. induction m as [|m IH]; intros k Hk.
  - done.
  - rewrite seqZ_cons by lia. cbn [all_dice_zero]. rewrite bind_run.
    unfold player_at. rewrite getitem_nat.
    destruct (lookup_lt_is_Some_2 (players s) k) as [p Hp]; [lia|].
    rewrite Hp. rewrite (drop_S _ p) by done. cbn [take forallb].
    destruct (Player.dice p =? 0); [|done]. cbn [andb].
    replace (Z.succ (Z.of_nat k)) with (Z.of_nat (S k)) by lia.
    replace (Z.pred (Z.of_nat (S m))) with (Z.of_nat m) by lia.
    apply IH. lia.
Qed.

Lemma is_end_round_run s :
  0 ≤ num_players s ≤ Z.of_nat (length (players s)) →
  is_end_round s = (inr (round_over (num_players s) (players s)), s).
Proof.
  intros Hn. unfold is_end_round, get. rewrite bind_run.
  rewrite <-(Z2Nat.id (num_players s)) at 1 by lia.
  rewrite (all_dice_zero_run _ 0) by (simpl; lia). done.
Qed.

(** ** Sums and sorting *)

Lemma foldl_add_acc (a : Z) l : foldl Z.add a l = a + foldl Z.add 0 l.
Proof.
  revert a. induction l as [|x l IH]; intros a; simpl; [lia|].
  rewrite IH, (IH (0 + x)). lia.
Qed.

Lemma sum_cons x l : sum (x :: l) = x + sum l.
Proof. unfold sum. simpl. rewrite foldl_add_acc. lia. Qed.

Lemma sum_app l1 l2 : sum (l1 ++ l2) = sum l1 + sum l2.
Proof.
  induction l1 as [|x l1 IH]; [done|].
  simpl. rewrite !sum_cons, IH. lia.
Qed.

Lemma sum_perm l1 l2 : l1 ≡ₚ l2 → sum l1 = sum l2.
Proof. induction 1; rewrite ?sum_cons in *; lia. Qed.

Lemma sum_lower_bound (m : Z) l :
  Forall (λ b, m ≤ b) l → m * Z.of_nat (length l) ≤ sum l.
Proof.
  induction 1 as [|x l Hx _ IH]; [unfold sum; simpl; lia|].
  rewrite sum_cons. simpl length. lia.
Qed.

Lemma insert_desc_perm b l : insert_desc b l ≡ₚ b :: l.
Proof.
  induction l as [|x l IH]; simpl; [done|].
  destruct (x <? b); [done|]. rewrite IH. apply Permutation_swap.
Qed.

Lemma sort_reverse_perm l : sort_reverse l ≡ₚ l.
Proof.
  induction l as [|x l IH]; simpl; [done|].
  by rewrite insert_desc_perm, IH.
Qed.

Lemma insert_desc_sorted b l :
  StronglySorted Z.ge l → StronglySorted Z.ge (insert_desc b l).
Proof.
  induction 1 as [|x l Hl IH Hx]; simpl.
  - repeat constructor.
  - destruct (Z.ltb_spec x b).
    + constructor; [by constructor|]. constructor; [lia|].
      eapply Forall_impl; [done|]. simpl. lia.
    + constructor; [done|]. rewrite insert_desc_perm. constructor; [lia|done].
Qed.

Lemma sort_reverse_sorted l : StronglySorted Z.ge (sort_reverse l).
Proof.
  induction l as [|x l IH]; simpl; [constructor|]. by apply insert_desc_sorted.
Qed.

Lemma leftover_perm l1 l2 : l1 ≡ₚ l2 → leftover l1 ≡ₚ leftover l2.
Proof. unfold leftover. by intros ->. Qed.

Lemma leftover_nonzero l : Forall (λ b, b ≠ 0) l → leftover l = l.
Proof.
  unfold leftover. induction 1 as [|x l Hx _ IH]; [done|].
  by rewrite filter_cons, decide_True, IH.
Qed.

Lemma leftover_pad l : leftover (pad l) = leftover l.
Proof.
  unfold pad, leftover. rewrite filter_app.
  replace (filter _ (replicate _ 0)) with (@nil Z); [by rewrite app_nil_r|].
  induction (5 - length l)%nat as [|k IH]; [done|].
  simpl. by rewrite filter_cons, decide_False by naive_solver.
Qed.

(** ** [deal_bills] *)

Lemma draw_inv stack bills drawn stack' :
  Forall (λ b, 10 ≤ b) stack → Forall (λ b, 10 ≤ b) bills →
  (length bills ≤ 5)%nat →
  draw stack bills = (inr drawn, stack') →
  ∃ popped, stack = popped ++ stack' ∧ drawn = bills ++ popped
            ∧ 50 ≤ sum drawn ∧ (length drawn ≤ 5)%nat.
Proof.
  revert bills. induction stack as [|b stack IH]; intros bills Hs Hb Hlen; simpl.
  - destruct (Z.ltb_spec (sum bills) 50); [done|]. intros [= <- <-].
    exists []. by rewrite !app_nil_r.
  - destruct (Z.ltb_spec (sum bills) 50) as [Hlt|Hge].
    + intros Hd. inversion Hs; subst.
      pose proof (sum_lower_bound 10 bills Hb).
      apply IH in Hd as (popped & -> & -> & ? & ?); [| done | | ].
      * exists (b :: popped). repeat split; auto. by rewrite <-app_assoc.
      * apply Forall_app. split; [done|]. by constructor.
      * rewrite length_app. simpl. lia.
    + intros [= <- <-]. exists []. by rewrite !app_nil_r.
Qed.

Lemma draw_succeeds stack bills :
  Forall (λ b, 10 ≤ b) stack → Forall (λ b, 10 ≤ b) bills →
  (5 ≤ length bills + length stack)%nat →
  ∃ drawn stack', draw stack bills = (inr drawn, stack').
Proof.
  revert bills. induction stack as [|b stack IH]; intros bills Hs Hb Hlen; simpl.
  - pose proof (sum_lower_bound 10 bills Hb). simpl in Hlen.
    destruct (Z.ltb_spec (sum bills) 50); [lia|]. eauto.
  - destruct (Z.ltb_spec (sum bills) 50); [|by eauto].
    inversion Hs; subst.
    apply IH; [done| |rewrite length_app; simpl in *; lia].
    apply Forall_app. split; [done|]. by constructor.
Qed.

Lemma dealt_sort_pad drawn :
  Forall (λ b, 10 ≤ b) drawn → (length drawn ≤ 5)%nat → 50 ≤ sum drawn →
  dealt (sort_reverse (pad drawn)) ∧ leftover (sort_reverse (pad drawn)) ≡ₚ drawn.
Proof.
  intros Hd Hlen Hsum.
  assert (leftover (sort_reverse (pad drawn)) ≡ₚ drawn) as Hp.
  { rewrite (leftover_perm _ _ (sort_reverse_perm _)), leftover_pad.
    rewrite leftover_nonzero; [done|]. eapply Forall_impl; [done|]. simpl. lia. }
  split; [|done]. split_and!.
  - rewrite (Permutation_length (sort_reverse_perm _)).
    unfold pad. rewrite length_app, length_replicate. lia.
  - apply sort_reverse_sorted.
  - by rewrite (sum_perm _ _ Hp).
Qed.

Lemma deal_loop_inv n stack bl stack' :
  Forall (λ b, 10 ≤ b) stack →
  deal_loop n stack = (inr bl, stack') →
  length bl = n ∧ Forall dealt bl
  ∧ ∃ popped, stack = popped ++ stack'
              ∧ popped ≡ₚ concat (leftover <$> bl)
              ∧ (length popped ≤ 5 * n)%nat.
Proof.
  revert stack bl. induction n as [|n IH]; intros stack bl Hs; cbn [deal_loop].
  - intros [= <- <-]. split_and!; [done|constructor|]. by exists [].
  - destruct (draw stack []) as [[e|drawn] st1] eqn:Hd; [done|].
    destruct (deal_loop n st1) as [[e|rest] st2] eqn:Hr; [done|].
    intros [= <- <-].
    apply draw_inv in Hd as (popped & -> & -> & Hsum & Hlen);
      [|done|constructor|simpl; lia].
    cbn [app] in *. apply Forall_app in Hs as [Hp Hs1].
    apply IH in Hr as (Hn & Hall & popped' & -> & Hperm & Hlen'); [|done].
    destruct (dealt_sort_pad popped Hp Hlen Hsum) as [Hdealt Hleft].
    split_and!; [simpl; by rewrite Hn|by constructor|].
    exists (popped ++ popped'). split_and!.
    + by rewrite <-app_assoc.
    + by rewrite fmap_cons, concat_cons, Hleft, Hperm.
    + rewrite length_app. lia.
Qed.

Lemma deal_loop_succeeds n stack :
  Forall (λ b, 10 ≤ b) stack → (5 * n ≤ length stack)%nat →
  ∃ bl stack', deal_loop n stack = (inr bl, stack').
Proof.
  revert stack. induction n as [|n IH]; intros stack Hs Hlen; cbn [deal_loop]; [by eauto|].
  destruct (draw_succeeds stack [] Hs) as (drawn & st1 & Hd);
    [constructor|simpl; lia|].
  rewrite Hd.
  apply draw_inv in Hd as (popped & -> & -> & Hsum & Hlen1);
    [|done|constructor|simpl; lia].
  cbn [app] in *. apply Forall_app in Hs as [Hp Hs1].
  rewrite length_app in Hlen.
  destruct (IH st1 Hs1) as (bl & st2 & ->); [lia|]. eauto.
Qed.

Lemma deal_bills_inv s cs s' :
  Forall (λ b, 10 ≤ b) (deck s) →
  deal_bills s = (inr cs, s') →
  s' = set_deck (deck s') s
  ∧ length cs = 6%nat
  ∧ Forall (λ c, dealt (Casino.bills c) ∧ Casino.dice c = [0; 0; 0; 0; 0]) cs
  ∧ deck s ≡ₚ deck s' ++ casino_bills cs
  ∧ (length (deck s) ≤ length (deck s') + 30)%nat.
Proof.
  intros Hd. unfold deal_bills.
  destruct (deal_loop 6 (reverse (deck s))) as [[e|bl] st] eqn:Hl; [done|].
  intros [= <- <-].
  apply deal_loop_inv in Hl as (Hn & Hall & popped & Hst & Hperm & Hlen);
    [|by rewrite reverse_Permutation].
  split_and!.
  - by destruct s.
  - by rewrite length_fmap.
  - apply Forall_fmap. eapply Forall_impl; [done|]. by intros b Hb.
  - destruct s; cbn [deck set_deck] in *.
    rewrite <-(reverse_Permutation deck0), Hst, reverse_Permutation.
    unfold casino_bills. rewrite <-list_fmap_compose.
    rewrite Hperm. apply Permutation_app_comm.
  - destruct s; cbn [deck set_deck] in *.
    rewrite <-(length_reverse deck0), Hst, length_app, length_reverse. lia.
Qed.

Lemma deal_bills_succeeds s :
  Forall (λ b, 10 ≤ b) (deck s) → (30 ≤ length (deck s))%nat →
  ∃ cs s', deal_bills s = (inr cs, s').
Proof.
  intros Hd Hlen. unfold deal_bills.
  destruct (deal_loop_succeeds 6 (reverse (deck s))) as (bl & st & ->).
  - by rewrite reverse_Permutation.
  - rewrite length_reverse. lia.
  - eauto.
Qed.

(** ** Who is paid *)

Lemma pay_closed_form counts order pl bl :
  pay counts order pl bl
  = (pay_all pl (zip (filter (λ pc : Z * Z, counter counts pc.2 = 1%nat) order) bl),
     drop (length (filter (λ pc : Z * Z, counter counts pc.2 = 1%nat) order)) bl).
Proof.
  revert pl bl. induction order as [|pc order IH]; intros pl bl; cbn [pay].
  - done.
  - rewrite filter_cons. case_bool_decide as Hu.
    + rewrite decide_True by done. destruct bl as [|b bl].
      * rewrite IH. by rewrite drop_nil, !zip_with_nil_r.
      * by rewrite IH.
    + rewrite decide_False by done. apply IH.
Qed.

Lemma casino_payout_closed_form c pl :
  casino_payout c pl
  = (pay_all pl (zip (winners (Casino.dice c)) (Casino.bills c)),
     drop (length (winners (Casino.dice c))) (Casino.bills c)).
Proof. apply pay_closed_form. Qed.

Lemma pay_all_length pl wbs : length (pay_all pl wbs) = length pl.
Proof.
  revert pl. induction wbs as [|wb wbs IH]; intros pl; simpl; [done|].
  unfold pay_all in IH. by rewrite IH, credit_length.
Qed.

(** A slot that is not among the paid ones keeps its record. *)
Lemma pay_all_other pl wbs (q : nat) :
  Forall (λ wb : (Z * Z) * Z, Z.to_nat wb.1.1 ≠ q) wbs →
  pay_all pl wbs !! q = pl !! q.
Proof.
  revert pl. induction wbs as [|wb wbs IH]; intros pl Hq; [done|].
  inversion Hq; subst. unfold pay_all in *. simpl. rewrite IH by done.
  unfold credit. by rewrite list_lookup_alter_ne.
Qed.

(** Payouts change the cash of a slot and nothing else. *)
Lemma pay_all_dice pl wbs : Player.dice <$> pay_all pl wbs = Player.dice <$> pl.
Proof.
  revert pl. induction wbs as [|wb wbs IH]; intros pl; [done|].
  unfold pay_all in *. simpl. rewrite IH. unfold credit.
  apply list_eq. intros j. rewrite !list_lookup_fmap.
  destruct (decide (j = Z.to_nat wb.1.1)) as [->|].
  - rewrite list_lookup_alter_eq. by destruct (pl !! _).
  - by rewrite list_lookup_alter_ne.
Qed.

(** ** [play_move] and [advance_round] as functions *)

Lemma alter_insert {A} (f : A → A) (l : list A) i x :
  l !! i = Some x → <[i := f x]> l = alter f i l.
Proof.
  intros Hx. apply list_eq. intros j. destruct (decide (j = i)) as [->|].
  - rewrite list_lookup_alter_eq, Hx, list_lookup_insert_eq; [done|].
    by eapply lookup_lt_Some.
  - by rewrite list_lookup_alter_ne, list_lookup_insert_ne.
Qed.

Lemma play_move_run s player action roll_counts :
  shape s →
  play_move player action roll_counts s
  = if negb ((0 <=? player) && (player <? num_players s))
    then (inl (AssertionError "Invalid player"), s)
    else if negb ((0 <=? action) && (action <? 6))
    then (inl (AssertionError "Invalid casino"), s)
    else match getitem roll_counts action with
         | None => (inl IndexError, s)
         | Some r =>
             if 0 <? r then (inr tt, place player action r s)
             else (inl (AssertionError "No dice to play"), s)
         end.
Proof.
  intros [Hn Hpl Hcs Hdice]. unfold MAX_PLAYERS in Hn.
  unfold play_move. rewrite bind_run. unfold get at 1.
  destruct (Z.leb_spec 0 player) as [Hp0|]; [|done].
  destruct (Z.ltb_spec player (num_players s)) as [Hp1|]; [|done].
  rewrite bind_run. cbn [assert andb negb mret M_ret].
  destruct (Z.leb_spec 0 action) as [Ha0|]; [|done].
  destruct (Z.ltb_spec action 6) as [Ha1|]; [|done].
  rewrite bind_run. cbn [assert andb negb mret M_ret]. rewrite bind_run.
  destruct (getitem roll_counts action) as [r|]; [|done].
  rewrite bind_run. destruct (0 <? r); [|done]. cbn [assert mret M_ret].
  destruct (lookup_lt_is_Some_2 (players s) (Z.to_nat player)) as [p Hp]; [lia|].
  destruct (lookup_lt_is_Some_2 (casinos s) (Z.to_nat action)) as [c Hc]; [lia|].
  assert (length (Casino.dice c) = 5%nat) as Hlen.
  { eapply Forall_lookup_1 in Hdice; [|done]. done. }
  destruct (lookup_lt_is_Some_2 (Casino.dice c) (Z.to_nat player)) as [d Hd]; [lia|].
  rewrite bind_run. unfold player_at. rewrite getitem_nonneg, Hp by done.
  rewrite bind_run. unfold set_player, modify at 1.
  rewrite bind_run. unfold casino_at. cbn [casinos set_players].
  rewrite getitem_nonneg, Hc by done.
  rewrite getitem_nonneg, Hd by done.
  unfold set_casino, modify, place. f_equal.
  rewrite (alter_insert (λ d, d + r) _ _ d) by done.
  rewrite <-(alter_insert _ _ _ c Hc).
  rewrite <-(alter_insert _ _ _ p Hp). by destruct s.
Qed.

Lemma refill_length k m pl : length (refill k m pl) = length pl.
Proof.
  revert k pl. induction m as [|m IH]; intros k pl; simpl; [done|].
  by rewrite IH, length_alter.
Qed.

Lemma refill_lookup k m pl (j : nat) :
  refill k m pl !! j
  = if bool_decide (k ≤ j < k + m)%nat
    then (λ p, Player.mk (Player.cash p) NUM_DICE) <$> pl !! j
    else pl !! j.
Proof.
  revert k pl. induction m as [|m IH]; intros k pl; simpl.
  - by rewrite bool_decide_false by lia.
  - rewrite IH. destruct (decide (j = k)) as [->|].
    + rewrite list_lookup_alter_eq.
      rewrite bool_decide_false, bool_decide_true by lia. done.
    + rewrite list_lookup_alter_ne by done.
      case_bool_decide; [rewrite bool_decide_true by lia|rewrite bool_decide_false by lia];
        done.
Qed.

Lemma for_each_reset_dice (m k : nat) n pl dk cs fp r :
  (k + m ≤ length pl)%nat →
  for_each (seqZ (Z.of_nat k) (Z.of_nat m)) reset_dice (Build n pl dk cs fp r)
  = (inr tt, Build n (refill k m pl) dk cs fp r).
Proof.
  revert k pl. induction m as [|m IH]; intros k pl Hk.
  - done.
  - rewrite seqZ_cons by lia. cbn [for_each]. rewrite bind_run.
    unfold reset_dice at 1. rewrite bind_run. unfold player_at. cbn [players].
    rewrite getitem_nat.
    destruct (lookup_lt_is_Some_2 pl k) as [p Hp]; [lia|]. rewrite Hp.
    unfold set_player, modify, set_players.
    cbn [players num_players deck casinos first_player round].
    rewrite Nat2Z.id.
    rewrite (alter_insert (λ p, Player.mk (Player.cash p) NUM_DICE) _ _ p) by done.
    replace (Z.succ (Z.of_nat k)) with (Z.of_nat (S k)) by lia.
    replace (Z.pred (Z.of_nat (S m))) with (Z.of_nat m) by lia.
    rewrite IH by (rewrite length_alter; lia). done.
Qed.

Lemma deal_bills_frame s :
  ∃ dk, (deal_bills s).2 = set_deck dk s.
Proof.
  unfold deal_bills. destruct (deal_loop _ _) as [[e|bl] st]; eauto.
Qed.

Lemma advance_round_run shuffle s :
  shape s →
  advance_round shuffle s
  = if round_over (num_players s) (players s) then
      if round s <? NUM_ROUNDS then redeal shuffle (paid_state s)
      else (inr tt, paid_state s)
    else (inl (AssertionError "Round is not over"), s).
Proof.
  intros [Hn Hpl Hcs Hdice]. unfold MAX_PLAYERS in Hn.
  unfold advance_round. rewrite bind_run.
  rewrite is_end_round_run by lia.
  destruct (round_over _ _); [|done].
  rewrite bind_run. cbn [assert mret M_ret]. rewrite bind_run. unfold get at 1.
  rewrite bind_run.
  destruct s as [n pl dk cs fp r]; cbn [casinos num_players players] in *.
  pose proof (for_each_resolve_casino cs [] n pl dk fp r) as Hres.
  cbn [app] in Hres. change (Z.of_nat (length [])) with 0 in Hres.
  rewrite Hres by (eapply Forall_impl; [done|]; simpl; lia). clear Hres.
  rewrite bind_run. unfold get at 1.
  cbn [app round]. unfold paid_state. cbn [num_players players deck casinos first_player round].
  destruct (r <? NUM_ROUNDS); [|done].
  set (out := resolve cs pl dk).
  unfold redeal. rewrite bind_run. unfold modify at 1.
  cbn [deck num_players players first_player round].
  rewrite bind_run.
  destruct (deal_bills_frame
              (set_deck (shuffle out.2.2) (Build n out.2.1 out.2.2 out.1 fp r)))
    as [dk' Hframe].
  destruct (deal_bills _) as [[e|cs'] s1] eqn:Hdeal; [done|].
  simpl in Hframe. subst s1.
  rewrite bind_run. unfold modify at 1, set_casinos, set_deck.
  cbn [num_players players deck casinos first_player round].
  rewrite bind_run.
  rewrite <-(Z2Nat.id n) at 1 by lia.
  rewrite (for_each_reset_dice _ 0).
  2:{ unfold out. rewrite Nat.add_0_l.
      assert (length (resolve cs pl dk).2.1 = length pl) as ->; [|lia].
      clear. revert pl dk. induction cs as [|c cs IH]; intros pl dk; [done|].
      simpl. by rewrite IH, casino_payout_length. }
  rewrite bind_run. destruct (Z.eqb_spec n 0); [lia|].
  unfold modify. done.
Qed.

(** ** The shape of a game *)

Lemma resolve_shape cs pl dk :
  length (resolve cs pl dk).1 = length cs
  ∧ length (resolve cs pl dk).2.1 = length pl
  ∧ Casino.dice <$> (resolve cs pl dk).1 = Casino.dice <$> cs
  ∧ Player.dice <$> (resolve cs pl dk).2.1 = Player.dice <$> pl.
Proof.
  revert pl dk. induction cs as [|c cs IH]; intros pl dk; [done|].
  cbn [resolve]. cbn [fst snd length fmap list_fmap].
  destruct (IH (casino_payout c pl).1 (dk ++ leftover (casino_payout c pl).2))
    as (-> & -> & -> & ->).
  rewrite casino_payout_length. split_and!; try done.
  rewrite casino_payout_closed_form. apply pay_all_dice.
Qed.

Lemma shape_init shuffle n s : shuffles shuffle → init shuffle n = inr s → shape s.
Proof.
  intros Hsh. unfold init.
  destruct (Z.leb_spec 2 n); [|done]. destruct (Z.leb_spec n MAX_PLAYERS); [|done].
  cbn [andb].
  destruct (deal_bills _) as [[e|cs] s1] eqn:Hdeal; [done|]. intros [= <-].
  apply deal_bills_inv in Hdeal as (Hs1 & Hlen & Hall & _).
  2:{ cbn [deck]. rewrite (Hsh full_deck). by vm_compute; repeat constructor. }
  rewrite Hs1. split; cbn; try done.
  eapply Forall_impl; [done|]. by intros c [_ ->].
Qed.

Lemma shape_place player action r s : shape s → shape (place player action r s).
Proof.
  intros [Hn Hpl Hcs Hdice]. split; cbn.
  - by destruct s.
  - by rewrite length_alter.
  - by rewrite length_alter.
  - apply Forall_alter; [done|]. intros c _ Hc. cbn. by rewrite length_alter.
Qed.

Lemma shape_paid_state s : shape s → shape (paid_state s).
Proof.
  intros [Hn Hpl Hcs Hdice].
  destruct (resolve_shape (casinos s) (players s) (deck s)) as (H1 & H2 & H3 & _).
  split; unfold paid_state; cbn; try congruence.
  apply (Forall_fmap Casino.dice (λ d, length d = 5%nat)). rewrite H3.
  by apply (Forall_fmap Casino.dice (λ d, length d = 5%nat)).
Qed.

Lemma deal_loop_length n stack bl stack' :
  deal_loop n stack = (inr bl, stack') → length bl = n.
Proof.
  revert stack bl. induction n as [|n IH]; intros stack bl; cbn [deal_loop].
  - by intros [= <- ?].
  - destruct (draw stack []) as [[e|drawn] st1]; [done|].
    destruct (deal_loop n st1) as [[e|rest] st2] eqn:Hr; [done|].
    intros [= <- <-]. simpl. f_equal. by eapply IH.
Qed.

Lemma deal_bills_shape s cs s' :
  deal_bills s = (inr cs, s') →
  s' = set_deck (deck s') s ∧ length cs = 6%nat
  ∧ Forall (λ c, Casino.dice c = [0; 0; 0; 0; 0]) cs.
Proof.
  unfold deal_bills.
  destruct (deal_loop 6 (reverse (deck s))) as [[e|bl] st] eqn:Hl; [done|].
  intros [= <- <-]. apply deal_loop_length in Hl. split_and!.
  - by destruct s.
  - by rewrite length_fmap.
  - apply Forall_fmap. by apply Forall_true.
Qed.

(** What a successful [redeal] returns. *)
Lemma redeal_inv shuffle s s' :
  redeal shuffle s = (inr tt, s') →
  ∃ cs s1,
    deal_bills (set_deck (shuffle (deck s)) s) = (inr cs, s1)
    ∧ s' = Build (num_players s)
             (refill 0 (Z.to_nat (num_players s)) (players s))
             (deck s1) cs
             ((first_player s + 1) `mod` num_players s) (round s + 1).
Proof.
  unfold redeal. destruct (deal_bills _) as [[e|cs] s1]; [done|].
  intros [= <-]. eauto.
Qed.

Lemma shape_redeal shuffle s s' :
  shape s → redeal shuffle s = (inr tt, s') → shape s'.
Proof.
  intros [Hn Hpl Hcs Hdice] (cs & s1 & Hdeal & ->)%redeal_inv.
  apply deal_bills_shape in Hdeal as (_ & Hlen & Hall).
  split; cbn; [done|by rewrite refill_length|done|].
  eapply Forall_impl; [done|]. by intros c ->.
Qed.

(** What a successful operation does to a well-shaped state. *)
Lemma run_op_inv s o s' :
  shape s → run_op o s = (inr tt, s') →
  match o with
  | PlayMove player action roll_counts =>
      ∃ r, 0 ≤ player < num_players s ∧ 0 ≤ action < 6
           ∧ getitem roll_counts action = Some r ∧ 0 < r
           ∧ s' = place player action r s
  | AdvanceRound shuffle =>
      round_over (num_players s) (players s) = true
      ∧ if round s <? NUM_ROUNDS then redeal shuffle (paid_state s) = (inr tt, s')
        else s' = paid_state s
  end.
Proof.
  intros Hs. destruct o as [player action rc|shuffle]; cbn [run_op].
  - rewrite play_move_run by done.
    destruct (Z.leb_spec 0 player); [|done].
    destruct (Z.ltb_spec player (num_players s)); [|done].
    destruct (Z.leb_spec 0 action); [|done].
    destruct (Z.ltb_spec action 6); [|done]. cbn [andb negb].
    destruct (getitem rc action) as [r|]; [|done].
    destruct (Z.ltb_spec 0 r); [|done]. intros [= <-]. exists r. by split_and!.
  - rewrite advance_round_run by done.
    destruct (round_over _ _); [|done].
    destruct (round s <? NUM_ROUNDS); [done|]. by intros [= <-].
Qed.

Lemma shape_step s o s' : shape s → run_op o s = (inr tt, s') → shape s'.
Proof.
  intros Hs Hrun. pose proof (run_op_inv _ _ _ Hs Hrun) as Hinv.
  destruct o as [player action rc|shuffle].
  - destruct Hinv as (r & _ & _ & _ & _ & ->). by apply shape_place.
  - destruct Hinv as [_ Hinv]. destruct (round s <? NUM_ROUNDS).
    + eapply shape_redeal; [|done]. by apply shape_paid_state.
    + subst. by apply shape_paid_state.
Qed.

Lemma reachable_shape allowed s paid : reachable allowed s paid → shape s.
Proof.
  induction 1 as [shuffle n s Hsh Hinit|s paid o s' _ IH _ _ Hrun].
  - by eapply shape_init.
  - by eapply shape_step.
Qed.

(** ** The bills: where they are and what they are worth *)

Lemma resolve_casinos cs pl dk :
  (resolve cs pl dk).1
  = (λ c, Casino.mk (drop (length (winners (Casino.dice c))) (Casino.bills c))
            (Casino.dice c)) <$> cs.
Proof.
  revert pl dk. induction cs as [|c cs IH]; intros pl dk; [done|].
  cbn [resolve fst fmap list_fmap]. rewrite IH.
  by rewrite casino_payout_closed_form.
Qed.

Lemma resolve_deck cs pl dk :
  (resolve cs pl dk).2.2 = dk ++ casino_bills (resolve cs pl dk).1.
Proof.
  revert pl dk. induction cs as [|c cs IH]; intros pl dk.
  - simpl. unfold casino_bills. simpl. by rewrite app_nil_r.
  - cbn [resolve fst snd]. rewrite IH. unfold casino_bills.
    cbn [fmap list_fmap concat Casino.bills]. by rewrite <-app_assoc.
Qed.

(** The bills of the casinos are the bills paid out and the bills left. *)
Lemma resolve_bills cs pl dk :
  casino_bills cs ≡ₚ concat (paid_out <$> cs) ++ casino_bills (resolve cs pl dk).1.
Proof.
  rewrite resolve_casinos. unfold casino_bills, paid_out.
  induction cs as [|c cs IH]; [done|].
  cbn [fmap list_fmap concat Casino.bills]. rewrite IH.
  set (k := length (winners (Casino.dice c))).
  rewrite <-(take_drop k (Casino.bills c)) at 1.
  unfold leftover at 1. rewrite filter_app. fold (leftover (take k (Casino.bills c))).
  fold (leftover (drop k (Casino.bills c))).
  rewrite <-!app_assoc. f_equiv. rewrite !app_assoc. f_equiv.
  apply Permutation_app_comm.
Qed.

Lemma casino_bills_place player action r s :
  casino_bills (casinos (place player action r s)) = casino_bills (casinos s).
Proof.
  unfold place, casino_bills. cbn. f_equal.
  apply list_eq. intros j. rewrite !list_lookup_fmap.
  destruct (decide (j = Z.to_nat action)) as [->|].
  - rewrite list_lookup_alter_eq. by destruct (casinos s !! _).
  - by rewrite list_lookup_alter_ne.
Qed.

Lemma full_deck_range : Forall (λ b, 10 ≤ b ≤ 90) full_deck.
Proof. vm_compute. repeat constructor; by intros [=]. Qed.

Lemma conserved_deck s paid :
  conserved s paid → Forall (λ b, 10 ≤ b) (deck s).
Proof.
  intros Hc. pose proof full_deck_range as Hr. rewrite <-Hc in Hr.
  apply Forall_app in Hr as [Hr _]. eapply Forall_impl; [done|]. simpl. lia.
Qed.

Lemma conserved_init shuffle n s :
  shuffles shuffle → init shuffle n = inr s → conserved s [].
Proof.
  intros Hsh. unfold init.
  destruct ((2 <=? n) && (n <=? MAX_PLAYERS)); [|done].
  destruct (deal_bills _) as [[e|cs] s1] eqn:Hdeal; [done|]. intros [= <-].
  apply deal_bills_inv in Hdeal as (Hs1 & _ & _ & Hperm & _).
  2:{ cbn [deck]. rewrite (Hsh full_deck). eapply Forall_impl; [apply full_deck_range|].
      simpl. lia. }
  unfold conserved. rewrite app_nil_r. cbn [deck set_casinos casinos] in *.
  by rewrite <-Hperm, (Hsh full_deck).
Qed.

Lemma conserved_step s paid o s' :
  shape s → conserved s paid → in_play s o → random_ok o →
  run_op o s = (inr tt, s') → conserved s' (paid ++ paid_by o s).
Proof.
  intros Hs Hc Hplay Hrand Hrun. pose proof (run_op_inv _ _ _ Hs Hrun) as Hinv.
  unfold conserved in *. destruct o as [player action rc|shuffle]; cbn [paid_by].
  - destruct Hinv as (r & _ & _ & _ & _ & ->). rewrite app_nil_r.
    rewrite casino_bills_place. by destruct s.
  - destruct Hinv as [_ Hinv]. cbn in Hplay, Hrand.
    destruct (Z.ltb_spec (round s) NUM_ROUNDS); [|lia].
    assert (deck (paid_state s) ++ concat (paid_out <$> casinos s) ++ paid
            ≡ₚ full_deck) as Hpaid.
    { unfold paid_state. cbn [deck]. rewrite resolve_deck, <-Hc.
      rewrite (resolve_bills (casinos s) (players s) (deck s)).
      rewrite <-!app_assoc. f_equiv. rewrite !app_assoc. f_equiv.
      apply Permutation_app_comm. }
    apply redeal_inv in Hinv as (cs & s1 & Hdeal & ->).
    apply deal_bills_inv in Hdeal as (_ & _ & _ & Hperm & _).
    2:{ cbn [deck set_deck]. rewrite (Hrand _).
        pose proof full_deck_range as Hr. rewrite <-Hpaid in Hr.
        apply Forall_app in Hr as [Hr _]. eapply Forall_impl; [done|]. simpl. lia. }
    cbn [deck set_deck casinos] in *. rewrite (Hrand _) in Hperm.
    rewrite <-Hpaid, Hperm. rewrite <-!app_assoc. f_equiv. f_equiv.
    apply Permutation_app_comm.
Qed.

Lemma reachable_conserved s paid : reachable in_play s paid → conserved s paid.
Proof.
  induction 1 as [shuffle n s Hsh Hinit|s paid o s' Hreach IH Hallowed Hrand Hrun].
  - by eapply conserved_init.
  - eapply conserved_step; eauto using reachable_shape.
Qed.

(** ** Rolls *)

Lemma roll_dice_inv randint player s rc s' :
  roll_dice randint player s = (inr rc, s') →
  ∃ p, getitem (players s) player = Some p
       ∧ rc = (λ i, Z.of_nat (counter (randint <$> seq 0 (Z.to_nat (Player.dice p)))
                                (i + 1))) <$> seqZ 0 6.
Proof.
  unfold roll_dice. rewrite bind_run. unfold player_at.
  destruct (getitem (players s) player) as [p|]; [|done].
  intros [= <- _]. eauto.
Qed.

Lemma counter_bound l x : (counter l x ≤ length l)%nat.
Proof. apply count_occ_bound. Qed.

(** The counts of a roll are between 0 and the number of dice rolled. *)
Lemma roll_dice_bounds randint player s rc s' p :
  roll_dice randint player s = (inr rc, s') →
  getitem (players s) player = Some p →
  length rc = 6%nat ∧ Forall (λ r, 0 ≤ r ≤ Z.max 0 (Player.dice p)) rc.
Proof.
  intros (p' & Hp' & ->)%roll_dice_inv Hp.
  assert (p' = p) as -> by congruence. split; [done|].
  apply Forall_fmap, Forall_forall. intros i _. simpl.
  pose proof (counter_bound (randint <$> seq 0 (Z.to_nat (Player.dice p))) (i + 1)) as Hb.
  rewrite length_fmap, length_seq in Hb. lia.
Qed.

(** ** The invariant of games played with rolled counts *)

Lemma elem_of_alter {A} (f : A → A) (l : list A) i y :
  y ∈ alter f i l → ∃ x, x ∈ l ∧ (y = x ∨ y = f x).
Proof.
  intros [j Hj]%list_elem_of_lookup. rewrite list_lookup_alter in Hj.
  case_decide.
  - subst j. destruct (l !! i) as [x|] eqn:Hx; [|done]. simpl in Hj. simplify_eq.
    exists x. split; [|by right]. by eapply list_elem_of_lookup_2.
  - exists y. split; [|by left]. by eapply list_elem_of_lookup_2.
Qed.

Lemma elem_of_concat {A} (x : A) (ls : list (list A)) :
  x ∈ concat ls ↔ ∃ l, x ∈ l ∧ l ∈ ls.
Proof.
  induction ls as [|l ls IH]; simpl.
  - split; [by intros ?%not_elem_of_nil|]. by intros (l & _ & ?%not_elem_of_nil).
  - rewrite elem_of_app, IH. split.
    + intros [Hx|(l' & Hx & Hl')]; [exists l|exists l']; split; auto; by constructor.
    + intros (l' & Hx & [->|Hl']%elem_of_cons); [by left|right; eauto].
Qed.

(** Dealt casinos hold bills of the deck and empty slots. *)
Lemma dealt_bills_range s cs s' :
  Forall (λ b, 10 ≤ b ≤ 90) (deck s) →
  deal_bills s = (inr cs, s') →
  Forall (λ b, 10 ≤ b ≤ 90) (deck s')
  ∧ Forall (λ c, Forall (λ b, b = 0 ∨ 10 ≤ b ≤ 90) (Casino.bills c)) cs.
Proof.
  intros Hd Hdeal.
  apply deal_bills_inv in Hdeal as (_ & _ & _ & Hperm & _).
  2:{ eapply Forall_impl; [done|]. simpl. lia. }
  rewrite Hperm in Hd. apply Forall_app in Hd as [Hd1 Hd2]. split; [done|].
  apply Forall_forall. intros c Hc. apply Forall_forall. intros b Hb.
  destruct (decide (b = 0)); [by left|right].
  rewrite Forall_forall in Hd2. apply Hd2.
  unfold casino_bills. apply elem_of_concat.
  exists (leftover (Casino.bills c)). split.
  - unfold leftover. by apply list_elem_of_filter.
  - apply list_elem_of_fmap. by exists c.
Qed.

Lemma sane_init shuffle n s : shuffles shuffle → init shuffle n = inr s → sane s.
Proof.
  intros Hsh. unfold init.
  destruct (Z.leb_spec 2 n); [|done]. destruct (Z.leb_spec n MAX_PLAYERS); [|done].
  cbn [andb].
  destruct (deal_bills _) as [[e|cs] s1] eqn:Hdeal; [done|]. intros [= <-].
  pose proof Hdeal as (Hs1 & _ & Hzero)%deal_bills_shape.
  apply dealt_bills_range in Hdeal as [Hdk Hbl].
  2:{ cbn [deck]. rewrite (Hsh full_deck). apply full_deck_range. }
  rewrite Hs1 in *. cbn [set_deck set_casinos deck] in *.
  split; cbn; unfold NUM_ROUNDS, NUM_DICE, MAX_PLAYERS in *; try done; try lia.
  - apply Forall_fmap, Forall_forall. intros i _. simpl.
    destruct (i <? n); simpl; lia.
  - intros c q d p Hc Hq Hp. rewrite Forall_forall in Hzero.
    rewrite (Hzero c Hc) in Hq.
    assert (d = 0) as ->.
    { do 5 (destruct q as [|q]; [by simplify_eq/=|]). done. }
    apply list_elem_of_lookup_2, list_elem_of_fmap in Hp as (i & -> & _).
    destruct (i <? n); simpl; lia.
Qed.

Lemma sane_place player action r s :
  sane s → 0 ≤ r → (∀ p, players s !! Z.to_nat player = Some p → r ≤ Player.dice p) →
  sane (place player action r s).
Proof.
  intros [Hr Hf Hpl Hplaced Hdk Hbl] Hr0 Hle. split; cbn; try done.
  - apply Forall_alter; [done|]. intros p Hp [[??] ?]. simpl.
    specialize (Hle p Hp). lia.
  - intros c' q d' p' Hc' Hd' Hp'.
    apply elem_of_alter in Hc' as (c & Hc & [->| ->]).
    + rewrite list_lookup_alter in Hp'. case_decide as Hq; [subst q|by eapply Hplaced].
      apply fmap_Some in Hp' as (p & Hp & ->). simpl.
      destruct (Hplaced c _ d' p Hc Hd' Hp). lia.
    + cbn in Hd'. rewrite list_lookup_alter in Hd'. rewrite list_lookup_alter in Hp'.
      case_decide as Hq; [subst q|by eapply Hplaced].
      apply fmap_Some in Hp' as (p & Hp & ->).
      apply fmap_Some in Hd' as (d & Hd & ->). simpl.
      destruct (Hplaced c _ d p Hc Hd Hp). lia.
  - apply Forall_alter; [done|]. by intros c _ Hc.
Qed.

Lemma pay_all_sane pl wbs :
  Forall (λ p, 0 ≤ Player.dice p ≤ NUM_DICE ∧ 0 ≤ Player.cash p) pl →
  Forall (λ wb : (Z * Z) * Z, 0 ≤ wb.2) wbs →
  Forall (λ p, 0 ≤ Player.dice p ≤ NUM_DICE ∧ 0 ≤ Player.cash p) (pay_all pl wbs).
Proof.
  revert pl. induction wbs as [|wb wbs IH]; intros pl Hpl Hwbs; [done|].
  inversion Hwbs; subst. unfold pay_all in *. simpl. apply IH; [|done].
  unfold credit. apply Forall_alter; [done|]. intros p _ [? ?]. simpl. lia.
Qed.

Lemma resolve_players_sane cs pl dk :
  Forall (λ c, Forall (λ b, b = 0 ∨ 10 ≤ b ≤ 90) (Casino.bills c)) cs →
  Forall (λ p, 0 ≤ Player.dice p ≤ NUM_DICE ∧ 0 ≤ Player.cash p) pl →
  Forall (λ p, 0 ≤ Player.dice p ≤ NUM_DICE ∧ 0 ≤ Player.cash p)
    (resolve cs pl dk).2.1.
Proof.
  revert pl dk. induction cs as [|c cs IH]; intros pl dk Hcs Hpl; [done|].
  inversion Hcs as [|? ? Hc Hcs']; subst. cbn [resolve fst snd]. apply IH; [done|].
  rewrite casino_payout_closed_form. cbn [fst]. apply pay_all_sane; [done|].
  apply Forall_forall. intros [w b] Hwb. simpl.
  apply elem_of_zip_r in Hwb. rewrite Forall_forall in Hc.
  destruct (Hc b Hwb); lia.
Qed.

Lemma sane_paid_state s : sane s → sane (paid_state s).
Proof.
  intros [Hr Hf Hpl Hplaced Hdk Hbl].
  destruct (resolve_shape (casinos s) (players s) (deck s)) as (_ & _ & _ & Hdice).
  split; unfold paid_state; cbn [round first_player num_players players casinos deck];
    try done.
  - by apply resolve_players_sane.
  - intros c' q d p' Hc' Hd Hp'. rewrite resolve_casinos in Hc'.
    apply list_elem_of_fmap in Hc' as (c & -> & Hc). cbn in Hd.
    assert (Player.dice <$> ((resolve (casinos s) (players s) (deck s)).2.1 !! q)
            = Some (Player.dice p')) as Hq by by rewrite Hp'.
    rewrite <-list_lookup_fmap, Hdice, list_lookup_fmap in Hq.
    apply fmap_Some in Hq as (p & Hp & ->). by eapply Hplaced.
  - rewrite resolve_deck. apply Forall_app. split; [done|].
    rewrite resolve_casinos. apply Forall_forall. intros b Hb.
    apply elem_of_concat in Hb as (l & Hb & Hl).
    apply list_elem_of_fmap in Hl as (c' & -> & Hc').
    apply list_elem_of_fmap in Hc' as (c & -> & Hc). cbn in Hb.
    apply list_elem_of_filter in Hb as [Hb0 Hb%subseteq_drop].
    rewrite Forall_forall in Hbl. specialize (Hbl c Hc).
    rewrite Forall_forall in Hbl. destruct (Hbl b Hb); [done|lia].
  - rewrite resolve_casinos. apply Forall_fmap. eapply Forall_impl; [done|].
    intros c Hc. cbn. by apply Forall_drop.
Qed.

Lemma sane_redeal shuffle s s' :
  shape s → sane s → shuffles shuffle → round s < NUM_ROUNDS →
  redeal shuffle s = (inr tt, s') → sane s'.
Proof.
  intros [Hn _ _ _] [Hr Hf Hpl Hplaced Hdk Hbl] Hsh Hlt
    (cs & s1 & Hdeal & ->)%redeal_inv.
  pose proof Hdeal as (_ & _ & Hzero)%deal_bills_shape.
  apply dealt_bills_range in Hdeal as [Hdk1 Hbl1].
  2:{ cbn [deck set_deck]. by rewrite (Hsh _). }
  assert (Forall (λ p, 0 ≤ Player.dice p ≤ NUM_DICE ∧ 0 ≤ Player.cash p)
            (refill 0 (Z.to_nat (num_players s)) (players s))) as Hpl1.
  { apply Forall_lookup. intros i p'. rewrite refill_lookup.
    rewrite Forall_lookup in Hpl. case_bool_decide.
    - intros (p & Hp & ->)%fmap_Some. destruct (Hpl i p Hp) as [_ ?].
      simpl. unfold NUM_DICE. lia.
    - apply Hpl. }
  split; cbn [round first_player num_players players casinos deck]; try done.
  - lia.
  - apply Z.mod_pos_bound. lia.
  - intros c q d p Hc Hd Hp. rewrite Forall_forall in Hzero.
    rewrite (Hzero c Hc) in Hd.
    assert (d = 0) as ->.
    { do 5 (destruct q as [|q]; [by simplify_eq/=|]). done. }
    rewrite Forall_lookup in Hpl1. destruct (Hpl1 q p Hp) as [? _]. lia.
Qed.

Lemma sane_step s o s' :
  shape s → sane s → rolled s o → random_ok o →
  run_op o s = (inr tt, s') → sane s'.
Proof.
  intros Hs Hsane Hrolled Hrand Hrun.
  pose proof (run_op_inv _ _ _ Hs Hrun) as Hinv.
  destruct o as [player action rc|shuffle].
  - destruct Hinv as (r & Hp & Ha & Hr & Hpos & ->).
    destruct Hrolled as (randint & _ & Hroll).
    apply sane_place; [done|lia|]. intros p Hpl.
    rewrite <-getitem_nonneg in Hpl by lia.
    destruct (roll_dice_bounds _ _ _ _ _ _ Hroll Hpl) as [_ Hall].
    rewrite getitem_nonneg in Hr by lia.
    rewrite Forall_lookup in Hall. specialize (Hall _ _ Hr). simpl in Hall. lia.
  - destruct Hinv as [_ Hinv].
    destruct (Z.ltb_spec (round s) NUM_ROUNDS).
    + eapply sane_redeal; [| | | |done]; auto using shape_paid_state, sane_paid_state.
    + subst. by apply sane_paid_state.
Qed.

Lemma reachable_sane s paid : reachable rolled s paid → sane s.
Proof.
  induction 1 as [shuffle n s Hsh Hinit|s paid o s' Hreach IH Hallowed Hrand Hrun].
  - by eapply sane_init.
  - eapply sane_step; eauto using reachable_shape.
Qed.

(** ** Scripted games *)

Lemma roll_dice_frame randint player s r s' :
  roll_dice randint player s = (r, s') → s' = s.
Proof.
  unfold roll_dice. rewrite bind_run. unfold player_at.
  destruct (getitem (players s) player); by intros [= _ <-].
Qed.

Lemma drive_reachable cmds s paid s' paid' :
  reachable rolled s paid → Forall cmd_ok cmds →
  drive cmds s paid = Some (s', paid') → reachable rolled s' paid'.
Proof.
  revert s paid. induction cmds as [|c cmds IH]; intros s paid Hreach Hok; simpl.
  - by intros [= <- <-].
  - inversion Hok as [|? ? Hc Hok']; subst.
    destruct c as [randint player action|shuffle].
    + destruct (roll_dice randint player s) as [[e|rc] s1] eqn:Hroll; [done|].
      pose proof (roll_dice_frame _ _ _ _ _ Hroll) as ->.
      destruct (play_move player action rc s) as [[e|[]] s2] eqn:Hmove; [done|].
      apply IH; [|done]. rewrite <-(app_nil_r paid).
      apply (reachable_step rolled s paid (PlayMove player action rc)); try done.
      by exists randint.
    + destruct (advance_round shuffle s) as [[e|[]] s2] eqn:Hadv; [done|].
      apply IH; [|done].
      by apply (reachable_step rolled s paid (AdvanceRound shuffle)).
Qed.

Lemma reachable_mono (P Q : LasVegas → op → Prop) s paid :
  (∀ s o, P s o → Q s o) → reachable P s paid → reachable Q s paid.
Proof.
  intros HPQ. induction 1; [by eapply reachable_init|].
  eapply reachable_step; eauto.
Qed.

Lemma shuffles_id : shuffles id.
Proof. by intros d. Qed.

Lemma shuffles_reverse : shuffles reverse.
Proof. intros d. apply reverse_Permutation. Qed.

Lemma new_game_reachable allowed shuffle n :
  shuffles shuffle → 2 ≤ n ≤ MAX_PLAYERS →
  init shuffle n = inr (new_game shuffle n)
  ∧ reachable allowed (new_game shuffle n) [].
Proof.
  intros Hsh Hn.
  assert (∃ s, init shuffle n = inr s) as [s Hs].
  { unfold init. destruct (Z.leb_spec 2 n); [|lia].
    destruct (Z.leb_spec n MAX_PLAYERS); [|lia]. cbn [andb].
    edestruct deal_bills_succeeds as (cs & s1 & ->); [| |by eauto].
    - cbn [deck]. rewrite (Hsh _). eapply Forall_impl; [apply full_deck_range|].
      simpl. lia.
    - cbn [deck]. rewrite (Permutation_length (Hsh _)). vm_compute. lia. }
  unfold new_game. rewrite Hs. split; [done|]. by eapply reachable_init.
Qed.

(** * The claims *)

(** ** Dealing and moves *)

(** C8.  [deal_bills] on a deck of bills of at least 10: with 30 bills or
    more it succeeds; and whenever it succeeds it returns exactly 6 casinos,
    each with exactly 5 bill slots sorted descending (every slot is a bill of
    the deck or the empty sentinel 0, so the sentinels come last) whose
    non-empty bills sum to at least 50; the bills popped are exactly the
    non-empty bills of the casinos, and the draw loop of one casino, run on
    any rest of the deck, pops at most 5 bills. *)
Theorem deal_bills_dealt s :
  Forall (λ b, 10 ≤ b) (deck s) →
  ((30 ≤ length (deck s))%nat → ∃ cs s', deal_bills s = (inr cs, s'))
  ∧ (∀ cs s', deal_bills s = (inr cs, s') →
       length cs = 6%nat
       ∧ Forall (λ c, length (Casino.bills c) = 5%nat
                      ∧ StronglySorted Z.ge (Casino.bills c)
                      ∧ Forall (λ b, b = 0 ∨ 10 ≤ b) (Casino.bills c)
                      ∧ 50 ≤ sum (leftover (Casino.bills c))) cs
       ∧ deck s ≡ₚ deck s' ++ casino_bills cs)
  ∧ (∀ stack drawn rest,
       stack `suffix_of` reverse (deck s) →
       draw stack [] = (inr drawn, rest) →
       (length drawn ≤ 5)%nat ∧ stack = drawn ++ rest ∧ 50 ≤ sum drawn).
Proof.
  intros Hd. split_and!.
  - by apply deal_bills_succeeds.
  - intros cs s' Hdeal.
    apply deal_bills_inv in Hdeal as (_ & Hlen & Hall & Hperm & _); [|done].
    split_and!; [done| |done].
    apply Forall_forall. intros c Hc. rewrite Forall_forall in Hall.
    destruct (Hall c Hc) as [(? & ? & ?) _]. split_and!; try done.
    apply Forall_forall. intros b Hb.
    destruct (decide (b = 0)); [by left|right].
    rewrite Hperm in Hd. apply Forall_app in Hd as [_ Hd].
    rewrite Forall_forall in Hd. apply Hd.
    unfold casino_bills. apply elem_of_concat.
    exists (leftover (Casino.bills c)). split.
    + unfold leftover. by apply list_elem_of_filter.
    + apply list_elem_of_fmap. by exists c.
  - intros stack drawn rest [k Hk] Hdraw.
    apply draw_inv in Hdraw as (popped & -> & -> & ? & ?);
      [done| |constructor|simpl; lia].
    rewrite <-(reverse_Permutation (deck s)), Hk in Hd.
    by apply Forall_app in Hd as [_ Hd].
Qed.

Lemma deal_bills_dealt_witness :
  ∃ cs s', deal_bills (Build 2 [] full_deck [] 0 1) = (inr cs, s').
Proof.
  refine (proj1 (deal_bills_dealt (Build 2 [] full_deck [] 0 1) _) _).
  - vm_compute. repeat constructor; by intros [=].
  - vm_compute. lia.
Defined.

(** C7.  [play_move] on a game and the six counts of a roll: it raises an
    [AssertionError] and leaves the state as it was when the player is not in
    [0, num_players), when the casino is not in [0, 6), or when
    [roll_counts[action]] is 0; otherwise it succeeds, takes exactly
    [roll_counts[action]] dice from the player and adds as many to the
    player's entry in that casino, changing nothing else. *)
Theorem play_move_spec s player action roll_counts :
  shape s → length roll_counts = 6%nat → Forall (λ r, 0 ≤ r) roll_counts →
  ((¬ 0 ≤ player < num_players s ∨ ¬ 0 ≤ action < 6
    ∨ getitem roll_counts action = Some 0) →
   ∃ msg, play_move player action roll_counts s = (inl (AssertionError msg), s))
  ∧ (0 ≤ player < num_players s → 0 ≤ action < 6 →
     getitem roll_counts action ≠ Some 0 →
     ∃ r p c d,
       roll_counts !! Z.to_nat action = Some r
       ∧ players s !! Z.to_nat player = Some p
       ∧ casinos s !! Z.to_nat action = Some c
       ∧ Casino.dice c !! Z.to_nat player = Some d
       ∧ play_move player action roll_counts s = (inr tt, place player action r s)
       ∧ players (place player action r s) !! Z.to_nat player
         = Some (Player.mk (Player.cash p) (Player.dice p - r))
       ∧ casinos (place player action r s) !! Z.to_nat action
         = Some (Casino.mk (Casino.bills c)
                   (<[Z.to_nat player := d + r]> (Casino.dice c)))).
Proof.
  intros Hs Hlen Hnonneg. pose proof Hs as [Hn Hpl Hcs Hdice].
  unfold MAX_PLAYERS in Hn. rewrite play_move_run by done. split.
  - intros Hbad.
    destruct (Z.leb_spec 0 player); [|by eauto].
    destruct (Z.ltb_spec player (num_players s)); [|by eauto].
    destruct (Z.leb_spec 0 action); [|by eauto].
    destruct (Z.ltb_spec action 6); [|by eauto]. cbn [andb negb].
    destruct Hbad as [?|[?| ->]]; [lia|lia|]. by eauto.
  - intros Hp Ha Hr.
    destruct (Z.leb_spec 0 player); [|lia].
    destruct (Z.ltb_spec player (num_players s)); [|lia].
    destruct (Z.leb_spec 0 action); [|lia].
    destruct (Z.ltb_spec action 6); [|lia]. cbn [andb negb].
    rewrite getitem_nonneg in * by lia.
    destruct (lookup_lt_is_Some_2 roll_counts (Z.to_nat action)) as [r Hr']; [lia|].
    destruct (lookup_lt_is_Some_2 (players s) (Z.to_nat player)) as [p Hp']; [lia|].
    destruct (lookup_lt_is_Some_2 (casinos s) (Z.to_nat action)) as [c Hc]; [lia|].
    assert (length (Casino.dice c) = 5%nat) as Hlenc.
    { by eapply Forall_lookup_1 in Hdice. }
    destruct (lookup_lt_is_Some_2 (Casino.dice c) (Z.to_nat player)) as [d Hd]; [lia|].
    exists r, p, c, d. rewrite Hr'.
    assert (0 < r) as Hpos.
    { rewrite Forall_lookup in Hnonneg. specialize (Hnonneg _ _ Hr').
      assert (r ≠ 0) by congruence. lia. }
    destruct (Z.ltb_spec 0 r); [|lia]. split_and!; try done.
    + unfold place. cbn. by rewrite list_lookup_alter_eq, Hp'.
    + unfold place. cbn. rewrite list_lookup_alter_eq, Hc. simpl.
      by rewrite (alter_insert (λ d, d + r) _ _ d).
Qed.

Lemma play_move_spec_witness :
  ∃ msg, play_move 0 0 [0; 3; 5; 0; 0; 0] (new_game id 2)
         = (inl (AssertionError msg), new_game id 2).
Proof.
  refine (proj1 (play_move_spec (new_game id 2) 0 0 [0; 3; 5; 0; 0; 0] _ _ _) _).
  - split; vm_compute; repeat constructor; by intros [=].
  - reflexivity.
  - repeat constructor; by intros [=].
  - right. right. reflexivity.
Defined.

(** ** Unique counts *)

Lemma counter_perm l1 l2 x : l1 ≡ₚ l2 → counter l1 x = counter l2 x.
Proof. intros Hp. unfold counter. by apply Permutation_count_occ. Qed.

Lemma counter_cons y l x :
  counter (y :: l) x = if decide (y = x) then S (counter l x) else counter l x.
Proof.
  unfold counter. cbn [count_occ].
  destruct (Z.eq_dec y x); [by rewrite decide_True|by rewrite decide_False].
Qed.

Lemma counter_elem l x : x ∈ l → (1 ≤ counter l x)%nat.
Proof. intros Hx%list_elem_of_In. by apply count_occ_In. Qed.

(** A count two slots hold is not unique. *)
Lemma counter_twice l (i j : nat) x :
  l !! i = Some x → l !! j = Some x → i ≠ j → (2 ≤ counter l x)%nat.
Proof.
  assert (∀ i j, (i < j)%nat → l !! i = Some x → l !! j = Some x →
                 (2 ≤ counter l x)%nat) as Hlt.
  { clear i j. intros i j Hij Hi Hj.
    rewrite <-(take_drop_middle l i x Hi). unfold counter.
    rewrite count_occ_app, count_occ_cons_eq by done.
    assert (x ∈ drop (S i) l) as Hx%counter_elem.
    { apply list_elem_of_lookup. exists (j - S i)%nat. rewrite lookup_drop.
      by replace (S i + (j - S i))%nat with j by lia. }
    unfold counter in Hx. lia. }
  intros Hi Hj Hne. destruct (decide (i < j)%nat); [by eapply Hlt|].
  eapply (Hlt j i); [lia|done..].
Qed.

Lemma filter_imap_none {A B} (P : B → Prop) `{∀ y, Decision (P y)}
    (f : nat → A → B) (l : list A) :
  (∀ j a, l !! j = Some a → ¬ P (f j a)) → filter P (imap f l) = [].
Proof.
  revert f. induction l as [|a l IH]; intros f Hnot; [done|].
  rewrite imap_cons, filter_cons, decide_False by by apply (Hnot 0%nat).
  apply IH. intros j a' Hj. by apply (Hnot (S j)).
Qed.

Lemma filter_imap_single {A B} (P : B → Prop) `{∀ y, Decision (P y)}
    (f : nat → A → B) (l : list A) (k : nat) (a : A) :
  l !! k = Some a → P (f k a) →
  (∀ j b, l !! j = Some b → j ≠ k → ¬ P (f j b)) →
  filter P (imap f l) = [f k a].
Proof.
  revert f k. induction l as [|a0 l IH]; intros f k Hk HP Hnot; [done|].
  rewrite imap_cons, filter_cons. destruct k as [|k].
  - simpl in Hk. simplify_eq. rewrite decide_True by done. f_equal.
    apply filter_imap_none. intros j b Hj. by apply (Hnot (S j)).
  - rewrite decide_False by by apply (Hnot 0%nat).
    apply (IH (f ∘ S) k); [done|done|].
    intros j b Hj Hne. apply (Hnot (S j)); [done|lia].
Qed.

(** When one slot alone holds a count of its own, it is the only winner. *)
Lemma winners_single dice (k : nat) x :
  dice !! k = Some x → counter dice x = 1%nat →
  (∀ y, y ∈ dice → y ≠ x → counter dice y ≠ 1%nat) →
  winners dice = [(Z.of_nat k, x)].
Proof.
  intros Hk Hx Hothers.
  assert (filter (λ pc : Z * Z, counter dice pc.2 = 1%nat) (enumerate dice)
          = [(Z.of_nat k, x)]) as Hf.
  { unfold enumerate.
    apply (filter_imap_single (λ pc : Z * Z, counter dice pc.2 = 1%nat)
             (λ (i : nat) (x : Z), (Z.of_nat i, x)) dice k x); [done|done|].
    intros j y Hj Hne. simpl. destruct (decide (y = x)) as [->|].
    - pose proof (counter_twice _ _ _ _ Hj Hk Hne). lia.
    - apply Hothers; [|done]. by eapply list_elem_of_lookup_2. }
  unfold winners. apply Permutation_singleton_r.
  by rewrite payout_order_perm, Hf.
Qed.

(** C1.  In the loop body of [advance_round] for a casino whose five counts
    are two 3s, one 1 and two equal other counts: the players with 3 dice are
    not paid (no player but the one with 1 die is), the player with 1 die is
    paid the first bill of the casino's bill list, and that bill leaves the
    list. *)
Theorem tie_forfeits_rank s (i : nat) c c0 (k : nat) b rest :
  shape s → casinos s !! i = Some c →
  Casino.dice c ≡ₚ [3; 3; 1; c0; c0] → c0 ≠ 3 → c0 ≠ 1 →
  Casino.dice c !! k = Some 1 →
  Casino.bills c = b :: rest →
  ∃ s' p,
    resolve_casino (Z.of_nat i) s = (inr tt, s')
    ∧ (∀ q, Casino.dice c !! q = Some 3 → players s' !! q = players s !! q)
    ∧ (∀ q, q ≠ k → players s' !! q = players s !! q)
    ∧ players s !! k = Some p
    ∧ players s' !! k = Some (Player.mk (Player.cash p + b) (Player.dice p))
    ∧ casinos s' !! i = Some (Casino.mk rest (Casino.dice c)).
Proof.
  intros [Hn Hpl Hcs Hdice] Hc Hperm Hc3 Hc1 Hk Hbills.
  assert (length (Casino.dice c) = 5%nat) as Hlen by by rewrite Hperm.
  destruct (lookup_lt_is_Some_2 (players s) k) as [p Hp].
  { apply lookup_lt_Some in Hk. lia. }
  assert (∀ y, counter (Casino.dice c) y = counter [3; 3; 1; c0; c0] y) as Hcount.
  { intros y. by apply counter_perm. }
  assert (winners (Casino.dice c) = [(Z.of_nat k, 1)]) as Hw.
  { apply winners_single; [done| |].
    - rewrite Hcount, !counter_cons. repeat case_decide; done || lia.
    - intros y Hy Hy1. rewrite Hcount, !counter_cons. rewrite Hperm in Hy.
      repeat (apply elem_of_cons in Hy as [->|Hy]);
        try (by apply not_elem_of_nil in Hy);
        repeat case_decide; done || lia. }
  destruct s as [n pl dk cs fp r]. cbn [players casinos] in *.
  exists (Build n (casino_payout c pl).1 (dk ++ leftover (casino_payout c pl).2)
            (<[i := Casino.mk (casino_payout c pl).2 (Casino.dice c)]> cs) fp r), p.
  rewrite (resolve_casino_run _ _ _ _ _ _ _ c) by (done || lia).
  rewrite casino_payout_closed_form, Hw, Hbills.
  cbn [zip zip_with pay_all foldl fst snd length drop players casinos].
  unfold credit. rewrite Nat2Z.id.
  assert (∀ q, q ≠ k → alter (λ p0, Player.mk (Player.cash p0 + b) (Player.dice p0)) k pl !! q
                       = pl !! q) as Hother.
  { intros q Hq. by rewrite list_lookup_alter_ne. }
  split_and!; try done.
  - intros q Hq. apply Hother. intros ->. congruence.
  - by rewrite list_lookup_alter_eq, Hp.
  - apply list_lookup_insert_eq. by eapply lookup_lt_Some.
Qed.

Lemma tie_forfeits_rank_witness :
  ∃ s' p,
    resolve_casino 0
      (Build 3 (replicate 5 (Player.mk 0 0)) []
         (replicate 6 (Casino.mk [90; 20; 0; 0; 0] [3; 1; 3; 0; 0])) 0 1)
    = (inr tt, s')
    ∧ players s' !! 1%nat = Some (Player.mk (Player.cash p + 90) (Player.dice p)).
Proof.
  edestruct (tie_forfeits_rank
               (Build 3 (replicate 5 (Player.mk 0 0)) []
                  (replicate 6 (Casino.mk [90; 20; 0; 0; 0] [3; 1; 3; 0; 0])) 0 1)
               0%nat (Casino.mk [90; 20; 0; 0; 0] [3; 1; 3; 0; 0]) 0 1%nat 90
               [20; 0; 0; 0])
    as (s' & p & Hrun & _ & _ & _ & Hk & _).
  - split; vm_compute; repeat constructor; by intros [=].
  - reflexivity.
  - cbn. apply perm_skip, perm_swap.
  - done.
  - done.
  - reflexivity.
  - reflexivity.
  - exists s', p. split; [exact Hrun|exact Hk].
Defined.

(** ** The order of the winners *)

Lemma insert_by_count_sorted x l :
  StronglySorted (λ a b : Z * Z, a.2 ≤ b.2) l →
  StronglySorted (λ a b : Z * Z, a.2 ≤ b.2) (insert_by_count x l).
Proof.
  induction 1 as [|y l Hl IH Hy]; simpl.
  - repeat constructor.
  - destruct (Z.leb_spec x.2 y.2).
    + constructor; [by constructor|]. constructor; [done|].
      eapply Forall_impl; [done|]. simpl. lia.
    + constructor; [done|]. rewrite insert_by_count_perm. constructor; [lia|done].
Qed.

Lemma sorted_by_count_sorted l :
  StronglySorted (λ a b : Z * Z, a.2 ≤ b.2) (sorted_by_count l).
Proof.
  induction l as [|x l IH]; simpl; [constructor|]. by apply insert_by_count_sorted.
Qed.

Lemma StronglySorted_filter {A} (R : relation A) (P : A → Prop)
    `{∀ x, Decision (P x)} l :
  StronglySorted R l → StronglySorted R (filter P l).
Proof.
  induction 1 as [|x l Hl IH Hx]; [constructor|].
  rewrite filter_cons. case_decide; [|done]. constructor; [done|].
  apply Forall_forall. intros y [_ Hy]%list_elem_of_filter.
  rewrite Forall_forall in Hx. by apply Hx.
Qed.

Lemma StronglySorted_reverse {A} (R : relation A) l :
  StronglySorted R l → StronglySorted (flip R) (reverse l).
Proof.
  induction 1 as [|x l Hl IH Hx]; [constructor|].
  rewrite reverse_cons. apply StronglySorted_app. split_and!.
  - intros x1 x2 Hx1 ->%list_elem_of_singleton. rewrite elem_of_reverse in Hx1.
    rewrite Forall_forall in Hx. unfold flip. by apply Hx.
  - done.
  - repeat constructor.
Qed.

Lemma StronglySorted_strengthen {A} (R R' : relation A) l :
  StronglySorted R l → NoDup l →
  (∀ x y, x ∈ l → y ∈ l → x ≠ y → R x y → R' x y) →
  StronglySorted R' l.
Proof.
  induction 1 as [|x l Hl IH Hx]; intros Hnd HR; [constructor|].
  apply NoDup_cons in Hnd as [Hxl Hnd]. constructor.
  - apply IH; [done|]. intros y z Hy Hz. apply HR; by constructor.
  - apply Forall_forall. intros y Hy. rewrite Forall_forall in Hx.
    apply HR; [by constructor|by constructor| |by apply Hx].
    intros ->. done.
Qed.

Lemma NoDup_enumerate dice : NoDup (enumerate dice).
Proof.
  apply NoDup_alt. intros i j pc. unfold enumerate. rewrite !list_lookup_imap.
  intros (a & _ & ->)%fmap_Some (b & _ & [= Hij _])%fmap_Some. lia.
Qed.

(** The winners are the slots with a count of their own, and they come in
    strictly descending order of count. *)
Lemma elem_of_winners dice (pc : Z * Z) :
  pc ∈ winners dice
  ↔ 0 ≤ pc.1 ∧ dice !! Z.to_nat pc.1 = Some pc.2 ∧ counter dice pc.2 = 1%nat.
Proof.
  unfold winners. rewrite list_elem_of_filter, elem_of_payout_order. tauto.
Qed.

Lemma winners_descending dice :
  StronglySorted (λ w1 w2 : Z * Z, w2.2 < w1.2) (winners dice).
Proof.
  unfold winners, payout_order. rewrite filter_reverse.
  apply (StronglySorted_reverse (λ w1 w2 : Z * Z, w1.2 < w2.2)).
  set (U := λ pc : Z * Z, counter dice pc.2 = 1%nat).
  apply (StronglySorted_strengthen (λ a b : Z * Z, a.2 ≤ b.2)).
  - apply StronglySorted_filter, sorted_by_count_sorted.
  - apply NoDup_filter. rewrite sorted_by_count_perm. apply NoDup_enumerate.
  - intros [i x] [j y] Hx Hy Hne Hle. simpl in *.
    apply list_elem_of_filter in Hx as [Hux Hx], Hy as [Huy Hy].
    rewrite sorted_by_count_perm in Hx, Hy.
    apply elem_of_enumerate in Hx as [Hi Hx], Hy as [Hj Hy]. unfold U in *.
    simpl in *. destruct (decide (x = y)) as [->|]; [|lia].
    assert (Z.to_nat i ≠ Z.to_nat j) as Hij.
    { intros Heq. apply Hne. f_equal. lia. }
    pose proof (counter_twice _ _ _ _ Hx Hy Hij). lia.
Qed.

(** C2, as the code has it.  In the loop body of [advance_round] for one
    casino, a player whose count another player shares is not paid.  Where
    no slot holds the count 0 alone, a shared count consumes no bill either:
    the bills are handed out in stored order, one each, to the slots whose
    count is not 0 and is their own, highest count first, so the bill a tied
    rank passes over goes to the next lower count held by one slot alone; the
    bills left after that stay with the casino, and the non-empty ones among
    them are appended to the deck.  Nothing more is said here of a casino in
    which one slot alone holds the count 0. *)
Theorem ties_consume_no_bill s (i : nat) c :
  shape s → casinos s !! i = Some c →
  ∃ s',
    resolve_casino (Z.of_nat i) s = (inr tt, s')
    ∧ (∀ (q : nat) x, Casino.dice c !! q = Some x →
         (2 ≤ counter (Casino.dice c) x)%nat → players s' !! q = players s !! q)
    ∧ (counter (Casino.dice c) 0 ≠ 1%nat →
       players s' = pay_all (players s) (zip (winners (Casino.dice c)) (Casino.bills c))
       ∧ (∀ pc : Z * Z, pc ∈ winners (Casino.dice c)
            ↔ 0 ≤ pc.1 ∧ Casino.dice c !! Z.to_nat pc.1 = Some pc.2
              ∧ pc.2 ≠ 0 ∧ counter (Casino.dice c) pc.2 = 1%nat)
       ∧ StronglySorted (λ w1 w2 : Z * Z, w2.2 < w1.2) (winners (Casino.dice c))
       ∧ casinos s' !! i
         = Some (Casino.mk (drop (length (winners (Casino.dice c))) (Casino.bills c))
                   (Casino.dice c))
       ∧ deck s'
         = deck s ++ leftover (drop (length (winners (Casino.dice c))) (Casino.bills c))).
Proof.
  intros [Hn Hpl Hcs Hdice] Hc.
  assert (length (Casino.dice c) = 5%nat) as Hlen.
  { by eapply Forall_lookup_1 in Hdice. }
  destruct s as [n pl dk cs fp r]. cbn [players casinos deck] in *.
  eexists. rewrite (resolve_casino_run _ _ _ _ _ _ _ c) by (done || lia).
  rewrite casino_payout_closed_form. cbn [fst snd players casinos deck].
  split_and!; [done| |].
  - intros q x Hq Hx. apply pay_all_other. apply Forall_forall.
    intros [w b] [_ Hw]%elem_of_zip_l%elem_of_winners Heq. simpl in *.
    destruct Hw as [Hw Hu]. rewrite Heq, Hq in Hw. injection Hw as ->. lia.
  - intros Hzero. split_and!; try done.
    + intros pc. rewrite elem_of_winners. split.
      * intros (? & ? & Hu). split_and!; try done. intros Hpc.
        by rewrite Hpc in Hu.
      * intros (? & ? & _ & ?). done.
    + apply winners_descending.
    + apply list_lookup_insert_eq. by eapply lookup_lt_Some.
Qed.

Lemma ties_consume_no_bill_witness :
  ∃ s',
    resolve_casino 0
      (Build 3 (replicate 5 (Player.mk 0 0)) []
         (replicate 6 (Casino.mk [90; 20; 0; 0; 0] [3; 1; 3; 0; 0])) 0 1)
    = (inr tt, s')
    ∧ players s' !! 0%nat = Some (Player.mk 0 0)
    ∧ players s' !! 1%nat = Some (Player.mk 90 0)
    ∧ deck s' = [20].
Proof.
  edestruct (ties_consume_no_bill
               (Build 3 (replicate 5 (Player.mk 0 0)) []
                  (replicate 6 (Casino.mk [90; 20; 0; 0; 0] [3; 1; 3; 0; 0])) 0 1)
               0%nat (Casino.mk [90; 20; 0; 0; 0] [3; 1; 3; 0; 0]))
    as (s' & Hrun & Htied & Hrule).
  - split; vm_compute; repeat constructor; by intros [=].
  - reflexivity.
  - destruct Hrule as (Hpl & _ & _ & _ & Hdeck); [by vm_compute|].
    exists s'. split; [exact Hrun|]. split.
    + rewrite (Htied 0%nat 3); [reflexivity|reflexivity|vm_compute; lia].
    + rewrite Hpl, Hdeck. split; reflexivity.
Defined.

(** ** Ties and inactive slots in play *)

Lemma die_faces k f1 f2 : 1 ≤ f1 ≤ 6 → 1 ≤ f2 ≤ 6 → die (faces k f1 f2).
Proof. intros ?? j. unfold faces. by destruct (j <? k)%nat. Qed.

Lemma script_reachable shuffle n cmds s paid :
  shuffles shuffle → 2 ≤ n ≤ MAX_PLAYERS → Forall cmd_ok cmds →
  drive cmds (new_game shuffle n) [] = Some (s, paid) →
  reachable rolled s paid.
Proof.
  intros Hsh Hn Hok Hdrive. eapply drive_reachable; [|done..].
  by apply new_game_reachable.
Qed.

(** C2, as the claim has it, fails.  In [tie_game], a state of a game of
    three, the count 3 in casino 0 is shared by players 0 and 1; the bill of
    90 that rank would have taken is paid to player 2, who holds the lower
    count 1: it does not stay with the casino and is not appended to the
    deck. *)
Lemma tied_rank_bill_goes_to_lower_rank :
  reachable rolled tie_game []
  ∧ casinos tie_game !! 0%nat = Some (Casino.mk [90; 0; 0; 0; 0] [3; 3; 1; 0; 0])
  ∧ players tie_game !! 2%nat = Some (Player.mk 0 0)
  ∧ ∃ s', resolve_casino 0 tie_game = (inr tt, s')
          ∧ players s' !! 2%nat = Some (Player.mk 90 0)
          ∧ casinos s' !! 0%nat = Some (Casino.mk [0; 0; 0; 0] [3; 3; 1; 0; 0])
          ∧ deck s' = deck tie_game.
Proof.
  split_and!.
  - apply (script_reachable id 3 tie_script); [apply shuffles_id|done| |by vm_compute].
    unfold tie_script. repeat constructor; apply die_faces; lia.
  - reflexivity.
  - reflexivity.
  - eexists. split; [by vm_compute|]. by split_and!.
Qed.

(** C3, where the code departs from the claim.  [four_game] is a state of a
    game of four played by the rules; its slot 4 is inactive, and the
    resolution of the first round has paid it a bill of 10. *)
Lemma inactive_slot_is_paid :
  reachable rolled four_game.1 four_game.2
  ∧ num_players four_game.1 = 4
  ∧ players four_game.1 !! 4%nat = Some (Player.mk 10 0).
Proof.
  split_and!; [|done..].
  apply (script_reachable reverse 4 four_script);
    [apply shuffles_reverse|done| |by vm_compute].
  unfold four_script. repeat constructor;
    try apply shuffles_id; apply die_faces; lia.
Qed.

(** ** The dice of a player *)

(** C10, as the claim has it, fails.  In a new game of two, [play_move] for
    player 0 and casino 0 with the counts [9, 0, 0, 0, 0, 0] passes the three
    assertions, and leaves player 0 with -1 dice. *)
Lemma unrolled_counts_drive_dice_below_zero :
  play_move 0 0 [9; 0; 0; 0; 0; 0] (new_game id 2)
  = (inr tt, place 0 0 9 (new_game id 2))
  ∧ reachable any_op (place 0 0 9 (new_game id 2)) []
  ∧ players (place 0 0 9 (new_game id 2)) !! 0%nat = Some (Player.mk 0 (-1)).
Proof.
  split_and!; [by vm_compute| |by vm_compute].
  apply (reachable_step any_op (new_game id 2) []
           (PlayMove 0 0 [9; 0; 0; 0; 0; 0])); [|done|done|by vm_compute].
  apply new_game_reachable; [apply shuffles_id|unfold MAX_PLAYERS; lia].
Qed.

Lemma init_players shuffle n s :
  init shuffle n = inr s →
  2 ≤ n ≤ MAX_PLAYERS
  ∧ num_players s = n
  ∧ players s
    = (λ i, if i <? n then Player.mk 0 NUM_DICE else Player.mk 0 0)
        <$> seqZ 0 MAX_PLAYERS.
Proof.
  unfold init. destruct (Z.leb_spec 2 n); [|done].
  destruct (Z.leb_spec n MAX_PLAYERS); [|done]. cbn [andb].
  destruct (deal_bills_frame
              (Build n ((λ i, if i <? n then Player.mk 0 NUM_DICE else Player.mk 0 0)
                          <$> seqZ 0 MAX_PLAYERS) (shuffle full_deck) [] 0 1))
    as [dk Hframe].
  destruct (deal_bills _) as [[e|cs] s1]; [done|]. intros [= <-].
  simpl in Hframe. subst s1. by split_and!.
Qed.

(** The other half of the invariant of inactive slots holds: whatever the
    operations, a slot from [num_players] on never has dice, and
    [num_players] never changes. *)
Lemma inactive_slots_have_no_dice s paid :
  reachable any_op s paid →
  ∀ (q : nat) p, num_players s ≤ Z.of_nat q → players s !! q = Some p →
    Player.dice p = 0.
Proof.
  induction 1 as [shuffle n s Hsh Hinit|s paid o s' Hreach IH _ _ Hrun];
    intros q p Hq Hp.
  - apply init_players in Hinit as (Hn & Hnum & Hpl).
    rewrite Hpl, list_lookup_fmap in Hp. apply fmap_Some in Hp as (i & Hi & ->).
    apply lookup_seqZ in Hi as [-> _]. rewrite Z.add_0_l.
    destruct (Z.ltb_spec (Z.of_nat q) n); [lia|done].
  - pose proof (reachable_shape _ _ _ Hreach) as Hs.
    pose proof (run_op_inv _ _ _ Hs Hrun) as Hinv.
    destruct o as [player action rc|shuffle].
    + destruct Hinv as (r & Hpl & _ & _ & _ & ->). cbn in Hp, Hq.
      rewrite list_lookup_alter_ne in Hp by lia.
      apply (IH q p); [by destruct s|done].
    + destruct Hinv as [_ Hinv].
      destruct (resolve_shape (casinos s) (players s) (deck s)) as (_ & _ & _ & Hd).
      assert (∀ p', (resolve (casinos s) (players s) (deck s)).2.1 !! q = Some p' →
                    Player.dice p' = 0) as Hpaid.
      { intros p' Hp'.
        assert (Player.dice <$> ((resolve (casinos s) (players s) (deck s)).2.1 !! q)
                = Some (Player.dice p')) as Hq' by by rewrite Hp'.
        rewrite <-list_lookup_fmap, Hd, list_lookup_fmap in Hq'.
        apply fmap_Some in Hq' as (p0 & Hp0 & ->). apply (IH q p0); [|done].
        destruct (round s <? NUM_ROUNDS); [|by subst].
        by apply redeal_inv in Hinv as (cs & s1 & _ & ->). }
      destruct (round s <? NUM_ROUNDS).
      * apply redeal_inv in Hinv as (cs & s1 & _ & ->).
        cbn [players num_players paid_state] in *.
        rewrite refill_lookup, bool_decide_false in Hp by lia. by apply Hpaid.
      * subst s'. by apply Hpaid.
Qed.

(** C10, as the code has it.  In every state of a game whose moves play the
    counts of a roll of the player's remaining dice, every player slot has
    between 0 and [NUM_DICE] dice.  Construction gives [NUM_DICE] dice to the
    active slots and 0 to the others, and a resolution before the final round
    gives every active slot [NUM_DICE] dice again. *)
Theorem dice_in_range s paid :
  reachable rolled s paid →
  Forall (λ p, 0 ≤ Player.dice p ≤ NUM_DICE) (players s)
  ∧ (∀ shuffle n s0, init shuffle n = inr s0 →
       ∀ (q : nat) p, players s0 !! q = Some p →
         Player.dice p = if Z.of_nat q <? num_players s0 then NUM_DICE else 0)
  ∧ (∀ shuffle s', round s < NUM_ROUNDS →
       advance_round shuffle s = (inr tt, s') →
       ∀ (q : nat) p, Z.of_nat q < num_players s' → players s' !! q = Some p →
         Player.dice p = NUM_DICE).
Proof.
  intros Hreach. split_and!.
  - apply reachable_sane in Hreach as [_ _ Hpl _ _ _].
    eapply Forall_impl; [done|]. by intros p [? _].
  - intros shuffle n s0 (Hn & -> & ->)%init_players q p Hq.
    rewrite list_lookup_fmap in Hq. apply fmap_Some in Hq as (i & Hi & ->).
    apply lookup_seqZ in Hi as [-> _]. rewrite Z.add_0_l.
    by destruct (Z.of_nat q <? n).
  - intros shuffle s' Hlt Hrun q p Hq Hp.
    pose proof (reachable_shape _ _ _ Hreach) as Hs.
    apply (run_op_inv s (AdvanceRound shuffle)) in Hrun as [_ Hrun]; [|done].
    destruct (Z.ltb_spec (round s) NUM_ROUNDS); [|lia].
    apply redeal_inv in Hrun as (cs & s1 & _ & ->).
    cbn [players num_players paid_state] in *.
    rewrite refill_lookup, bool_decide_true in Hp by lia.
    by apply fmap_Some in Hp as (p0 & _ & ->).
Qed.

Lemma dice_in_range_witness :
  Forall (λ p, 0 ≤ Player.dice p ≤ NUM_DICE) (players four_game.1).
Proof.
  refine (proj1 (dice_in_range four_game.1 four_game.2 _)).
  apply (script_reachable reverse 4 four_script);
    [apply shuffles_reverse|done| |by vm_compute].
  unfold four_script. repeat constructor;
    try apply shuffles_id; apply die_faces; lia.
Defined.

(** ** The 54 bills *)

(** C6, as the claim has it, fails.  [full_game] is the state of a game of
    two after the resolution of its fourth round: the deck holds 46 bills,
    the casinos 4 non-empty bills and 8 bills were paid out, 58 in all; the 4
    bills of the casinos are in the deck as well. *)
Lemma final_resolution_counts_bills_twice :
  reachable rolled full_game.1 full_game.2
  ∧ length (deck full_game.1) = 46%nat
  ∧ length (casino_bills (casinos full_game.1)) = 4%nat
  ∧ length full_game.2 = 8%nat
  ∧ (length (deck full_game.1) + length (casino_bills (casinos full_game.1))
     + length full_game.2 ≠ 54)%nat.
Proof.
  split_and!; [|done..].
  apply (script_reachable id 2 full_script); [apply shuffles_id|done| |by vm_compute].
  unfold full_script, round_script. repeat constructor;
    try apply shuffles_id; apply die_faces; lia.
Qed.

(** C6, as the code has it.  In every state reached without resolving the
    final round, the bills of the deck, the non-empty bills of the casinos
    and the bills paid out so far are together the 54 bills of the game, and
    no empty sentinel is in the deck; and when the final round is then
    resolved, the deck and the bills paid out are together the 54 bills, the
    unpaid bills being appended to the deck and left in the casinos too. *)
Theorem bills_conserved s paid :
  reachable in_play s paid →
  deck s ++ casino_bills (casinos s) ++ paid ≡ₚ full_deck
  ∧ (length (deck s) + length (casino_bills (casinos s)) + length paid = 54)%nat
  ∧ Forall (λ b, b ≠ 0) (deck s)
  ∧ (∀ shuffle s', round s = NUM_ROUNDS →
       advance_round shuffle s = (inr tt, s') →
       deck s' = deck s ++ casino_bills (casinos s')
       ∧ deck s' ++ (paid ++ paid_by (AdvanceRound shuffle) s) ≡ₚ full_deck
       ∧ Forall (λ b, b ≠ 0) (deck s')).
Proof.
  intros Hreach. pose proof (reachable_conserved _ _ Hreach) as Hc.
  pose proof (reachable_shape _ _ _ Hreach) as Hs. unfold conserved in Hc.
  assert (∀ l, l ⊆ full_deck → Forall (λ b, b ≠ 0) l) as Hnz.
  { intros l Hl. apply Forall_forall. intros b Hb%Hl.
    pose proof full_deck_range as Hr. rewrite Forall_forall in Hr.
    specialize (Hr b Hb). lia. }
  split_and!.
  - done.
  - apply Permutation_length in Hc. rewrite !length_app in Hc.
    change (length full_deck) with 54%nat in Hc. lia.
  - apply Hnz. rewrite <-Hc. intros b Hb. apply elem_of_app. by left.
  - intros shuffle s' Hround Hrun.
    apply (run_op_inv s (AdvanceRound shuffle)) in Hrun as [_ Hrun]; [|done].
    destruct (Z.ltb_spec (round s) NUM_ROUNDS); [lia|]. subst s'.
    assert (deck (paid_state s) ++ paid ++ paid_by (AdvanceRound shuffle) s
            ≡ₚ full_deck) as Hfinal.
    { unfold paid_state. cbn [deck paid_by]. rewrite resolve_deck, <-Hc.
      rewrite (resolve_bills (casinos s) (players s) (deck s)).
      rewrite <-!app_assoc. f_equiv. rewrite (app_assoc (casino_bills _)).
      apply Permutation_app_comm. }
    split_and!.
    + unfold paid_state. cbn [deck casinos]. apply resolve_deck.
    + done.
    + apply Hnz. rewrite <-Hfinal. intros b Hb. apply elem_of_app. by left.
Qed.

Lemma bills_conserved_witness :
  (length (deck (new_game id 2)) + length (casino_bills (casinos (new_game id 2)))
   + length (@nil Z) = 54)%nat.
Proof.
  refine (proj1 (proj2 (bills_conserved (new_game id 2) [] _))).
  apply new_game_reachable; [apply shuffles_id|unfold MAX_PLAYERS; lia].
Defined.

(** ** Money *)

Lemma sum_alter (f : Z → Z) l (i : nat) x :
  l !! i = Some x → sum (alter f i l) = sum l - x + f x.
Proof.
  revert i. induction l as [|y l IH]; intros i Hi; [done|].
  destruct i as [|i].
  - injection Hi as ->. change (alter f 0%nat (x :: l)) with (f x :: l).
    rewrite !sum_cons. lia.
  - change (alter f (S i) (y :: l)) with (y :: alter f i l).
    rewrite !sum_cons, (IH i) by done. lia.
Qed.

Lemma sum_leftover l : sum (leftover l) = sum l.
Proof.
  unfold leftover. induction l as [|b l IH]; [done|].
  rewrite filter_cons. case_decide.
  - by rewrite !sum_cons, IH.
  - rewrite sum_cons, IH. lia.
Qed.

Lemma sum_concat ls : sum (concat ls) = sum (sum <$> ls).
Proof.
  induction ls as [|l ls IH]; [done|].
  cbn [concat fmap list_fmap]. by rewrite sum_app, sum_cons, IH.
Qed.

Lemma total_cash_credit pl i b :
  0 ≤ i < Z.of_nat (length pl) → total_cash (credit pl i b) = total_cash pl + b.
Proof.
  intros Hi. unfold total_cash, credit.
  destruct (lookup_lt_is_Some_2 pl (Z.to_nat i)) as [p Hp]; [lia|].
  rewrite (list_fmap_alter Player.cash _ (λ c, c + b)) by by apply Forall_true.
  rewrite (sum_alter _ _ _ (Player.cash p)) by by rewrite list_lookup_fmap, Hp.
  lia.
Qed.

Lemma total_cash_pay_all pl wbs :
  Forall (λ wb : (Z * Z) * Z, 0 ≤ wb.1.1 < Z.of_nat (length pl)) wbs →
  total_cash (pay_all pl wbs) = total_cash pl + sum (wbs.*2).
Proof.
  revert pl. induction wbs as [|wb wbs IH]; intros pl Hall.
  - unfold pay_all. simpl. change (sum []) with 0. lia.
  - inversion Hall as [|? ? Hwb Hall']; subst. unfold pay_all in *. cbn [foldl].
    rewrite IH.
    + rewrite total_cash_credit, fmap_cons, sum_cons by done. lia.
    + eapply Forall_impl; [done|]. intros wb' ?. simpl. by rewrite credit_length.
Qed.

Lemma snd_zip_take {A B} (l : list A) (k : list B) :
  (zip l k).*2 = take (length l) k.
Proof.
  revert k. induction l as [|x l IH]; intros [|y k]; simpl; try done.
  by rewrite IH.
Qed.

(** One casino: what the players gain is what leaves the bill list. *)
Lemma casino_payout_cash c pl :
  (length (Casino.dice c) ≤ length pl)%nat →
  total_cash (casino_payout c pl).1 = total_cash pl + sum (paid_out c)
  ∧ sum (casino_payout c pl).2 + sum (paid_out c) = sum (Casino.bills c).
Proof.
  intros Hlen. rewrite casino_payout_closed_form. cbn [fst snd]. unfold paid_out.
  rewrite sum_leftover. split.
  - rewrite total_cash_pay_all, snd_zip_take; [done|].
    apply Forall_forall. intros [w b] [Hlo [Hw _]]%elem_of_zip_l%elem_of_winners.
    simpl in *. apply lookup_lt_Some in Hw. lia.
  - rewrite <-(take_drop (length (winners (Casino.dice c))) (Casino.bills c)) at 3.
    rewrite sum_app. lia.
Qed.

Lemma resolve_cash cs pl dk :
  Forall (λ c, length (Casino.dice c) ≤ length pl)%nat cs →
  total_cash (resolve cs pl dk).2.1 = total_cash pl + sum (concat (paid_out <$> cs)).
Proof.
  revert pl dk. induction cs as [|c cs IH]; intros pl dk Hall.
  - simpl. change (sum []) with 0. lia.
  - inversion Hall as [|? ? Hc Hall']; subst. cbn [resolve fst snd].
    rewrite IH.
    + destruct (casino_payout_cash c pl Hc) as [-> _].
      rewrite fmap_cons, concat_cons, sum_app. lia.
    + eapply Forall_impl; [done|]. intros c' ?. simpl.
      by rewrite casino_payout_length.
Qed.

Lemma total_cash_refill k m pl : total_cash (refill k m pl) = total_cash pl.
Proof.
  revert k pl. induction m as [|m IH]; intros k pl; simpl; [done|].
  rewrite IH. unfold total_cash. f_equal.
  rewrite (list_fmap_alter Player.cash _ id) by by apply Forall_true.
  by rewrite list_alter_id.
Qed.

(** The cash of the players is worth the bills paid out. *)
Lemma reachable_cash allowed s paid :
  reachable allowed s paid → total_cash (players s) = sum paid.
Proof.
  induction 1 as [shuffle n s Hsh Hinit|s paid o s' Hreach IH _ _ Hrun].
  - apply init_players in Hinit as (_ & _ & ->).
    change (seqZ 0 MAX_PLAYERS) with [0; 1; 2; 3; 4]. unfold total_cash.
    cbn [fmap list_fmap]. by repeat (destruct (_ <? n)).
  - pose proof (reachable_shape _ _ _ Hreach) as Hs.
    pose proof Hs as [_ Hpl _ Hdice].
    pose proof (run_op_inv _ _ _ Hs Hrun) as Hinv. rewrite sum_app, <-IH.
    assert (total_cash (players (paid_state s))
            = total_cash (players s) + sum (concat (paid_out <$> casinos s))) as Hpaid.
    { unfold paid_state. cbn [players]. apply resolve_cash.
      eapply Forall_impl; [done|]. intros c Hc. simpl in *. lia. }
    destruct o as [player action rc|shuffle]; cbn [paid_by].
    + destruct Hinv as (r & _ & _ & _ & _ & ->).
      unfold place, total_cash. cbn [players set_casinos set_players].
      change (sum []) with 0.
      rewrite (list_fmap_alter Player.cash _ id) by by apply Forall_true.
      rewrite list_alter_id by done. lia.
    + destruct Hinv as [_ Hinv]. destruct (round s <? NUM_ROUNDS).
      * apply redeal_inv in Hinv as (cs & s1 & _ & ->). cbn [players].
        by rewrite total_cash_refill.
      * by subst.
Qed.

Lemma bills_value_casino_bills cs : bills_value cs = sum (casino_bills cs).
Proof.
  unfold bills_value, casino_bills. rewrite !sum_concat. f_equal.
  rewrite <-!list_fmap_compose. apply list_fmap_ext. intros _ c _. simpl.
  by rewrite sum_leftover.
Qed.

Lemma paid_state_conserved s paid :
  conserved s paid →
  deck (paid_state s) ++ concat (paid_out <$> casinos s) ++ paid ≡ₚ full_deck.
Proof.
  unfold conserved, paid_state. intros <-. cbn [deck].
  rewrite resolve_deck, (resolve_bills (casinos s) (players s) (deck s)).
  rewrite <-!app_assoc. f_equiv. rewrite !app_assoc. f_equiv.
  apply Permutation_app_comm.
Qed.

Lemma sum_nonneg l : Forall (λ x, 0 ≤ x) l → 0 ≤ sum l.
Proof.
  induction 1 as [|x l Hx _ IH]; [done|]. rewrite sum_cons. lia.
Qed.

Lemma elem_le_sum l x : Forall (λ y, 0 ≤ y) l → x ∈ l → x ≤ sum l.
Proof.
  induction 1 as [|y l Hy Hl IH]; [by intros ?%elem_of_nil|].
  rewrite sum_cons. pose proof (sum_nonneg l Hl).
  intros [->|Hx]%elem_of_cons; [lia|]. specialize (IH Hx). lia.
Qed.

(** The bills paid out and the bills lying in the casinos are never worth
    more than the 54 bills, whatever the driver does; until the final round
    the 54 bills are conserved. *)
Lemma reachable_paid_bound allowed s paid :
  reachable allowed s paid →
  (round s < NUM_ROUNDS → conserved s paid)
  ∧ sum paid + sum (casino_bills (casinos s)) ≤ 2500.
Proof.
  assert (∀ s paid, conserved s paid → sum paid + sum (casino_bills (casinos s)) ≤ 2500)
    as Hle.
  { intros s0 paid0 Hc. pose proof (conserved_deck _ _ Hc) as Hdeck.
    apply sum_perm in Hc. rewrite !sum_app in Hc.
    change (sum full_deck) with 2500 in Hc.
    assert (0 ≤ sum (deck s0)); [|lia].
    apply sum_nonneg. eapply Forall_impl; [done|]. simpl. lia. }
  induction 1 as [shuffle n s Hsh Hinit|s paid o s' Hreach [IHc IHle] _ Hrand Hrun].
  - pose proof (conserved_init _ _ _ Hsh Hinit). split; [done|by apply Hle].
  - pose proof (reachable_shape _ _ _ Hreach) as Hs.
    pose proof (run_op_inv _ _ _ Hs Hrun) as Hinv.
    destruct o as [player action rc|shuffle].
    + destruct Hinv as (r & _ & _ & _ & _ & Hs'). split.
      * intros Hround. apply (conserved_step s); try done.
        apply IHc. subst s'. by destruct s.
      * subst s'. cbn [paid_by]. by rewrite app_nil_r, casino_bills_place.
    + destruct Hinv as [_ Hinv]. destruct (Z.ltb_spec (round s) NUM_ROUNDS).
      * assert (conserved s' (paid ++ paid_by (AdvanceRound shuffle) s)) as Hc.
        { apply (conserved_step s); try done. by apply IHc. }
        split; [done|by apply Hle].
      * subst s'. split; [cbn [round paid_state]; lia|].
        cbn [paid_by]. unfold paid_state. cbn [casinos].
        pose proof (resolve_bills (casinos s) (players s) (deck s)) as Hb.
        apply sum_perm in Hb. rewrite sum_app in Hb. rewrite sum_app. lia.
Qed.

(** In a game played with rolled counts no slot holds more than the 2500 the
    bills are worth. *)
Lemma reachable_cash_bound s paid :
  reachable rolled s paid → Forall (λ p, 0 ≤ Player.cash p ≤ 2500) (players s).
Proof.
  intros Hreach. pose proof (reachable_sane _ _ Hreach) as [_ _ Hpl _ _ Hbills].
  pose proof (reachable_cash _ _ _ Hreach) as Hcash.
  destruct (reachable_paid_bound _ _ _ Hreach) as [_ Hle].
  assert (0 ≤ sum (casino_bills (casinos s))) as Hcb.
  { rewrite <-bills_value_casino_bills. unfold bills_value.
    apply sum_nonneg, Forall_concat, Forall_fmap.
    eapply Forall_impl; [exact Hbills|]. intros c Hc. simpl.
    eapply Forall_impl; [exact Hc|]. simpl. lia. }
  assert (Forall (λ x, 0 ≤ x) (Player.cash <$> players s)) as Hnn.
  { apply Forall_fmap. eapply Forall_impl; [exact Hpl|]. by intros p [_ ?]. }
  apply Forall_forall. intros p Hp.
  assert (Player.cash p ≤ total_cash (players s)).
  { apply elem_le_sum; [done|]. by apply list_elem_of_fmap_2. }
  rewrite Forall_forall in Hnn.
  specialize (Hnn (Player.cash p) (list_elem_of_fmap_2 _ _ _ Hp)). simpl in Hnn. lia.
Qed.

(** ** The final round *)

Lemma round_over_dice n pl pl' :
  Player.dice <$> pl = Player.dice <$> pl' → round_over n pl = round_over n pl'.
Proof.
  intros Heq. unfold round_over.
  assert (∀ l, forallb (λ p, Player.dice p =? 0) l
               = forallb (λ d, d =? 0) (Player.dice <$> l)) as Hfmap.
  { induction l as [|p l IH]; simpl; [done|]. by rewrite IH. }
  by rewrite !Hfmap, !fmap_take, Heq.
Qed.

(** The players after the payout loop: casino after casino, the slots whose
    count is their own are handed the casino's bills in stored order,
    highest count first. *)
Lemma resolve_players cs pl dk :
  (resolve cs pl dk).2.1
  = foldl (λ pl c, pay_all pl (zip (winners (Casino.dice c)) (Casino.bills c))) pl cs.
Proof.
  revert pl dk. induction cs as [|c cs IH]; intros pl dk; [done|].
  cbn [resolve fst snd foldl]. by rewrite IH, casino_payout_closed_form.
Qed.

(** C9.  [advance_round] called in the final round with the round over
    performs the payouts and the recycling and nothing more.  The payouts:
    casino after casino, the slots whose dice count no other slot shares are
    handed the casino's bills in stored order, highest count first, and each
    bill is added to the cash of its slot, so that the cash of all slots
    rises by what the bills handed out are worth.  The recycling: whatever
    the shuffle would be, the deck is the old deck with the unpaid non-empty
    bills appended in order.  Nothing more: the casinos keep their dice
    counts and the bills left after the payouts, no player's dice change,
    [round] and [first_player] stay, and [is_end_game] then returns true. *)
Theorem final_round_resolution shuffle s :
  shape s → round s = NUM_ROUNDS → is_end_round s = (inr true, s) →
  ∃ s', advance_round shuffle s = (inr tt, s')
        ∧ players s'
          = foldl (λ pl c, pay_all pl (zip (winners (Casino.dice c)) (Casino.bills c)))
              (players s) (casinos s)
        ∧ total_cash (players s')
          = total_cash (players s) + sum (concat (paid_out <$> casinos s))
        ∧ round s' = round s
        ∧ first_player s' = first_player s
        ∧ Player.dice <$> players s' = Player.dice <$> players s
        ∧ casinos s'
          = (λ c, Casino.mk (drop (length (winners (Casino.dice c))) (Casino.bills c))
                    (Casino.dice c)) <$> casinos s
        ∧ deck s' = deck s ++ casino_bills (casinos s')
        ∧ is_end_game s' = (inr true, s').
Proof.
  intros Hs Hround Hover. pose proof Hs as [Hn Hpl Hcs Hdice].
  unfold MAX_PLAYERS in Hn.
  rewrite is_end_round_run in Hover by lia. injection Hover as Hover.
  exists (paid_state s). rewrite advance_round_run, Hover, Hround by done.
  destruct (resolve_shape (casinos s) (players s) (deck s)) as (_ & _ & _ & Hd).
  split_and!; try done.
  - unfold paid_state. cbn. apply resolve_players.
  - unfold paid_state. cbn [players]. apply resolve_cash.
    eapply Forall_impl; [exact Hdice|]. intros c Hc. simpl in *. lia.
  - unfold paid_state. cbn. apply resolve_casinos.
  - unfold paid_state. cbn. apply resolve_deck.
  - pose proof (shape_paid_state s Hs) as [Hn' Hpl' _ _].
    unfold is_end_game. rewrite bind_run. unfold get at 1.
    assert (round (paid_state s) = NUM_ROUNDS) as -> by done.
    rewrite is_end_round_run by (unfold MAX_PLAYERS in *; lia).
    do 2 f_equal. cbn [num_players paid_state players].
    by rewrite (round_over_dice _ _ (players s)).
Qed.

Lemma final_round_resolution_witness :
  ∃ s', advance_round reverse
          (Build 2 [Player.mk 0 0; Player.mk 90 0; Player.mk 0 0; Player.mk 0 0;
                    Player.mk 0 0]
             [10; 20]
             (replicate 6 (Casino.mk [50; 40; 30; 0; 0] [3; 5; 0; 0; 0])) 1 4)
        = (inr tt, s')
        ∧ players s' = [Player.mk 240 0; Player.mk 390 0; Player.mk 0 0;
                        Player.mk 0 0; Player.mk 0 0]
        ∧ total_cash (players s') = 90 + 540
        ∧ deck s' = [10; 20; 30; 30; 30; 30; 30; 30].
Proof.
  edestruct (final_round_resolution reverse
               (Build 2 [Player.mk 0 0; Player.mk 90 0; Player.mk 0 0; Player.mk 0 0;
                         Player.mk 0 0]
                  [10; 20]
                  (replicate 6 (Casino.mk [50; 40; 30; 0; 0] [3; 5; 0; 0; 0])) 1 4))
    as (s' & Hrun & Hpl & Hcash & _ & _ & _ & Hcs & Hdeck & _).
  - split; vm_compute; repeat constructor; by intros [=].
  - reflexivity.
  - reflexivity.
  - exists s'. split; [exact Hrun|]. rewrite Hcash, Hpl, Hdeck, Hcs.
    split_and!; reflexivity.
Defined.

(** ** The state vector *)

Lemma truediv_unit a b : 0 ≤ a ≤ b → 0 < b → (0 <= truediv a b)%Q ∧ (truediv a b <= 1)%Q.
Proof.
  intros Ha Hb. destruct b as [|p|p]; [lia| |lia].
  unfold truediv, Qdiv, Qmult, Qinv, Qle, inject_Z. simpl.
  rewrite Pos2Z.inj_mul. lia.
Qed.

Lemma truediv_nonneg a b : 0 ≤ a → 0 < b → (0 <= truediv a b)%Q.
Proof.
  intros Ha Hb. destruct b as [|p|p]; [lia| |lia].
  unfold truediv, Qdiv, Qmult, Qinv, Qle, inject_Z. simpl. lia.
Qed.

Lemma float_overflow_large : 2500 < float_overflow.
Proof. by vm_compute. Qed.

(** A division that returns has a non-zero divisor and returns the
    quotient. *)
Lemma int_truediv_inv a b q : int_truediv a b = inr q → b ≠ 0 ∧ q = truediv a b.
Proof.
  unfold int_truediv. destruct (Z.eqb_spec b 0); [done|].
  destruct (_ <=? _); [done|]. by intros [= <-].
Qed.

(** A division returns when its quotient is within the floats. *)
Lemma int_truediv_ok a b :
  b ≠ 0 → Z.abs a < float_overflow * Z.abs b → int_truediv a b = inr (truediv a b).
Proof.
  intros Hb Ha. unfold int_truediv. destruct (Z.eqb_spec b 0); [done|].
  by destruct (Z.leb_spec (float_overflow * Z.abs b) (Z.abs a)); [lia|].
Qed.

Lemma int_truediv_fits a b :
  fits_float a → 0 < b → int_truediv a b = inr (truediv a b).
Proof.
  unfold fits_float. intros Ha Hb. apply int_truediv_ok; [lia|].
  pose proof float_overflow_large. nia.
Qed.

Lemma for_list_inv {A B} (f : A → result B) (g : A → B) l ys :
  (∀ x y, f x = inr y → y = g x) → for_list f l = inr ys → ys = g <$> l.
Proof.
  intros Hf. revert ys. induction l as [|x l IH]; intros ys; cbn [for_list].
  - by intros [= <-].
  - unfold mbind, result_bind, mret, result_ret.
    destruct (f x) as [e|y] eqn:Hx; [done|].
    destruct (for_list f l) as [e|ys'] eqn:Hl; [done|]. intros [= <-].
    by rewrite (Hf x y Hx), (IH ys').
Qed.

Lemma for_list_ok {A B} (f : A → result B) (g : A → B) l :
  Forall (λ x, f x = inr (g x)) l → for_list f l = inr (g <$> l).
Proof.
  induction 1 as [|x l Hx _ IH]; cbn [for_list]; [done|].
  unfold mbind, result_bind, mret, result_ret. by rewrite Hx, IH.
Qed.

Lemma casino_state_inv player c l :
  casino_state player c = inr l → l = casino_entries player c.
Proof.
  unfold casino_state, casino_entries, mbind, result_bind, mret, result_ret.
  destruct (for_list _ (shifted (Casino.dice c) player)) as [e|ds] eqn:Hds; [done|].
  destruct (for_list _ (shifted (Casino.bills c) player)) as [e|bs] eqn:Hbs; [done|].
  intros [= <-].
  apply (for_list_inv _ (λ d, truediv d NUM_DICE)) in Hds;
    [|by intros x y [_ ->]%int_truediv_inv].
  apply (for_list_inv _ (λ b, truediv b max_bill)) in Hbs;
    [|by intros x y [_ ->]%int_truediv_inv].
  by subst.
Qed.

(** When [get_game_state] returns, [num_players] is not 0 and the vector is
    [state_vector]. *)
Lemma get_game_state_inv s player roll_counts vec :
  get_game_state s player roll_counts = inr vec →
  num_players s ≠ 0 ∧ vec = state_vector s player roll_counts.
Proof.
  unfold get_game_state, state_vector, mbind, result_bind, mret, result_ret.
  destruct (int_truediv (num_players s) MAX_PLAYERS) as [e|v0] eqn:H0; [done|].
  destruct (int_truediv (round s) NUM_ROUNDS) as [e|v1] eqn:H1; [done|].
  destruct (int_truediv (order s player) (num_players s)) as [e|v2] eqn:H2; [done|].
  destruct (for_list _ (shifted _ player)) as [e|cash] eqn:Hcash; [done|].
  destruct (for_list _ (casinos s)) as [e|cs] eqn:Hcs; [done|].
  destruct (for_list _ roll_counts) as [e|rolls] eqn:Hrolls; [done|].
  intros [= <-].
  apply int_truediv_inv in H0 as [_ ->], H1 as [_ ->], H2 as [Hn ->].
  apply (for_list_inv _ (λ c, truediv c CASH_NORM)) in Hcash;
    [|by intros x y [_ ->]%int_truediv_inv].
  apply (for_list_inv _ (casino_entries player)) in Hcs;
    [|by intros x y ->%casino_state_inv].
  apply (for_list_inv _ (λ r, truediv r NUM_DICE)) in Hrolls;
    [|by intros x y [_ ->]%int_truediv_inv].
  by subst.
Qed.

Lemma shifted_length {A} (l : list A) i : length (shifted l i) = length l.
Proof. unfold shifted. rewrite length_app, length_drop, length_take. lia. Qed.

Lemma Forall_shifted {A} (P : A → Prop) (l : list A) i :
  Forall P l → Forall P (shifted l i).
Proof.
  intros Hl. unfold shifted. apply Forall_app.
  split; [by apply Forall_drop|by apply Forall_take].
Qed.

Lemma casino_state_ok player c :
  Forall fits_float (Casino.dice c) → Forall fits_float (Casino.bills c) →
  casino_state player c = inr (casino_entries player c).
Proof.
  intros Hd Hb. unfold casino_state, casino_entries.
  rewrite (for_list_ok (λ d, int_truediv d NUM_DICE) (λ d, truediv d NUM_DICE)).
  2:{ apply Forall_shifted. eapply Forall_impl; [exact Hd|].
      intros d ?. by apply int_truediv_fits. }
  rewrite (for_list_ok (λ b, int_truediv b max_bill) (λ b, truediv b max_bill)); [done|].
  apply Forall_shifted. eapply Forall_impl; [exact Hb|].
  intros b ?. by apply int_truediv_fits.
Qed.

(** When the numbers of the state and the observer are within the floats,
    [get_game_state] gets as far as the roll counts. *)
Lemma get_game_state_rolls s player roll_counts :
  0 < num_players s → fits_float (num_players s) → fits_float (round s) →
  Z.abs (order s player) < float_overflow * num_players s →
  Forall (λ p, fits_float (Player.cash p)) (players s) →
  Forall (λ c, Forall fits_float (Casino.dice c) ∧ Forall fits_float (Casino.bills c))
    (casinos s) →
  get_game_state s player roll_counts
  = rolls ← for_list (λ r, int_truediv r NUM_DICE) roll_counts;
    mret ([truediv (num_players s) MAX_PLAYERS;
           truediv (round s) NUM_ROUNDS;
           truediv (order s player) (num_players s)]
          ++ ((λ c, truediv c CASH_NORM) <$> shifted (Player.cash <$> players s) player)
          ++ concat (casino_entries player <$> casinos s)
          ++ rolls).
Proof.
  intros Hn Hfn Hfr Hord Hcash Hcs. unfold get_game_state.
  rewrite (int_truediv_fits (num_players s)), (int_truediv_fits (round s)) by done.
  rewrite (int_truediv_ok (order s player)) by lia.
  rewrite (for_list_ok (λ c, int_truediv c CASH_NORM) (λ c, truediv c CASH_NORM)).
  2:{ apply Forall_shifted, Forall_fmap. eapply Forall_impl; [exact Hcash|].
      intros p ?. by apply int_truediv_fits. }
  rewrite (for_list_ok (casino_state player) (casino_entries player)); [done|].
  eapply Forall_impl; [exact Hcs|]. intros c [??]. by apply casino_state_ok.
Qed.

(** [get_game_state] returns when the numbers it divides are within the
    floats. *)
Lemma get_game_state_ok s player roll_counts :
  0 < num_players s → fits_float (num_players s) → fits_float (round s) →
  Z.abs (order s player) < float_overflow * num_players s →
  Forall (λ p, fits_float (Player.cash p)) (players s) →
  Forall (λ c, Forall fits_float (Casino.dice c) ∧ Forall fits_float (Casino.bills c))
    (casinos s) →
  Forall fits_float roll_counts →
  get_game_state s player roll_counts = inr (state_vector s player roll_counts).
Proof.
  intros Hn Hfn Hfr Hord Hcash Hcs Hrc. rewrite get_game_state_rolls by done.
  rewrite (for_list_ok (λ r, int_truediv r NUM_DICE) (λ r, truediv r NUM_DICE));
    [done|].
  eapply Forall_impl; [exact Hrc|]. intros r ?. by apply int_truediv_fits.
Qed.

(** A comprehension whose function raises one exception only raises it as
    soon as one element does. *)
Lemma for_list_raises {A B} (f : A → result B) l x e :
  Forall (λ y, f y = inl e ∨ ∃ z, f y = inr z) l → x ∈ l → f x = inl e →
  for_list f l = inl e.
Proof.
  intros Hall Hx Hfx. induction Hall as [|y l Hy _ IH]; [by apply elem_of_nil in Hx|].
  cbn [for_list]. unfold mbind, result_bind.
  apply elem_of_cons in Hx as [<-|Hx]; [by rewrite Hfx|].
  destruct Hy as [->|[z ->]]; [done|]. by rewrite IH.
Qed.

(** For an observer in the list, the rotation starts at the observer. *)
Lemma shifted_lookup {A} (l : list A) (p k : nat) :
  (p ≤ length l)%nat → (k < length l)%nat →
  shifted l (Z.of_nat p) !! k = l !! ((k + p) `mod` length l)%nat.
Proof.
  intros Hp Hk. unfold shifted, slice_bound.
  destruct (Z.ltb_spec (Z.of_nat p) 0); [lia|]. rewrite Nat2Z.id.
  destruct (decide (k < length l - p)%nat).
  - rewrite lookup_app_l by (rewrite length_drop; lia).
    rewrite lookup_drop, Nat.mod_small by lia. f_equal. lia.
  - rewrite lookup_app_r by (rewrite length_drop; lia).
    rewrite length_drop, lookup_take_lt by lia. f_equal.
    apply (Nat.mod_unique _ _ 1%nat); lia.
Qed.

Lemma length_concat_uniform {A} (n : nat) (ls : list (list A)) :
  Forall (λ l, length l = n) ls → length (concat ls) = (length ls * n)%nat.
Proof.
  induction 1 as [|l ls Hl _ IH]; [done|].
  simpl. rewrite length_app, IH, Hl. done.
Qed.

Lemma lookup_concat_uniform {A} (ls : list (list A)) (n j k : nat) l :
  Forall (λ l, length l = n) ls → ls !! j = Some l → (k < n)%nat →
  concat ls !! (j * n + k)%nat = l !! k.
Proof.
  revert j. induction ls as [|l0 ls IH]; intros j Hall Hj Hk; [done|].
  inversion Hall; subst. destruct j as [|j]; simpl in *.
  - simplify_eq. by rewrite lookup_app_l by lia.
  - rewrite lookup_app_r by lia.
    replace (length l0 + j * length l0 + k - length l0)%nat
      with (j * length l0 + k)%nat by lia.
    by apply IH.
Qed.

(** C5, as the claim has it, fails.  In a new game of two, casino 0 stores
    the bills [90, 0, 0, 0, 0].  Entry 13 of the vector, the first bill slot
    of casino 0, is 90/90 for observer 0 and 0/90 for observer 1: the bill
    slots are rotated by the observer's index like the per-player entries. *)
Lemma bill_slots_depend_on_observer :
  casinos (new_game id 2) !! 0%nat = Some (Casino.mk [90; 0; 0; 0; 0] [0; 0; 0; 0; 0])
  ∧ ∃ v0 v1,
      get_game_state (new_game id 2) 0 [8; 0; 0; 0; 0; 0] = inr v0
      ∧ get_game_state (new_game id 2) 1 [8; 0; 0; 0; 0; 0] = inr v1
      ∧ v0 !! 13%nat = Some (truediv 90 max_bill)
      ∧ v1 !! 13%nat = Some (truediv 0 max_bill)
      ∧ ¬ (truediv 90 max_bill == truediv 0 max_bill)%Q.
Proof.
  split; [by vm_compute|]. eexists _, _.
  split_and!; [by vm_compute..|]. by vm_compute.
Qed.

(** C5, as the code has it.  For an observer [player] among the five slots
    of a game whose casinos hold five bill slots each, the entry of the
    vector for bill slot [k] of casino [j] is the stored bill slot
    [(k + player) mod 5] of that casino over the maximum denomination 90, and
    the entry for player slot [k] of casino [j] is the dice count of slot
    [(k + player) mod 5] over [NUM_DICE]: the bill slots are rotated by the
    observer's index as the per-player entries are, and are in stored order
    for observer 0 only. *)
Theorem bill_slots_rotated s player roll_counts vec (j k : nat) c :
  shape s → Forall (λ c, length (Casino.bills c) = 5%nat) (casinos s) →
  0 ≤ player < MAX_PLAYERS →
  get_game_state s player roll_counts = inr vec →
  casinos s !! j = Some c → (k < 5)%nat →
  vec !! (8 + 10 * j + 5 + k)%nat
  = (λ b, truediv b 90) <$> Casino.bills c !! ((k + Z.to_nat player) `mod` 5)%nat
  ∧ vec !! (8 + 10 * j + k)%nat
    = (λ d, truediv d NUM_DICE) <$> Casino.dice c !! ((k + Z.to_nat player) `mod` 5)%nat
  ∧ (player = 0 →
     vec !! (8 + 10 * j + 5 + k)%nat = (λ b, truediv b 90) <$> Casino.bills c !! k).
Proof.
  intros [Hn Hpl Hcs Hdice] Hbills Hp Hvec Hc Hk. unfold MAX_PLAYERS in *.
  apply get_game_state_inv in Hvec as [_ ->]. unfold state_vector.
  assert (length (Casino.dice c) = 5%nat) as Hld by by eapply Forall_lookup_1 in Hdice.
  assert (length (Casino.bills c) = 5%nat) as Hlb by by eapply Forall_lookup_1 in Hbills.
  assert (Forall (λ l : list Q, length l = 10%nat) (casino_entries player <$> casinos s))
    as Hblocks.
  { apply Forall_fmap, Forall_forall. intros c' Hc'. simpl. unfold casino_entries.
    rewrite Forall_forall in Hdice, Hbills.
    rewrite length_app, !length_fmap, !shifted_length, (Hdice c' Hc'), (Hbills c' Hc').
    done. }
  assert (∀ m, (m < 10)%nat →
            ([truediv (num_players s) 5; truediv (round s) NUM_ROUNDS;
              truediv (order s player) (num_players s)]
             ++ ((λ c, truediv c CASH_NORM) <$> shifted (Player.cash <$> players s) player)
             ++ concat (casino_entries player <$> casinos s)
             ++ ((λ r, truediv r NUM_DICE) <$> roll_counts)) !! (8 + 10 * j + m)%nat
            = casino_entries player c !! m) as Hblock.
  { intros m Hm. rewrite lookup_app_r by (simpl; lia).
    rewrite lookup_app_r
      by (rewrite length_fmap, shifted_length, length_fmap; simpl; lia).
    rewrite length_fmap, shifted_length, length_fmap, Hpl. simpl length.
    assert (j < 6)%nat by (apply lookup_lt_Some in Hc; lia).
    rewrite lookup_app_l.
    2:{ rewrite (length_concat_uniform 10); [|done]. rewrite length_fmap. lia. }
    replace (8 + 10 * j + m - 3 - 5)%nat with (j * 10 + m)%nat by lia.
    apply lookup_concat_uniform; [done| |lia].
    by rewrite list_lookup_fmap, Hc. }
  assert (casino_entries player c !! (5 + k)%nat
          = (λ b, truediv b 90) <$> Casino.bills c !! ((k + Z.to_nat player) `mod` 5)%nat)
    as Hbill.
  { unfold casino_entries.
    rewrite lookup_app_r by (rewrite length_fmap, shifted_length; lia).
    rewrite length_fmap, shifted_length, Hld.
    replace (5 + k - 5)%nat with k by lia.
    rewrite list_lookup_fmap. rewrite <-(Z2Nat.id player) at 1 by lia.
    rewrite shifted_lookup by lia. by rewrite Hlb. }
  split_and!.
  - replace (8 + 10 * j + 5 + k)%nat with (8 + 10 * j + (5 + k))%nat by lia.
    by rewrite Hblock by lia.
  - rewrite Hblock by lia. unfold casino_entries.
    rewrite lookup_app_l by (rewrite length_fmap, shifted_length; lia).
    rewrite list_lookup_fmap. rewrite <-(Z2Nat.id player) at 1 by lia.
    rewrite shifted_lookup by lia. by rewrite Hld.
  - intros ->. replace (8 + 10 * j + 5 + k)%nat with (8 + 10 * j + (5 + k))%nat by lia.
    rewrite Hblock, Hbill by lia. change (Z.to_nat 0) with 0%nat.
    by rewrite Nat.add_0_r, Nat.mod_small by lia.
Qed.

Lemma bill_slots_rotated_witness :
  ∃ vec,
    get_game_state (new_game id 2) 1 [8; 0; 0; 0; 0; 0] = inr vec
    ∧ vec !! 13%nat = Some (truediv 0 90).
Proof.
  eexists. split; [vm_compute; reflexivity|].
  refine (proj1 (bill_slots_rotated (new_game id 2) 1 [8; 0; 0; 0; 0; 0] _ 0 0
                   (Casino.mk [90; 0; 0; 0; 0] [0; 0; 0; 0; 0]) _ _ _ _ _ _)).
  - split; vm_compute; repeat constructor; by intros [=].
  - vm_compute. repeat constructor.
  - unfold MAX_PLAYERS. lia.
  - vm_compute. reflexivity.
  - reflexivity.
  - lia.
Defined.

(** C4, as the claim has it, fails.  [cash_game] is a state of a game of two
    played by the rules, in round 2, where player 0 has won 180; for the
    observer 0 and a roll of eight ones the entry 3 of the vector, the
    observer's cash over 100, is 180/100, which is above 1. *)
Lemma cash_entry_above_one :
  reachable rolled cash_game.1 cash_game.2
  ∧ roll_dice (faces 0 1 1) 0 cash_game.1 = (inr [8; 0; 0; 0; 0; 0], cash_game.1)
  ∧ ∃ vec,
      get_game_state cash_game.1 0 [8; 0; 0; 0; 0; 0] = inr vec
      ∧ vec !! 3%nat = Some (truediv 180 CASH_NORM)
      ∧ ¬ (truediv 180 CASH_NORM <= 1)%Q.
Proof.
  split_and!.
  - apply (script_reachable id 2 cash_script); [apply shuffles_id|done| |by vm_compute].
    unfold cash_script. repeat constructor;
      try apply shuffles_id; apply die_faces; lia.
  - by vm_compute.
  - eexists. split_and!; [by vm_compute|by vm_compute|]. by vm_compute.
Qed.

Lemma sane_casino_dice s c :
  shape s → sane s → c ∈ casinos s →
  Forall (λ d, 0 ≤ d ≤ NUM_DICE) (Casino.dice c).
Proof.
  intros [_ Hpl _ Hdice] [_ _ Hplayers Hplaced _ _] Hc.
  apply Forall_lookup. intros q d Hd.
  rewrite Forall_forall in Hdice. specialize (Hdice c Hc).
  destruct (lookup_lt_is_Some_2 (players s) q) as [p Hp].
  { apply lookup_lt_Some in Hd. lia. }
  destruct (Hplaced c q d p Hc Hd Hp).
  rewrite Forall_lookup in Hplayers. destruct (Hplayers q p Hp) as [? _]. lia.
Qed.

(** In a game played with rolled counts every number of the state is within
    the floats. *)
Lemma reachable_fits s paid :
  reachable rolled s paid →
  Forall (λ p, fits_float (Player.cash p)) (players s)
  ∧ Forall (λ c, Forall fits_float (Casino.dice c) ∧ Forall fits_float (Casino.bills c))
      (casinos s).
Proof.
  intros Hreach. pose proof float_overflow_large as Hlarge.
  pose proof (reachable_shape _ _ _ Hreach) as Hs.
  pose proof (reachable_sane _ _ Hreach) as Hsane.
  pose proof Hsane as [_ _ _ _ _ Hbills]. split.
  - eapply Forall_impl; [by eapply reachable_cash_bound|].
    intros p ?. unfold fits_float. simpl in *. lia.
  - apply Forall_forall. intros c Hc. split.
    + eapply Forall_impl; [by apply (sane_casino_dice s c)|].
      intros d ?. unfold fits_float, NUM_DICE in *. simpl in *. lia.
    + rewrite Forall_forall in Hbills. eapply Forall_impl; [by apply Hbills|].
      intros b ?. unfold fits_float. simpl in *. lia.
Qed.

(** C4, as the code has it.  For a state of a game played with rolled
    counts, an active observer and the counts of a roll of the observer's
    dice, [get_game_state] returns the three leading entries, the five cash
    entries and the rest: every entry is at least 0, and every entry other
    than the five cash entries is at most 1; a cash entry is the slot's cash
    over 100, which the winnings can take above 1. *)
Theorem state_vector_range s paid player randint roll_counts :
  reachable rolled s paid → 0 ≤ player < num_players s →
  die randint → roll_dice randint player s = (inr roll_counts, s) →
  ∃ head rest,
    get_game_state s player roll_counts
    = inr (head
           ++ ((λ c, truediv c CASH_NORM) <$> shifted (Player.cash <$> players s) player)
           ++ rest)
    ∧ length head = 3%nat
    ∧ length (shifted (Player.cash <$> players s) player) = 5%nat
    ∧ Forall (λ x, (0 <= x)%Q ∧ (x <= 1)%Q) head
    ∧ Forall (λ x, (0 <= x)%Q)
        ((λ c, truediv c CASH_NORM) <$> shifted (Player.cash <$> players s) player)
    ∧ Forall (λ x, (0 <= x)%Q ∧ (x <= 1)%Q) rest.
Proof.
  intros Hreach Hp Hdie Hroll.
  pose proof (reachable_shape _ _ _ Hreach) as Hs.
  pose proof (reachable_sane _ _ Hreach) as Hsane.
  destruct (reachable_fits _ _ Hreach) as [Hfcash Hfcs].
  pose proof float_overflow_large as Hlarge.
  pose proof Hs as [Hn Hpl Hcs Hdice]. pose proof Hsane as [Hr Hf Hplayers _ _ Hbills].
  unfold MAX_PLAYERS, NUM_ROUNDS, NUM_DICE in *.
  assert (Forall (λ r, 0 ≤ r ≤ 8) roll_counts) as Hrc.
  { destruct (lookup_lt_is_Some_2 (players s) (Z.to_nat player)) as [p Hpp]; [lia|].
    rewrite <-getitem_nonneg in Hpp by lia.
    destruct (roll_dice_bounds _ _ _ _ _ _ Hroll Hpp) as [_ Hall].
    rewrite getitem_nonneg in Hpp by lia.
    rewrite Forall_lookup in Hplayers. destruct (Hplayers _ _ Hpp) as [? _].
    eapply Forall_impl; [done|]. intros r Hr0. simpl in Hr0. lia. }
  assert (0 ≤ order s player < num_players s) as Hord.
  { unfold order. destruct (first_player s <=? player) eqn:E; lia. }
  rewrite get_game_state_ok; [|lia|unfold fits_float; lia..|nia|done|done|].
  2:{ eapply Forall_impl; [exact Hrc|]. intros r ?. unfold fits_float. simpl in *. lia. }
  unfold state_vector.
  eexists [_; _; _], _. split_and!; [reflexivity|done| | | |].
  - by rewrite shifted_length, length_fmap.
  - repeat constructor; try (apply truediv_unit; unfold MAX_PLAYERS, NUM_ROUNDS; lia).
  - apply Forall_fmap, Forall_shifted, Forall_fmap.
    eapply Forall_impl; [done|]. intros p [_ ?]. unfold compose.
    apply truediv_nonneg; [done|by unfold CASH_NORM].
  - apply Forall_app. split.
    + apply Forall_concat, Forall_fmap, Forall_forall. intros c Hc. unfold compose.
      unfold casino_entries. apply Forall_app. split.
      * apply Forall_fmap, Forall_shifted.
        eapply Forall_impl; [by apply (sane_casino_dice s c)|].
        intros d ?. unfold compose. apply truediv_unit; unfold NUM_DICE in *; lia.
      * apply Forall_fmap, Forall_shifted.
        rewrite Forall_forall in Hbills.
        eapply Forall_impl; [by apply Hbills|].
        intros b Hb. unfold compose. change max_bill with 90. simpl in Hb.
        apply truediv_unit; lia.
    + apply Forall_fmap. eapply Forall_impl; [exact Hrc|].
      intros r Hr0. unfold compose. simpl in Hr0.
      apply truediv_unit; unfold NUM_DICE; lia.
Qed.

Lemma state_vector_range_witness :
  ∃ head rest,
    get_game_state cash_game.1 0 [8; 0; 0; 0; 0; 0]
    = inr (head
           ++ ((λ c, truediv c CASH_NORM)
                 <$> shifted (Player.cash <$> players cash_game.1) 0)
           ++ rest)
    ∧ Forall (λ x, (0 <= x)%Q ∧ (x <= 1)%Q) rest.
Proof.
  edestruct (state_vector_range cash_game.1 cash_game.2 0 (faces 0 1 1)
               [8; 0; 0; 0; 0; 0])
    as (head & rest & Hvec & _ & _ & _ & _ & Hrest).
  - apply (script_reachable id 2 cash_script);
      [apply shuffles_id|unfold MAX_PLAYERS; lia| |vm_compute; reflexivity].
    unfold cash_script. repeat constructor;
      try apply shuffles_id; apply die_faces; lia.
  - vm_compute. split; [by intros [=]|reflexivity].
  - apply die_faces; lia.
  - vm_compute. reflexivity.
  - exists head, rest. split; [exact Hvec|exact Hrest].
Defined.

(** * More of the methods *)

(** ** [roll_dice] *)

Lemma roll_counts_cons randint_face roll :
  1 ≤ randint_face ≤ 6 →
  sum ((λ i, Z.of_nat (counter (randint_face :: roll) (i + 1))) <$> seqZ 0 6)
  = 1 + sum ((λ i, Z.of_nat (counter roll (i + 1))) <$> seqZ 0 6).
Proof.
  intros Hf. change (seqZ 0 6) with [0; 1; 2; 3; 4; 5].
  cbn [fmap list_fmap]. rewrite !sum_cons, !counter_cons.
  change (sum []) with 0. simpl Z.add.
  assert (randint_face = 1 ∨ randint_face = 2 ∨ randint_face = 3
          ∨ randint_face = 4 ∨ randint_face = 5 ∨ randint_face = 6)
    as [->|[->|[->|[->|[->| ->]]]]] by lia;
    repeat case_decide; lia.
Qed.

Lemma roll_counts_sum (randint : nat → Z) (idx : list nat) :
  die randint →
  sum ((λ i, Z.of_nat (counter (randint <$> idx) (i + 1))) <$> seqZ 0 6)
  = Z.of_nat (length idx).
Proof.
  intros Hdie. induction idx as [|k idx IH].
  - by vm_compute.
  - rewrite fmap_cons, roll_counts_cons, IH by apply Hdie. simpl length. lia.
Qed.

(** X1.  [roll_dice] for a slot of the player list with [d >= 0] dice, every
    die showing a face from 1 to 6: it returns six counts, none negative,
    that sum to [d], the count at index [i] being the number of dice showing
    [i + 1], and it leaves the game as it was. *)
Theorem roll_dice_counts randint player s p :
  die randint → getitem (players s) player = Some p → 0 ≤ Player.dice p →
  ∃ roll_counts,
    roll_dice randint player s = (inr roll_counts, s)
    ∧ length roll_counts = 6%nat
    ∧ Forall (λ r, 0 ≤ r ≤ Player.dice p) roll_counts
    ∧ sum roll_counts = Player.dice p
    ∧ ∀ (i : nat), (i < 6)%nat →
        roll_counts !! i
        = Some (Z.of_nat (counter (randint <$> seq 0 (Z.to_nat (Player.dice p)))
                            (Z.of_nat i + 1))).
Proof.
  intros Hdie Hp Hd.
  assert (roll_dice randint player s
          = (inr ((λ i, Z.of_nat (counter (randint <$> seq 0 (Z.to_nat (Player.dice p)))
                                    (i + 1))) <$> seqZ 0 6), s)) as Hrun.
  { unfold roll_dice. rewrite bind_run. unfold player_at. by rewrite Hp. }
  eexists. split; [exact Hrun|].
  destruct (roll_dice_bounds _ _ _ _ _ _ Hrun Hp) as [Hlen Hall].
  split_and!; [done| | |].
  - eapply Forall_impl; [done|]. intros r ?. simpl in *. lia.
  - rewrite roll_counts_sum, length_seq by done. lia.
  - intros i Hi. rewrite list_lookup_fmap.
    rewrite (lookup_seqZ_lt 0 6 i) by lia.
    simpl. by rewrite Z.add_0_l.
Qed.

Lemma roll_dice_counts_witness :
  ∃ roll_counts,
    roll_dice (faces 3 2 5) 0 (new_game id 2) = (inr roll_counts, new_game id 2)
    ∧ sum roll_counts = 8.
Proof.
  edestruct (roll_dice_counts (faces 3 2 5) 0 (new_game id 2) (Player.mk 0 8))
    as (rc & Hrun & _ & _ & Hsum & _).
  - apply die_faces; lia.
  - reflexivity.
  - simpl. lia.
  - exists rc. split; [exact Hrun|exact Hsum].
Defined.

(** ** [__init__] *)

Lemma init_inv shuffle n s :
  init shuffle n = inr s →
  2 ≤ n ≤ MAX_PLAYERS
  ∧ ∃ cs dk,
      deal_bills
        (Build n ((λ i, if i <? n then Player.mk 0 NUM_DICE else Player.mk 0 0)
                    <$> seqZ 0 MAX_PLAYERS) (shuffle full_deck) [] 0 1)
      = (inr cs,
         Build n ((λ i, if i <? n then Player.mk 0 NUM_DICE else Player.mk 0 0)
                    <$> seqZ 0 MAX_PLAYERS) dk [] 0 1)
      ∧ s = Build n ((λ i, if i <? n then Player.mk 0 NUM_DICE else Player.mk 0 0)
                       <$> seqZ 0 MAX_PLAYERS) dk cs 0 1.
Proof.
  unfold init. destruct (Z.leb_spec 2 n); [|done].
  destruct (Z.leb_spec n MAX_PLAYERS); [|done]. cbn [andb].
  destruct (deal_bills_frame
              (Build n ((λ i, if i <? n then Player.mk 0 NUM_DICE else Player.mk 0 0)
                          <$> seqZ 0 MAX_PLAYERS) (shuffle full_deck) [] 0 1))
    as [dk Hframe].
  destruct (deal_bills _) as [[e|cs] s1]; [done|]. intros [= <-].
  simpl in Hframe. subst s1. split; [lia|]. by exists cs, dk.
Qed.

(** X2.  [__init__] with a shuffle that permutes the deck.  A number of
    players outside [2, 5] fails the assertion.  Otherwise construction
    succeeds, the deal never running out of bills: the first [num_players]
    of the five slots have [NUM_DICE] dice, the others none, all have cash 0;
    the six casinos are dealt (five sorted slots, non-empty bills worth at
    least 50, no dice placed); the deck and the non-empty bills of the
    casinos are the 54 bills; [first_player] is 0, [round] is 1, and the
    round is not over. *)
Theorem init_spec shuffle n :
  shuffles shuffle →
  (¬ 2 ≤ n ≤ MAX_PLAYERS →
   init shuffle n = inl (AssertionError "Invalid number of players"))
  ∧ (2 ≤ n ≤ MAX_PLAYERS →
     ∃ s, init shuffle n = inr s
          ∧ num_players s = n ∧ first_player s = 0 ∧ round s = 1
          ∧ length (players s) = 5%nat
          ∧ (∀ (q : nat) p, players s !! q = Some p →
               p = if Z.of_nat q <? n then Player.mk 0 NUM_DICE else Player.mk 0 0)
          ∧ length (casinos s) = 6%nat
          ∧ Forall (λ c, dealt (Casino.bills c) ∧ Casino.dice c = [0; 0; 0; 0; 0])
              (casinos s)
          ∧ deck s ++ casino_bills (casinos s) ≡ₚ full_deck
          ∧ is_end_round s = (inr false, s)).
Proof.
  intros Hsh. split.
  - intros Hn. unfold init.
    destruct (Z.leb_spec 2 n); [|done].
    destruct (Z.leb_spec n MAX_PLAYERS); [lia|done].
  - intros Hn.
    destruct (new_game_reachable any_op shuffle n Hsh Hn) as [Hinit Hreach].
    exists (new_game shuffle n). split; [done|].
    pose proof (shape_init _ _ _ Hsh Hinit) as Hshape.
    pose proof (conserved_init _ _ _ Hsh Hinit) as Hcons.
    apply init_inv in Hinit as (_ & cs & dk & Hdeal & Hs).
    apply deal_bills_inv in Hdeal as (_ & Hlen & Hall & _).
    2:{ cbn [deck]. rewrite (Hsh _). eapply Forall_impl; [apply full_deck_range|].
        simpl. lia. }
    unfold conserved in Hcons. rewrite app_nil_r in Hcons.
    rewrite Hs in *. cbn [num_players first_player round players casinos deck] in *.
    assert (∀ (q : nat) p,
              ((λ i, if i <? n then Player.mk 0 NUM_DICE else Player.mk 0 0)
                 <$> seqZ 0 MAX_PLAYERS) !! q = Some p →
              p = if Z.of_nat q <? n then Player.mk 0 NUM_DICE else Player.mk 0 0)
      as Hpl.
    { intros q p Hq. rewrite list_lookup_fmap in Hq.
      apply fmap_Some in Hq as (i & Hi & ->).
      apply lookup_seqZ in Hi as [-> _]. by rewrite Z.add_0_l. }
    destruct Hshape as [_ Hlenpl _ _].
    cbn [num_players first_player round players casinos deck] in Hlenpl.
    split_and!; try done.
    rewrite is_end_round_run
      by (cbn [num_players players]; rewrite Hlenpl; unfold MAX_PLAYERS in *; lia).
    f_equal. f_equal. cbn [num_players players]. unfold round_over.
    replace (Z.to_nat n) with (S (Z.to_nat (n - 1))) by lia.
    change (seqZ 0 MAX_PLAYERS) with [0; 1; 2; 3; 4]. cbn [fmap list_fmap take forallb].
    destruct (Z.ltb_spec 0 n); [|lia]. done.
Qed.

Lemma init_spec_witness :
  ∃ s, init id 3 = inr s ∧ num_players s = 3 ∧ first_player s = 0 ∧ round s = 1.
Proof.
  destruct (init_spec id 3 shuffles_id) as [_ Hok].
  destruct Hok as (s & Hinit & Hn & Hf & Hr & _).
  - unfold MAX_PLAYERS. lia.
  - exists s. by split_and!.
Defined.

(** ** [is_end_round], [is_end_game] and the guard of [advance_round] *)

Lemma round_over_spec n pl :
  round_over n pl = true
  ↔ ∀ (q : nat) p, Z.of_nat q < n → pl !! q = Some p → Player.dice p = 0.
Proof.
  unfold round_over. rewrite forallb_forall. split.
  - intros Hall q p Hq Hp. apply Z.eqb_eq, Hall, list_elem_of_In, elem_of_take.
    exists q. split; [done|lia].
  - intros Hall p [q [Hp Hq]]%list_elem_of_In%elem_of_take.
    apply Z.eqb_eq, (Hall q); [lia|done].
Qed.

(** X3.  On a game, [is_end_round] returns true exactly when each of the
    first [num_players] slots has 0 dice, and [is_end_game] returns true
    exactly when moreover [round] is [NUM_ROUNDS]; neither changes the game.
    While the round is not over, [advance_round] fails its assertion and
    changes nothing, whatever the shuffle would be. *)
Theorem round_queries s :
  shape s →
  ∃ over,
    is_end_round s = (inr over, s)
    ∧ (over = true
       ↔ ∀ (q : nat) p, Z.of_nat q < num_players s → players s !! q = Some p →
           Player.dice p = 0)
    ∧ is_end_game s = (inr ((round s =? NUM_ROUNDS) && over), s)
    ∧ (over = false →
       ∀ shuffle,
         advance_round shuffle s = (inl (AssertionError "Round is not over"), s)).
Proof.
  intros Hs. pose proof Hs as [Hn Hpl _ _]. unfold MAX_PLAYERS in Hn.
  exists (round_over (num_players s) (players s)).
  assert (is_end_round s = (inr (round_over (num_players s) (players s)), s)) as Hrun
    by (apply is_end_round_run; lia).
  split_and!.
  - done.
  - apply round_over_spec.
  - unfold is_end_game. rewrite bind_run. unfold get at 1.
    destruct (round s =? NUM_ROUNDS); [done|]. done.
  - intros Hover shuffle. by rewrite advance_round_run, Hover.
Qed.

Lemma round_queries_witness :
  ∃ over, is_end_round (new_game id 2) = (inr over, new_game id 2)
          ∧ is_end_game (new_game id 2) = (inr ((1 =? NUM_ROUNDS) && over), new_game id 2).
Proof.
  destruct (round_queries (new_game id 2)) as (over & Hr & _ & Hg & _).
  - split; vm_compute; repeat constructor; by intros [=].
  - exists over. split; [exact Hr|exact Hg].
Defined.

(** ** [advance_round] before the final round *)

(** X4.  When [advance_round] succeeds on a game before the final round:
    [round] grows by 1, [first_player] moves on by one slot and wraps at
    [num_players], which stays; every active slot has [NUM_DICE] dice and the
    other slots keep theirs; the six casinos are new, with no dice placed;
    and the new round is not over. *)
Theorem next_round shuffle s s' :
  shape s → round s < NUM_ROUNDS →
  advance_round shuffle s = (inr tt, s') →
  round s' = round s + 1
  ∧ num_players s' = num_players s
  ∧ first_player s' = (first_player s + 1) `mod` num_players s
  ∧ 0 ≤ first_player s' < num_players s'
  ∧ length (players s') = length (players s)
  ∧ (∀ (q : nat) p', players s' !! q = Some p' →
       ∃ p, players s !! q = Some p
            ∧ Player.dice p'
              = if Z.of_nat q <? num_players s then NUM_DICE else Player.dice p)
  ∧ length (casinos s') = 6%nat
  ∧ Forall (λ c, Casino.dice c = [0; 0; 0; 0; 0]) (casinos s')
  ∧ is_end_round s' = (inr false, s').
Proof.
  intros Hs Hlt Hrun. pose proof Hs as [Hn Hpl Hcs Hdice].
  pose proof (shape_step _ (AdvanceRound shuffle) _ Hs Hrun) as Hs'.
  apply (run_op_inv s (AdvanceRound shuffle)) in Hrun as [_ Hrun]; [|done].
  destruct (Z.ltb_spec (round s) NUM_ROUNDS); [|lia].
  apply redeal_inv in Hrun as (cs & s1 & Hdeal & ->).
  apply deal_bills_shape in Hdeal as (_ & Hlen & Hzero).
  destruct (resolve_shape (casinos s) (players s) (deck s)) as (_ & Hlenpl & _ & Hd).
  unfold MAX_PLAYERS in *.
  cbn [round num_players first_player players casinos paid_state] in *.
  assert (∀ (q : nat) p',
            refill 0 (Z.to_nat (num_players s))
              (resolve (casinos s) (players s) (deck s)).2.1 !! q = Some p' →
            ∃ p, players s !! q = Some p
                 ∧ Player.dice p'
                   = if Z.of_nat q <? num_players s then NUM_DICE else Player.dice p)
    as Hplayers.
  { intros q p' Hp'. rewrite refill_lookup in Hp'.
    assert (∀ p0, (resolve (casinos s) (players s) (deck s)).2.1 !! q = Some p0 →
                  ∃ p, players s !! q = Some p ∧ Player.dice p0 = Player.dice p)
      as Hkeep.
    { intros p0 Hp0.
      assert (Player.dice <$> ((resolve (casinos s) (players s) (deck s)).2.1 !! q)
              = Some (Player.dice p0)) as Hq by by rewrite Hp0.
      rewrite <-list_lookup_fmap, Hd, list_lookup_fmap in Hq.
      apply fmap_Some in Hq as (p & Hp & ->). eauto. }
    case_bool_decide as Hq.
    - apply fmap_Some in Hp' as (p0 & Hp0 & ->).
      destruct (Hkeep p0 Hp0) as (p & Hp & _). exists p. split; [done|].
      simpl. destruct (Z.ltb_spec (Z.of_nat q) (num_players s)); [done|lia].
    - destruct (Hkeep p' Hp') as (p & Hp & Heq). exists p. split; [done|].
      destruct (Z.ltb_spec (Z.of_nat q) (num_players s)); [lia|done]. }
  split_and!; try done.
  - apply Z.mod_pos_bound. lia.
  - apply Z.mod_pos_bound. lia.
  - by rewrite refill_length.
  - rewrite is_end_round_run.
    2:{ destruct Hs' as [_ Hpl' _ _]. cbn [num_players players] in *. lia. }
    f_equal. f_equal. cbn [num_players players].
    destruct (round_over _ _) eqn:Hover; [|done]. exfalso.
    rewrite round_over_spec in Hover.
    destruct (lookup_lt_is_Some_2
                (refill 0 (Z.to_nat (num_players s))
                   (resolve (casinos s) (players s) (deck s)).2.1) 0) as [p' Hp'].
    { rewrite refill_length. lia. }
    destruct (Hplayers _ _ Hp') as (p & _ & Hdice8).
    rewrite (Hover 0%nat p') in Hdice8 by (done || lia).
    destruct (Z.ltb_spec (Z.of_nat 0) (num_players s)); [done|lia].
Qed.

Lemma next_round_witness :
  ∃ s', advance_round id
          (Build 2 [Player.mk 0 0; Player.mk 0 0; Player.mk 0 0; Player.mk 0 0;
                    Player.mk 0 0]
             (replicate 30 10)
             (replicate 6 (Casino.mk [50; 0; 0; 0; 0] [3; 5; 0; 0; 0])) 1 2)
        = (inr tt, s')
        ∧ round s' = 3 ∧ first_player s' = 0.
Proof.
  eexists. split; [vm_compute; reflexivity|].
  refine ((λ H, conj (proj1 H) (proj1 (proj2 (proj2 H))))
            (next_round id
               (Build 2 [Player.mk 0 0; Player.mk 0 0; Player.mk 0 0; Player.mk 0 0;
                         Player.mk 0 0]
                  (replicate 30 10)
                  (replicate 6 (Casino.mk [50; 0; 0; 0; 0] [3; 5; 0; 0; 0])) 1 2)
               _ _ _ _)).
  - split; vm_compute; repeat constructor; by intros [=].
  - reflexivity.
  - vm_compute. reflexivity.
Defined.

(** ** Money is neither made nor lost *)

(** X5.  No money is made or lost.  In every state reached without resolving
    the final round, the cash of all slots, the bills of the deck and the
    bills in the casinos are together worth the 2500 of the 54 bills; and
    once the final round is resolved, the cash of all slots and the deck are
    together worth 2500. *)
Theorem money_conserved s paid :
  reachable in_play s paid →
  total_cash (players s) + sum (deck s) + bills_value (casinos s) = 2500
  ∧ (∀ shuffle s', round s = NUM_ROUNDS →
       advance_round shuffle s = (inr tt, s') →
       total_cash (players s') + sum (deck s') = 2500).
Proof.
  intros Hreach.
  pose proof (reachable_cash _ _ _ Hreach) as Hcash.
  pose proof (reachable_conserved _ _ Hreach) as Hc.
  pose proof (reachable_shape _ _ _ Hreach) as Hs.
  split.
  - unfold conserved in Hc. apply sum_perm in Hc. rewrite !sum_app in Hc.
    rewrite bills_value_casino_bills, Hcash.
    change (sum full_deck) with 2500 in Hc. lia.
  - intros shuffle s' Hround Hrun.
    apply (run_op_inv s (AdvanceRound shuffle)) in Hrun as [_ Hrun]; [|done].
    destruct (Z.ltb_spec (round s) NUM_ROUNDS); [lia|]. subst s'.
    apply paid_state_conserved, sum_perm in Hc. rewrite !sum_app in Hc.
    change (sum full_deck) with 2500 in Hc.
    destruct Hs as [_ Hpl _ Hdice].
    unfold paid_state at 1. cbn [players]. rewrite resolve_cash.
    + lia.
    + eapply Forall_impl; [done|]. intros c Hc'. simpl in *. lia.
Qed.

Lemma money_conserved_witness :
  total_cash (players (new_game reverse 4)) + sum (deck (new_game reverse 4))
  + bills_value (casinos (new_game reverse 4)) = 2500.
Proof.
  refine (proj1 (money_conserved (new_game reverse 4) [] _)).
  apply new_game_reachable; [apply shuffles_reverse|unfold MAX_PLAYERS; lia].
Defined.

(** ** The layout of the state vector *)

(** Until the final round is resolved every casino has its five bill slots. *)
Lemma reachable_five_slots s paid :
  reachable in_play s paid →
  Forall (λ c, length (Casino.bills c) = 5%nat) (casinos s).
Proof.
  induction 1 as [shuffle n s Hsh Hinit|s paid o s' Hreach IH Hplay Hrand Hrun].
  - apply init_inv in Hinit as (_ & cs & dk & Hdeal & ->).
    apply deal_bills_inv in Hdeal as (_ & _ & Hall & _).
    + cbn [casinos]. eapply Forall_impl; [done|]. by intros c [[? _] _].
    + cbn [deck]. rewrite (Hsh _). eapply Forall_impl; [apply full_deck_range|].
      simpl. lia.
  - pose proof (reachable_shape _ _ _ Hreach) as Hs.
    pose proof (reachable_conserved _ _ Hreach) as Hc.
    pose proof (run_op_inv _ _ _ Hs Hrun) as Hinv.
    destruct o as [player action rc|shuffle].
    + destruct Hinv as (r & _ & _ & _ & _ & ->). unfold place. cbn [casinos set_casinos].
      apply Forall_alter; [done|]. by intros c _ Hc'.
    + destruct Hinv as [_ Hinv]. cbn in Hplay, Hrand.
      destruct (Z.ltb_spec (round s) NUM_ROUNDS); [|lia].
      apply redeal_inv in Hinv as (cs & s1 & Hdeal & ->).
      apply deal_bills_inv in Hdeal as (_ & _ & Hall & _).
      * cbn [casinos]. eapply Forall_impl; [done|]. by intros c [[? _] _].
      * cbn [deck set_deck]. rewrite (Hrand _).
        pose proof (paid_state_conserved _ _ Hc) as Hp.
        pose proof full_deck_range as Hr. rewrite <-Hp in Hr.
        apply Forall_app in Hr as [Hr _]. eapply Forall_impl; [done|]. simpl. lia.
Qed.

(** X6.  In a game played with rolled counts, until the final round is
    resolved, the state vector has a fixed length: for an observer index and
    six roll counts within the floats [get_game_state] returns 74 entries
    (3 leading entries, 5 cash entries, 10 entries for each of the 6 casinos
    and the 6 roll counts).  The observer need not be a slot of the game. *)
Theorem state_vector_length s paid player roll_counts :
  reachable rolled_in_play s paid →
  fits_float player → length roll_counts = 6%nat → Forall fits_float roll_counts →
  ∃ vec, get_game_state s player roll_counts = inr vec ∧ length vec = 74%nat.
Proof.
  intros Hreach Hplayer Hrc Hfrc.
  assert (reachable rolled s paid) as Hrolled.
  { apply (reachable_mono rolled_in_play); [|done]. by intros s0 o [? _]. }
  assert (reachable in_play s paid) as Hplay.
  { apply (reachable_mono rolled_in_play); [|done]. by intros s0 o [_ ?]. }
  pose proof (reachable_shape _ _ _ Hreach) as [Hn Hpl Hcs Hdice].
  pose proof (reachable_sane _ _ Hrolled) as [Hr Hf _ _ _ _].
  pose proof (reachable_five_slots _ _ Hplay) as Hbills.
  destruct (reachable_fits _ _ Hrolled) as [Hfcash Hfcs].
  pose proof float_overflow_large as Hlarge.
  unfold MAX_PLAYERS, NUM_ROUNDS in *.
  assert (Z.abs (order s player) ≤ Z.abs player + 5) as Hord.
  { unfold order. destruct (first_player s <=? player); lia. }
  unfold fits_float in Hplayer.
  exists (state_vector s player roll_counts). split.
  - apply get_game_state_ok; [lia|unfold fits_float; lia..|nia|done|done|done].
  - unfold state_vector.
    rewrite !length_app, !length_fmap, shifted_length, length_fmap, Hpl, Hrc.
    rewrite (length_concat_uniform 10).
    + rewrite length_fmap, Hcs. done.
    + apply Forall_fmap, Forall_forall. intros c Hc. simpl. unfold casino_entries.
      rewrite Forall_forall in Hdice, Hbills.
      by rewrite length_app, !length_fmap, !shifted_length, (Hdice c Hc), (Hbills c Hc).
Qed.

Lemma state_vector_length_witness :
  ∃ vec, get_game_state (new_game id 2) (-3) [2; 2; 1; 1; 1; 1] = inr vec
         ∧ length vec = 74%nat.
Proof.
  refine (state_vector_length (new_game id 2) [] (-3) [2; 2; 1; 1; 1; 1] _ _ _ _).
  - apply new_game_reachable; [apply shuffles_id|unfold MAX_PLAYERS; lia].
  - by vm_compute.
  - reflexivity.
  - repeat constructor; by vm_compute.
Defined.

(** X15.  A roll count beyond the floats makes [get_game_state] raise.  In a
    game played with rolled counts and for an observer index within the
    floats, if one of the roll counts is [8 * (2^1024 - 2^970)] or more in
    absolute value, its quotient by [NUM_DICE] is no float and the call
    raises [OverflowError]: no vector is returned. *)
Theorem state_vector_overflow s paid player roll_counts r :
  reachable rolled s paid → fits_float player →
  r ∈ roll_counts → float_overflow * NUM_DICE ≤ Z.abs r →
  get_game_state s player roll_counts = inl OverflowError.
Proof.
  intros Hreach Hplayer Hr Hbig.
  pose proof (reachable_shape _ _ _ Hreach) as [Hn Hpl Hcs Hdice].
  pose proof (reachable_sane _ _ Hreach) as [Hround Hf _ _ _ _].
  destruct (reachable_fits _ _ Hreach) as [Hfcash Hfcs].
  pose proof float_overflow_large as Hlarge.
  unfold MAX_PLAYERS, NUM_ROUNDS in *.
  assert (Z.abs (order s player) ≤ Z.abs player + 5) as Hord.
  { unfold order. destruct (first_player s <=? player); lia. }
  unfold fits_float in Hplayer.
  rewrite get_game_state_rolls; [|lia|unfold fits_float; lia..|nia|done|done].
  rewrite (for_list_raises _ _ r OverflowError); [done| |done|].
  - apply Forall_forall. intros y _. unfold int_truediv.
    change (NUM_DICE =? 0) with false. cbn match.
    destruct (_ <=? _); eauto.
  - unfold int_truediv. change (NUM_DICE =? 0) with false. cbn match.
    change (Z.abs NUM_DICE) with NUM_DICE.
    by destruct (Z.leb_spec (float_overflow * NUM_DICE) (Z.abs r)); [|lia].
Qed.

Lemma state_vector_overflow_witness :
  get_game_state (new_game id 2) 0 [10 ^ 400; 0; 0; 0; 0; 0] = inl OverflowError.
Proof.
  refine (state_vector_overflow (new_game id 2) [] 0 [10 ^ 400; 0; 0; 0; 0; 0]
            (10 ^ 400) _ _ _ _).
  - apply new_game_reachable; [apply shuffles_id|unfold MAX_PLAYERS; lia].
  - by vm_compute.
  - apply list_elem_of_here.
  - vm_compute. by intros [=].
Defined.

Lemma reachable_turn allowed s paid :
  reachable allowed s paid →
  1 ≤ round s ≤ NUM_ROUNDS
  ∧ first_player s = (round s - 1) `mod` num_players s.
Proof.
  induction 1 as [shuffle n s Hsh Hinit|s paid o s' Hreach IH _ _ Hrun].
  - apply init_inv in Hinit as (_ & cs & dk & _ & ->). by cbn.
  - pose proof (reachable_shape _ _ _ Hreach) as Hs.
    pose proof Hs as [Hn _ _ _]. unfold MAX_PLAYERS in Hn.
    pose proof (run_op_inv _ _ _ Hs Hrun) as Hinv.
    destruct o as [player action rc|shuffle].
    + destruct Hinv as (r & _ & _ & _ & _ & ->). by destruct s.
    + destruct Hinv as [_ Hinv]. destruct (Z.ltb_spec (round s) NUM_ROUNDS).
      * apply redeal_inv in Hinv as (cs & s1 & _ & ->).
        cbn [round first_player num_players paid_state]. destruct IH as [? ->].
        split; [lia|]. rewrite Zplus_mod_idemp_l. f_equal. lia.
      * by subst.
Qed.

(** X7.  In every state of a game [round] is between 1 and [NUM_ROUNDS] and
    [first_player] is [(round - 1) mod num_players]; and for an active
    observer the three leading entries of the state vector are
    [num_players / 5], [round / 4] and the observer's distance from the first
    player in seating order, [(player - first_player) mod num_players], over
    [num_players]. *)
Theorem turn_order s paid :
  reachable any_op s paid →
  1 ≤ round s ≤ NUM_ROUNDS
  ∧ first_player s = (round s - 1) `mod` num_players s
  ∧ ∀ player roll_counts vec,
      0 ≤ player < num_players s →
      get_game_state s player roll_counts = inr vec →
      vec !! 0%nat = Some (truediv (num_players s) MAX_PLAYERS)
      ∧ vec !! 1%nat = Some (truediv (round s) NUM_ROUNDS)
      ∧ vec !! 2%nat
        = Some (truediv ((player - first_player s) `mod` num_players s)
                  (num_players s)).
Proof.
  intros Hreach. destruct (reachable_turn _ _ _ Hreach) as [Hround Hfirst].
  pose proof (reachable_shape _ _ _ Hreach) as [Hn _ _ _]. unfold MAX_PLAYERS in Hn.
  split_and!; [lia|lia|done|].
  intros player rc vec Hp [_ ->]%get_game_state_inv. unfold state_vector.
  split_and!; [done|done|]. cbn [lookup list_lookup app]. do 2 f_equal.
  assert (0 ≤ first_player s < num_players s) as Hf.
  { rewrite Hfirst. apply Z.mod_pos_bound. lia. }
  unfold order. destruct (Z.leb_spec (first_player s) player).
  - by rewrite Z.mod_small by lia.
  - apply (Z.mod_unique _ _ (-1)); lia.
Qed.

Lemma turn_order_witness :
  first_player cash_game.1 = (round cash_game.1 - 1) `mod` num_players cash_game.1.
Proof.
  refine (proj1 (proj2 (turn_order cash_game.1 cash_game.2 _))).
  apply (reachable_mono rolled); [done|].
  apply (script_reachable id 2 cash_script);
    [apply shuffles_id|unfold MAX_PLAYERS; lia| |vm_compute; reflexivity].
  unfold cash_script. repeat constructor;
    try apply shuffles_id; apply die_faces; lia.
Defined.

(** X8.  The cash entries of the state vector put the observer first: for an
    observer [player] among the five slots, entry [3 + k] is the cash of slot
    [(k + player) mod 5] over 100, so entry 3 is the observer's own cash and
    the others follow in seating order. *)
Theorem cash_slots_rotated s player roll_counts vec (k : nat) :
  shape s → 0 ≤ player < MAX_PLAYERS →
  get_game_state s player roll_counts = inr vec → (k < 5)%nat →
  vec !! (3 + k)%nat
  = (λ p, truediv (Player.cash p) CASH_NORM)
      <$> players s !! ((k + Z.to_nat player) `mod` 5)%nat.
Proof.
  intros [Hn Hpl _ _] Hp Hvec Hk. unfold MAX_PLAYERS in *.
  apply get_game_state_inv in Hvec as [_ ->]. unfold state_vector.
  rewrite lookup_app_r by (simpl; lia). simpl length.
  replace (3 + k - 3)%nat with k by lia.
  rewrite lookup_app_l
    by (rewrite length_fmap, shifted_length, length_fmap; lia).
  rewrite list_lookup_fmap. rewrite <-(Z2Nat.id player) at 1 by lia.
  rewrite shifted_lookup by (rewrite length_fmap; lia).
  rewrite length_fmap, Hpl, list_lookup_fmap. by destruct (players s !! _).
Qed.

Lemma cash_slots_rotated_witness :
  ∃ vec, get_game_state cash_game.1 1 [8; 0; 0; 0; 0; 0] = inr vec
         ∧ vec !! 7%nat = Some (truediv 180 CASH_NORM).
Proof.
  eexists. split; [vm_compute; reflexivity|].
  refine (cash_slots_rotated cash_game.1 1 [8; 0; 0; 0; 0; 0] _ 4 _ _ _ _).
  - split; vm_compute; repeat constructor; by intros [=].
  - unfold MAX_PLAYERS. lia.
  - vm_compute. reflexivity.
  - lia.
Defined.

(** ** Dice are neither made nor lost *)

Lemma placed_dice cs cs' q :
  Casino.dice <$> cs = Casino.dice <$> cs' → placed cs q = placed cs' q.
Proof.
  intros Heq. unfold placed.
  assert (∀ l, (λ c, default 0 (Casino.dice c !! q)) <$> l
               = (λ d : list Z, default 0 (d !! q)) <$> (Casino.dice <$> l)) as Hc
    by (intros l; by rewrite <-list_fmap_compose).
  by rewrite !Hc, Heq.
Qed.

Lemma placed_none cs q :
  Forall (λ c, Casino.dice c = [0; 0; 0; 0; 0]) cs → placed cs q = 0.
Proof.
  unfold placed. induction 1 as [|c cs Hc _ IH]; [done|].
  rewrite fmap_cons, sum_cons, IH, Hc.
  by do 5 (destruct q as [|q]; [done|]).
Qed.

Lemma placed_place cs (a p q : nat) r c :
  Forall (λ c, length (Casino.dice c) = 5%nat) cs → (p < 5)%nat →
  cs !! a = Some c →
  placed
    (alter (λ c, Casino.mk (Casino.bills c) (alter (λ d, d + r) p (Casino.dice c)))
       a cs) q
  = placed cs q + if decide (q = p) then r else 0.
Proof.
  intros Hlen Hp Hc. unfold placed. case_decide as Hq.
  - subst q.
    rewrite (list_fmap_alter _ _ (λ v, v + r)).
    + rewrite (sum_alter _ _ _ (default 0 (Casino.dice c !! p)))
        by by rewrite list_lookup_fmap, Hc.
      lia.
    + eapply Forall_impl; [done|]. intros c' Hc'. simpl in *.
      destruct (lookup_lt_is_Some_2 (Casino.dice c') p) as [d Hd]; [lia|].
      by rewrite list_lookup_alter_eq, Hd.
  - rewrite (list_fmap_alter _ _ id).
    + rewrite list_alter_id by done. lia.
    + apply Forall_true. intros c'. simpl. by rewrite list_lookup_alter_ne.
Qed.

(** X9.  In every state of a game, whatever counts the moves were given, the
    dice a slot still holds and the dice it has placed in the six casinos are
    together [NUM_DICE] for an active slot and 0 for an inactive one. *)
Theorem dice_conserved s paid :
  reachable any_op s paid →
  ∀ (q : nat) p, players s !! q = Some p →
    Player.dice p + placed (casinos s) q
    = if Z.of_nat q <? num_players s then NUM_DICE else 0.
Proof.
  induction 1 as [shuffle n s Hsh Hinit|s paid o s' Hreach IH Hany Hrand Hrun];
    intros q p Hp.
  - apply init_inv in Hinit as (_ & cs & dk & Hdeal & ->).
    apply deal_bills_shape in Hdeal as (_ & _ & Hzero).
    cbn [players casinos num_players] in *. rewrite placed_none by done.
    rewrite list_lookup_fmap in Hp. apply fmap_Some in Hp as (i & Hi & ->).
    apply lookup_seqZ in Hi as [-> _]. rewrite Z.add_0_l.
    destruct (Z.of_nat q <? n); simpl; lia.
  - pose proof (reachable_shape _ _ _ Hreach) as Hs.
    pose proof Hs as [Hn Hpl Hcs Hdice]. unfold MAX_PLAYERS in Hn.
    pose proof (run_op_inv _ _ _ Hs Hrun) as Hinv.
    destruct o as [player action rc|shuffle].
    + destruct Hinv as (r & Hplayer & Haction & _ & _ & ->).
      unfold place in *. cbn [players casinos num_players set_casinos set_players] in *.
      destruct (lookup_lt_is_Some_2 (casinos s) (Z.to_nat action)) as [c Hc]; [lia|].
      rewrite (placed_place _ _ _ _ _ c) by (done || lia).
      rewrite list_lookup_alter in Hp. case_decide as Hq.
      * subst q. apply fmap_Some in Hp as (p0 & Hp0 & ->). simpl.
        specialize (IH _ _ Hp0). rewrite decide_True by done. lia.
      * specialize (IH _ _ Hp). rewrite decide_False by done. lia.
    + destruct Hinv as [_ Hinv].
      destruct (resolve_shape (casinos s) (players s) (deck s)) as (_ & _ & Hcd & Hd).
      assert (∀ p', (resolve (casinos s) (players s) (deck s)).2.1 !! q = Some p' →
                    ∃ p0, players s !! q = Some p0 ∧ Player.dice p' = Player.dice p0)
        as Hkeep.
      { intros p' Hp'.
        assert (Player.dice <$> ((resolve (casinos s) (players s) (deck s)).2.1 !! q)
                = Some (Player.dice p')) as Hq by by rewrite Hp'.
        rewrite <-list_lookup_fmap, Hd, list_lookup_fmap in Hq.
        apply fmap_Some in Hq as (p0 & Hp0 & ->). eauto. }
      destruct (Z.ltb_spec (round s) NUM_ROUNDS).
      * apply redeal_inv in Hinv as (cs & s1 & Hdeal & ->).
        apply deal_bills_shape in Hdeal as (_ & _ & Hzero).
        cbn [players casinos num_players paid_state] in *.
        rewrite placed_none by done. rewrite refill_lookup in Hp.
        case_bool_decide as Hq.
        -- apply fmap_Some in Hp as (p0 & _ & ->). simpl.
           destruct (Z.ltb_spec (Z.of_nat q) (num_players s)); lia.
        -- destruct (Hkeep _ Hp) as (p0 & Hp0 & ->).
           destruct (Z.ltb_spec (Z.of_nat q) (num_players s)); [lia|].
           rewrite (inactive_slots_have_no_dice _ _ Hreach q p0) by (done || lia).
           lia.
      * subst s'. cbn [players casinos num_players paid_state] in *.
        destruct (Hkeep _ Hp) as (p0 & Hp0 & ->).
        rewrite (placed_dice _ (casinos s)) by done. by apply IH.
Qed.

Lemma dice_conserved_witness :
  Player.dice (Player.mk 0 0) + placed (casinos tie_game) 0 = NUM_DICE.
Proof.
  refine (dice_conserved tie_game [] _ 0%nat (Player.mk 0 0) _); [|reflexivity].
  apply (reachable_mono rolled); [done|].
  apply (script_reachable id 3 tie_script);
    [apply shuffles_id|unfold MAX_PLAYERS; lia| |vm_compute; reflexivity].
  unfold tie_script. repeat constructor; apply die_faces; lia.
Defined.

(** ** Running out of bills *)

Lemma draw_fails stack bills e st :
  draw stack bills = (inl e, st) → e = IndexError ∧ st = [].
Proof.
  revert bills. induction stack as [|b stack IH]; intros bills; simpl.
  - destruct (sum bills <? 50); [|done]. by intros [= <- <-].
  - destruct (sum bills <? 50); [|done]. apply IH.
Qed.

Lemma deal_loop_fails n stack e st :
  deal_loop n stack = (inl e, st) → e = IndexError ∧ st = [].
Proof.
  revert stack. induction n as [|n IH]; intros stack; cbn [deal_loop]; [done|].
  destruct (draw stack []) as [[e'|drawn] st1] eqn:Hd.
  - intros [= <- <-]. by eapply draw_fails.
  - destruct (deal_loop n st1) as [[e'|rest] st2] eqn:Hr; [|done].
    intros [= <- <-]. by eapply IH.
Qed.

Lemma casino_bills_lower_bound cs :
  Forall (λ c, 50 ≤ sum (leftover (Casino.bills c))) cs →
  50 * Z.of_nat (length cs) ≤ sum (casino_bills cs).
Proof.
  unfold casino_bills. induction 1 as [|c cs Hc _ IH]; [done|].
  rewrite fmap_cons, concat_cons, sum_app. simpl length. lia.
Qed.

Lemma deal_bills_runs_out s :
  Forall (λ b, 10 ≤ b) (deck s) →
  (∀ e s', deal_bills s = (inl e, s') → e = IndexError ∧ s' = set_deck [] s)
  ∧ (sum (deck s) < 300 → deal_bills s = (inl IndexError, set_deck [] s)).
Proof.
  intros Hd.
  assert (∀ e s', deal_bills s = (inl e, s') → e = IndexError ∧ s' = set_deck [] s)
    as Hfail.
  { intros e s'. unfold deal_bills.
    destruct (deal_loop 6 (reverse (deck s))) as [[e'|bl] st] eqn:Hl; [|done].
    intros [= <- <-]. by apply deal_loop_fails in Hl as [-> ->]. }
  split; [done|]. intros Hsum.
  destruct (deal_bills s) as [[e|cs] s'] eqn:Hdeal.
  - by destruct (Hfail _ _ eq_refl) as [-> ->].
  - exfalso.
    apply deal_bills_inv in Hdeal as (_ & Hlen & Hall & Hperm & _); [|done].
    rewrite Hperm in Hd. apply Forall_app in Hd as [Hd' _].
    pose proof (sum_lower_bound 10 _ Hd').
    apply sum_perm in Hperm. rewrite sum_app in Hperm.
    pose proof (casino_bills_lower_bound cs) as Hcs. rewrite Hlen in Hcs.
    assert (50 * Z.of_nat 6 ≤ sum (casino_bills cs)); [|lia].
    apply Hcs. eapply Forall_impl; [done|]. by intros c [(_ & _ & ?) _].
Qed.

(** X10.  [deal_bills] on a deck of bills of at least 10.  When it fails it
    is with [IndexError], raised by the pop from the empty deck, and it has
    emptied the deck and changed nothing else; and it does fail whenever the
    deck is worth less than 300, the 50 that each of the six casinos needs. *)
Theorem deal_bills_underflow s :
  Forall (λ b, 10 ≤ b) (deck s) →
  (∀ e s', deal_bills s = (inl e, s') → e = IndexError ∧ s' = set_deck [] s)
  ∧ (sum (deck s) < 300 → deal_bills s = (inl IndexError, set_deck [] s)).
Proof. apply deal_bills_runs_out. Qed.

Lemma deal_bills_underflow_witness :
  deal_bills (Build 2 [] [90; 90; 90] [] 0 1)
  = (inl IndexError, Build 2 [] [] [] 0 1).
Proof.
  refine (proj2 (deal_bills_underflow (Build 2 [] [90; 90; 90] [] 0 1) _) _).
  - repeat constructor; by intros [=].
  - reflexivity.
Defined.

Lemma sum_drop_le k l : Forall (λ b, 0 ≤ b) l → sum (drop k l) ≤ sum l.
Proof.
  intros Hl. rewrite <-(take_drop k l) at 2. rewrite sum_app.
  pose proof (sum_lower_bound 0 (take k l) (Forall_take _ _ _ Hl)). lia.
Qed.

Lemma resolve_unpaid_le cs pl dk :
  Forall (λ c, Forall (λ b, 0 ≤ b) (Casino.bills c)) cs →
  sum (casino_bills (resolve cs pl dk).1) ≤ bills_value cs.
Proof.
  intros Hcs. rewrite resolve_casinos, bills_value_casino_bills. unfold casino_bills.
  induction Hcs as [|c cs Hc _ IH]; [done|].
  rewrite !fmap_cons, !concat_cons, !sum_app. cbn [Casino.bills].
  rewrite !sum_leftover. pose proof (sum_drop_le (length (winners (Casino.dice c))) _ Hc).
  lia.
Qed.

(** X11.  [advance_round] before the final round, with the round over, when
    the deck and the casinos together hold bills worth less than 300: the
    payouts and the recycling are done, then the new deal runs out of bills,
    so the call raises [IndexError] and leaves the game with the players paid
    and the casinos as the payouts left them, the deck empty, and [round],
    [first_player] and every player's dice not advanced or reset. *)
Theorem advance_round_underflow shuffle s :
  shape s → shuffles shuffle →
  is_end_round s = (inr true, s) → round s < NUM_ROUNDS →
  Forall (λ b, 10 ≤ b) (deck s) →
  Forall (λ c, Forall (λ b, b = 0 ∨ 10 ≤ b) (Casino.bills c)) (casinos s) →
  sum (deck s) + bills_value (casinos s) < 300 →
  ∃ s', advance_round shuffle s = (inl IndexError, s')
        ∧ s' = set_deck [] (paid_state s)
        ∧ deck s' = []
        ∧ round s' = round s ∧ first_player s' = first_player s
        ∧ Player.dice <$> players s' = Player.dice <$> players s
        ∧ Casino.dice <$> casinos s' = Casino.dice <$> casinos s.
Proof.
  intros Hs Hsh Hover Hround Hdeck Hbills Hsum.
  pose proof Hs as [Hn Hpl _ _]. unfold MAX_PLAYERS in Hn.
  rewrite is_end_round_run in Hover by lia. injection Hover as Hover.
  destruct (resolve_shape (casinos s) (players s) (deck s)) as (_ & _ & Hcd & Hd).
  exists (set_deck [] (paid_state s)). split_and!; try done.
  rewrite advance_round_run, Hover by done.
  destruct (Z.ltb_spec (round s) NUM_ROUNDS); [|lia].
  unfold redeal.
  assert (Forall (λ b, 10 ≤ b) (deck (paid_state s))
          ∧ sum (deck (paid_state s)) < 300) as [Hrange Hless].
  { unfold paid_state. cbn [deck]. rewrite resolve_deck. split.
    - apply Forall_app. split; [done|]. rewrite resolve_casinos.
      apply Forall_forall. intros b Hb.
      apply elem_of_concat in Hb as (l & Hb & Hl).
      apply list_elem_of_fmap in Hl as (c' & -> & Hc').
      apply list_elem_of_fmap in Hc' as (c & -> & Hc). cbn in Hb.
      apply list_elem_of_filter in Hb as [Hb0 Hb%subseteq_drop].
      rewrite Forall_forall in Hbills. specialize (Hbills c Hc).
      rewrite Forall_forall in Hbills. destruct (Hbills b Hb); [done|lia].
    - rewrite sum_app.
      pose proof (resolve_unpaid_le (casinos s) (players s) (deck s)) as Hle.
      assert (sum (casino_bills (resolve (casinos s) (players s) (deck s)).1)
              ≤ bills_value (casinos s)); [|lia].
      apply Hle. eapply Forall_impl; [done|]. intros c Hc. simpl in *.
      eapply Forall_impl; [done|]. intros b ?. simpl in *. lia. }
  destruct (deal_bills_runs_out (set_deck (shuffle (deck (paid_state s))) (paid_state s)))
    as [_ Hfail].
  { cbn [deck set_deck]. by rewrite (Hsh _). }
  rewrite Hfail; [done|]. cbn [deck set_deck].
  by rewrite (sum_perm _ _ (Hsh _)).
Qed.

Lemma advance_round_underflow_witness :
  ∃ s', advance_round id
          (Build 2 [Player.mk 0 0; Player.mk 0 0; Player.mk 0 0; Player.mk 0 0;
                    Player.mk 0 0]
             [10; 20]
             (replicate 6 (Casino.mk [30; 0; 0; 0; 0] [3; 5; 0; 0; 0])) 1 3)
        = (inl IndexError, s')
        ∧ deck s' = [].
Proof.
  edestruct (advance_round_underflow id
               (Build 2 [Player.mk 0 0; Player.mk 0 0; Player.mk 0 0; Player.mk 0 0;
                         Player.mk 0 0]
                  [10; 20]
                  (replicate 6 (Casino.mk [30; 0; 0; 0; 0] [3; 5; 0; 0; 0])) 1 3))
    as (s' & Hrun & _ & Hdeck & _).
  - split; vm_compute; repeat constructor; by intros [=].
  - apply shuffles_id.
  - reflexivity.
  - reflexivity.
  - repeat constructor; by intros [=].
  - cbn [casinos]. apply Forall_replicate. cbn [Casino.bills].
    repeat (apply Forall_cons; split; [lia|]). apply Forall_nil_2.
  - reflexivity.
  - exists s'. split; [exact Hrun|exact Hdeck].
Defined.

(** ** The bill of each winner *)

Lemma NoDup_winners dice : NoDup (winners dice).
Proof.
  unfold winners. apply NoDup_filter.
  rewrite payout_order_perm. apply NoDup_enumerate.
Qed.

(** Two places of the list of winners do not name the same slot. *)
Lemma winners_slots dice (k1 k2 : nat) (w1 w2 : Z * Z) :
  winners dice !! k1 = Some w1 → winners dice !! k2 = Some w2 →
  Z.to_nat w1.1 = Z.to_nat w2.1 → k1 = k2.
Proof.
  intros H1 H2 Heq.
  pose proof (list_elem_of_lookup_2 _ _ _ H1) as (Hlo1 & Hd1 & _)%elem_of_winners.
  pose proof (list_elem_of_lookup_2 _ _ _ H2) as (Hlo2 & Hd2 & _)%elem_of_winners.
  assert (w1 = w2) as <-.
  { destruct w1 as [i1 x1], w2 as [i2 x2]. simpl in *.
    rewrite Heq, Hd2 in Hd1. injection Hd1 as ->. f_equal. lia. }
  by eapply NoDup_lookup; [apply NoDup_winners|..].
Qed.

Lemma pay_all_lookup pl wbs (k : nat) (w : Z * Z) b p :
  (∀ (k1 k2 : nat) (wb1 wb2 : (Z * Z) * Z),
     wbs !! k1 = Some wb1 → wbs !! k2 = Some wb2 →
     Z.to_nat wb1.1.1 = Z.to_nat wb2.1.1 → k1 = k2) →
  wbs !! k = Some (w, b) → pl !! Z.to_nat w.1 = Some p →
  pay_all pl wbs !! Z.to_nat w.1
  = Some (Player.mk (Player.cash p + b) (Player.dice p)).
Proof.
  revert pl k. induction wbs as [|wb wbs IH]; intros pl k Hinj Hk Hp; [done|].
  change (pay_all pl (wb :: wbs)) with (pay_all (credit pl wb.1.1 wb.2) wbs).
  destruct k as [|k].
  - injection Hk as ->. cbn [fst snd].
    rewrite (pay_all_other (credit pl w.1 b) wbs (Z.to_nat w.1)).
    + unfold credit. by rewrite list_lookup_alter_eq, Hp.
    + apply Forall_lookup. intros j wb' Hj Heq.
      by specialize (Hinj (S j) 0%nat wb' (w, b) Hj eq_refl Heq).
  - apply (IH _ k).
    + intros k1 k2 wb1 wb2 H1 H2. intros Heq.
      by specialize (Hinj (S k1) (S k2) wb1 wb2 H1 H2 Heq) as [= ->].
    + done.
    + unfold credit. rewrite list_lookup_alter_ne; [done|]. intros Heq.
      by specialize (Hinj 0%nat (S k) wb (w, b) eq_refl Hk Heq).
Qed.

(** X12.  In the payout of one casino the [k]-th slot among those whose
    count no other slot shares, counted from the highest count down, is paid
    exactly the [k]-th bill of the casino's list, whatever ties lie between:
    its cash grows by that bill and its dice stay. *)
Theorem winner_is_paid_its_rank s (i k : nat) c (w : Z * Z) b p :
  shape s → casinos s !! i = Some c →
  winners (Casino.dice c) !! k = Some w → Casino.bills c !! k = Some b →
  players s !! Z.to_nat w.1 = Some p →
  ∃ s', resolve_casino (Z.of_nat i) s = (inr tt, s')
        ∧ players s' !! Z.to_nat w.1
          = Some (Player.mk (Player.cash p + b) (Player.dice p)).
Proof.
  intros [Hn Hpl Hcs Hdice] Hc Hw Hb Hp.
  assert (length (Casino.dice c) = 5%nat) as Hlen.
  { by eapply Forall_lookup_1 in Hdice. }
  destruct s as [n pl dk cs fp r]. cbn [players casinos] in *.
  eexists. rewrite (resolve_casino_run _ _ _ _ _ _ _ c) by (done || lia).
  split; [done|]. cbn [players]. rewrite casino_payout_closed_form. cbn [fst].
  apply (pay_all_lookup _ _ k); [|by apply lookup_zip_with_Some; eauto|done].
  intros k1 k2 [w1 b1] [w2 b2] H1 H2 Heq. simpl in Heq.
  apply lookup_zip_with_Some in H1 as (? & ? & [= <- <-] & H1 & _).
  apply lookup_zip_with_Some in H2 as (? & ? & [= <- <-] & H2 & _).
  by eapply winners_slots.
Qed.

Lemma winner_is_paid_its_rank_witness :
  ∃ s', resolve_casino 0
          (Build 3 (replicate 5 (Player.mk 0 0)) []
             (replicate 6 (Casino.mk [90; 20; 0; 0; 0] [3; 1; 3; 2; 0])) 0 1)
        = (inr tt, s')
        ∧ players s' !! 1%nat = Some (Player.mk (0 + 20) 0).
Proof.
  refine (winner_is_paid_its_rank
            (Build 3 (replicate 5 (Player.mk 0 0)) []
               (replicate 6 (Casino.mk [90; 20; 0; 0; 0] [3; 1; 3; 2; 0])) 0 1)
            0 1 (Casino.mk [90; 20; 0; 0; 0] [3; 1; 3; 2; 0]) (1, 1) 20
            (Player.mk 0 0) _ _ _ _ _).
  - split; vm_compute; repeat constructor; by intros [=].
  - reflexivity.
  - vm_compute. reflexivity.
  - reflexivity.
  - reflexivity.
Defined.

(** ** The outcomes of [play_move] *)

(** X13.  [play_move] on a game.  It succeeds exactly when the player is
    active, the casino is one of the six and [roll_counts[action]] exists and
    is positive, and the state is then the one with that many dice moved; it
    does not look at the dice the player has left.  With player and casino in
    range, a list of counts too short for the casino raises [IndexError] and
    a count that is zero or negative fails the assertion; whenever it raises,
    the game is as it was. *)
Theorem play_move_outcomes s player action roll_counts :
  shape s →
  (∀ s', play_move player action roll_counts s = (inr tt, s')
         ↔ 0 ≤ player < num_players s ∧ 0 ≤ action < 6
           ∧ ∃ r, getitem roll_counts action = Some r ∧ 0 < r
                  ∧ s' = place player action r s)
  ∧ (∀ e s', play_move player action roll_counts s = (inl e, s') → s' = s)
  ∧ (0 ≤ player < num_players s → 0 ≤ action < 6 →
     getitem roll_counts action = None →
     play_move player action roll_counts s = (inl IndexError, s))
  ∧ (0 ≤ player < num_players s → 0 ≤ action < 6 →
     ∀ r, getitem roll_counts action = Some r → r ≤ 0 →
       play_move player action roll_counts s
       = (inl (AssertionError "No dice to play"), s)).
Proof.
  intros Hs. rewrite play_move_run by done.
  destruct (Z.leb_spec 0 player); cbn [andb negb].
  2:{ split_and!; [|by intros e s' [= _ <-]|lia|lia].
      intros s'. split; [done|]. lia. }
  destruct (Z.ltb_spec player (num_players s)); cbn [andb negb].
  2:{ split_and!; [|by intros e s' [= _ <-]|lia|lia].
      intros s'. split; [done|]. lia. }
  destruct (Z.leb_spec 0 action); cbn [andb negb].
  2:{ split_and!; [|by intros e s' [= _ <-]|lia|lia].
      intros s'. split; [done|]. lia. }
  destruct (Z.ltb_spec action 6); cbn [andb negb].
  2:{ split_and!; [|by intros e s' [= _ <-]|lia|lia].
      intros s'. split; [done|]. lia. }
  destruct (getitem roll_counts action) as [r|].
  - destruct (Z.ltb_spec 0 r).
    + split_and!; [|done|done|].
      * intros s'. split.
        -- intros [= <-]. split_and!; try lia. exists r. by split_and!.
        -- intros (_ & _ & r' & [= <-] & _ & ->). done.
      * intros _ _ r' [= <-] ?. lia.
    + split_and!; [|by intros e s' [= _ <-]|done|by intros _ _ r' [= <-] _].
      intros s'. split; [done|]. intros (_ & _ & r' & [= <-] & ? & _). lia.
  - split_and!; [|by intros e s' [= _ <-]|done|done].
    intros s'. split; [done|]. by intros (_ & _ & r' & ? & _).
Qed.

Lemma play_move_outcomes_witness :
  play_move 1 2 [4; 4] (new_game id 2) = (inl IndexError, new_game id 2).
Proof.
  refine (proj1 (proj2 (proj2 (play_move_outcomes (new_game id 2) 1 2 [4; 4] _)))
            _ _ _).
  - split; vm_compute; repeat constructor; by intros [=].
  - vm_compute. split; [by intros [=]|reflexivity].
  - lia.
  - reflexivity.
Defined.

(** ** The order of moves *)

Lemma alter_comm {A} (f g : A → A) (i j : nat) (l : list A) :
  (∀ x, f (g x) = g (f x)) → alter f i (alter g j l) = alter g j (alter f i l).
Proof.
  intros Hfg. destruct (decide (i = j)) as [->|Hij].
  - apply list_eq. intros k. destruct (decide (k = j)) as [->|].
    + rewrite !list_lookup_alter_eq. destruct (l !! j); simpl; by rewrite ?Hfg.
    + by rewrite !list_lookup_alter_ne.
  - by apply list_alter_alter_ne.
Qed.

Lemma place_comm p1 a1 r1 p2 a2 r2 s :
  place p1 a1 r1 (place p2 a2 r2 s) = place p2 a2 r2 (place p1 a1 r1 s).
Proof.
  unfold place. destruct s as [n pl dk cs fp r]. unfold set_casinos, set_players.
  cbn [num_players players deck casinos first_player round]. f_equal.
  - apply alter_comm. intros p. simpl. f_equal. lia.
  - apply alter_comm. intros c. simpl. f_equal.
    apply alter_comm. intros d. lia.
Qed.

Lemma play_move_ok s player action roll_counts r :
  shape s → 0 ≤ player < num_players s → 0 ≤ action < 6 →
  getitem roll_counts action = Some r → 0 < r →
  play_move player action roll_counts s = (inr tt, place player action r s).
Proof.
  intros Hs Hp Ha Hr Hpos. rewrite play_move_run by done.
  destruct (Z.leb_spec 0 player); [|lia].
  destruct (Z.ltb_spec player (num_players s)); [|lia].
  destruct (Z.leb_spec 0 action); [|lia].
  destruct (Z.ltb_spec action 6); [|lia]. cbn [andb negb]. rewrite Hr.
  by destruct (Z.ltb_spec 0 r); [|lia].
Qed.

(** X14.  Moves can be swapped: when [play_move] for one player, casino and
    roll and then [play_move] for another succeed, they succeed in the other
    order too, and the game ends in the same state. *)
Theorem play_move_swap s s' p1 a1 rc1 p2 a2 rc2 :
  shape s →
  (play_move p1 a1 rc1;; play_move p2 a2 rc2) s = (inr tt, s') →
  (play_move p2 a2 rc2;; play_move p1 a1 rc1) s = (inr tt, s').
Proof.
  intros Hs. rewrite !bind_run.
  destruct (play_move p1 a1 rc1 s) as [[e|[]] s1] eqn:H1; [done|].
  intros H2.
  apply (run_op_inv s (PlayMove p1 a1 rc1)) in H1
    as (r1 & Hp1 & Ha1 & Hr1 & Hpos1 & ->); [|done].
  pose proof (shape_place p1 a1 r1 s Hs) as Hs1.
  apply (run_op_inv _ (PlayMove p2 a2 rc2)) in H2
    as (r2 & Hp2 & Ha2 & Hr2 & Hpos2 & ->); [|done].
  assert (num_players (place p1 a1 r1 s) = num_players s) as Hn1 by by destruct s.
  rewrite Hn1 in Hp2.
  rewrite (play_move_ok s p2 a2 rc2 r2) by done.
  rewrite (play_move_ok _ p1 a1 rc1 r1); [| |by destruct s|done..].
  - by rewrite place_comm.
  - by apply shape_place.
Qed.

Lemma play_move_swap_witness :
  (play_move 1 3 [0; 0; 0; 2; 6; 0];; play_move 0 0 [5; 3; 0; 0; 0; 0])
    (new_game id 2)
  = (inr tt, place 1 3 2 (place 0 0 5 (new_game id 2))).
Proof.
  refine (play_move_swap (new_game id 2) _ 0 0 [5; 3; 0; 0; 0; 0]
            1 3 [0; 0; 0; 2; 6; 0] _ _).
  - split; vm_compute; repeat constructor; by intros [=].
  - vm_compute. reflexivity.
Defined.
